(** * vulkan-core: block validation, serialization and Merkle commitment

    A shallow embedding of [src/core/block.c] and [src/core/merkle.c],
    over the data layout of [src/transaction.h].

    Conventions of the embedding
    - [uint8_t], [uint32_t] and [uint64_t] values are integers in [Z]; the
      places where C arithmetic can wrap are written with [to_uint32].
    - a byte array is a [list byte]; a 32-byte hash is a list of length
      [HASH_SIZE] (the well-formedness predicates say so), and copying or
      comparing one whole hash array is copying or comparing the list.
    - a pointer that the code tests against NULL is an [option]; an array
      is a list, read with [array_get], which faults out of range.
    - a C function that can hit an [assert], a NULL dereference or an
      out-of-range read returns an [outcome]; [assert(p != NULL)] on a
      pointer [p] is the [None] branch of a match, which faults.
    - [malloc] is taken to succeed. *)

From Stdlib Require Import ZArith Lia List.
From Stdlib Require Import Strings.Byte.
From stdpp Require Import base tactics option list numbers.

Local Open Scope Z_scope.

Set Default Proof Using "Type".

(** ** Machine integers *)

Definition to_uint32 (z : Z) : Z := z mod 2 ^ 32.

Definition is_uint32 (z : Z) : Prop := 0 <= z < 2 ^ 32.
Definition is_uint64 (z : Z) : Prop := 0 <= z < 2 ^ 64.

(** ** Bytes and little-endian integers *)

#[global] Instance byte_eq_dec : EqDecision byte := Byte.byte_eq_dec.

Definition byte_of_Z (z : Z) : byte :=
  default x00 (Byte.of_N (Z.to_N (z mod 256))).

Definition Z_of_byte (b : byte) : Z := Z.of_N (Byte.to_N b).

(** The [width] low-order bytes of [v], least significant first. *)
Fixpoint encode_le (width : nat) (v : Z) : list byte :=
  match width with
  | O => []
  | S w => byte_of_Z v :: encode_le w (v / 256)
  end.

Fixpoint decode_le (bs : list byte) : Z :=
  match bs with
  | [] => 0
  | b :: rest => Z_of_byte b + 256 * decode_le rest
  end.

(** ** Outcomes of C calls *)

Inductive fault : Type :=
| assertion_failed
| null_dereference
| out_of_bounds
| fuel_exhausted.

Inductive outcome (A : Type) : Type :=
| Ret (a : A)
| Crash (f : fault).

Arguments Ret {A} a.
Arguments Crash {A} f.

#[global] Instance outcome_ret : MRet outcome := fun A a => Ret a.

#[global] Instance outcome_bind : MBind outcome := fun A B k m =>
  match m with
  | Ret a => k a
  | Crash f => Crash f
  end.

(** [arr[i]] for an array of [A]. *)
Definition array_get {A : Type} (arr : list A) (i : Z) : outcome A :=
  if i <? 0 then Crash out_of_bounds
  else match arr !! Z.to_nat i with
       | Some a => Ret a
       | None => Crash out_of_bounds
       end.

(** [p[i]] where the array pointer [p] itself may be NULL. *)
Definition ptr_array_get {A : Type} (p : option (list A)) (i : Z) : outcome A :=
  match p with
  | None => Crash null_dereference
  | Some arr => array_get arr i
  end.

(** Control flow of a loop body: fall through to the next iteration
    ([continue], or the end of the body) with the loop-carried state, or
    [return r] from the enclosing function. *)
Inductive ctl (S R : Type) : Type :=
| Continue (s : S)
| Return (r : R).

Arguments Continue {S R} s.
Arguments Return {S R} r.

(** [for (i = lo; i < lo + n; i++) body] *)
Fixpoint for_loop {S R : Type} (n : nat) (i : Z)
    (body : Z -> S -> outcome (ctl S R)) (s : S) : outcome (ctl S R) :=
  match n with
  | O => Ret (Continue s)
  | Datatypes.S n' =>
      c ← body i s;
      match c with
      | Continue s' => for_loop n' (i + 1) body s'
      | Return r => Ret (Return r)
      end
  end.

(** [for (uint32_t i = 0; i < count; i++) body] *)
Definition for_each_index {S R : Type} (count : Z)
    (body : Z -> S -> outcome (ctl S R)) (s : S) : outcome (ctl S R) :=
  for_loop (Z.to_nat count) 0 body s.

(** [while (cond) body], with an iteration budget: a loop that is still
    running when the budget is spent is reported as [fuel_exhausted]. *)
Fixpoint while_loop {S R : Type} (fuel : nat) (cond : S -> bool)
    (body : S -> outcome (ctl S R)) (s : S) : outcome (ctl S R) :=
  match fuel with
  | O => Crash fuel_exhausted
  | Datatypes.S fuel' =>
      if cond s
      then c ← body s;
           match c with
           | Continue s' => while_loop fuel' cond body s'
           | Return r => Ret (Return r)
           end
      else Ret (Continue s)
  end.

(** The state a loop without [return] ends in. *)
Definition loop_state {S : Type} (c : ctl S Empty_set) : S :=
  match c with
  | Continue s => s
  | Return r => match r with end
  end.

(** [&bytes[offset]] read for [len] bytes. *)
Definition slice (bytes : list byte) (offset len : Z) : outcome (list byte) :=
  if (0 <=? offset) && (0 <=? len) && (offset + len <=? Z.of_nat (length bytes))
  then Ret (take (Z.to_nat len) (drop (Z.to_nat offset) bytes))
  else Crash out_of_bounds.

(** Modelled from the spec: [compare_hash] is declared in common/util.h, which
    is not under src/. Hashes are equal iff their bytes are equal; block.c
    rejects a block when [compare_hash] of two transaction ids is non-zero and
    accepts a hash when it is non-zero against the expected one, so non-zero
    means equal. *)
Definition compare_hash (a b : list byte) : Z :=
  if decide (a = b) then 1 else 0.

(** ** Constants *)

(** Modelled from the spec: [HASH_SIZE] is declared outside src/
    (the spec fixes [HASH_SIZE = 32]; transaction.h sizes its hash arrays
    with the literal 32). *)
Definition HASH_SIZE : Z := 32.

(** A hash array holds [HASH_SIZE] bytes. *)
Definition hash_wf (h : list byte) : Prop := length h = Z.to_nat HASH_SIZE.

(** Modelled from the spec: [BLOCK_HEADER_SIZE] is declared in block.h,
    which is not under src/ (the spec fixes [BLOCK_HEADER_SIZE = 92]). *)
Definition BLOCK_HEADER_SIZE : Z := 92.


(** * Properties *)

(** ** Bytes *)

Lemma Z_of_byte_of_Z (z : Z) : Z_of_byte (byte_of_Z z) = z mod 256.
Proof.
  unfold Z_of_byte, byte_of_Z.
  assert (Hr : 0 <= z mod 256 < 256) by (apply Z.mod_pos_bound; lia).
  destruct (Byte.of_N (Z.to_N (z mod 256))) as [b|] eqn:E.
  - apply Byte.to_of_N in E. simpl. rewrite E. lia.
  - apply Byte.of_N_None_iff in E. lia.
Qed.

Lemma Z_of_byte_range (b : byte) : 0 <= Z_of_byte b < 256.
Proof.
  unfold Z_of_byte. pose proof (Byte.to_N_bounded b). lia.
Qed.

Lemma length_encode_le (width : nat) (v : Z) : length (encode_le width v) = width.
Proof.
  revert v. induction width as [|w IH]; intros v; simpl; [reflexivity|].
  now rewrite IH.
Qed.

Lemma decode_encode_le (width : nat) (v : Z) :
  decode_le (encode_le width v) = v mod 256 ^ Z.of_nat width.
Proof.
  revert v. induction width as [|w IH]; intros v.
  - simpl. now rewrite Z.mod_1_r.
  - cbn [encode_le decode_le]. rewrite IH, Z_of_byte_of_Z.
    rewrite Nat2Z.inj_succ, Z.pow_succ_r by lia.
    rewrite Z.rem_mul_r by lia. reflexivity.
Qed.

Lemma decode_encode_uint32 (v : Z) : is_uint32 v -> decode_le (encode_le 4 v) = v.
Proof.
  intros Hv. rewrite decode_encode_le. apply Z.mod_small. exact Hv.
Qed.

Lemma decode_encode_uint64 (v : Z) : is_uint64 v -> decode_le (encode_le 8 v) = v.
Proof.
  intros Hv. rewrite decode_encode_le. apply Z.mod_small. exact Hv.
Qed.

(** ** Loops *)

Lemma for_loop_S {S R : Type} (n : nat) (i : Z)
    (body : Z -> S -> outcome (ctl S R)) (s : S) :
  for_loop (Datatypes.S n) i body s =
  body i s ≫= (fun c => match c with
                        | Continue s' => for_loop n (i + 1) body s'
                        | Return r => Ret (Return r)
                        end).
Proof. reflexivity. Qed.

Lemma while_loop_S {S R : Type} (fuel : nat) (cond : S -> bool)
    (body : S -> outcome (ctl S R)) (s : S) :
  while_loop (Datatypes.S fuel) cond body s =
  if cond s
  then body s ≫= (fun c => match c with
                           | Continue s' => while_loop fuel cond body s'
                           | Return r => Ret (Return r)
                           end)
  else Ret (Continue s).
Proof. reflexivity. Qed.

Lemma array_get_lookup {A : Type} (arr : list A) (i : nat) (a : A) :
  arr !! i = Some a -> array_get arr (Z.of_nat i) = Ret a.
Proof.
  intros H. unfold array_get.
  destruct (Z.ltb_spec (Z.of_nat i) 0) as [?|_]; [lia|].
  now rewrite Nat2Z.id, H.
Qed.

Lemma array_get_Ret {A : Type} (arr : list A) (i : Z) (a : A) :
  array_get arr i = Ret a -> 0 <= i /\ arr !! Z.to_nat i = Some a.
Proof.
  unfold array_get. destruct (Z.ltb_spec i 0) as [?|?]; [discriminate|].
  destruct (arr !! Z.to_nat i) eqn:E; [|discriminate].
  intros [= ->]. split; [lia | reflexivity].
Qed.

Lemma bind_Ret {A B : Type} (m : outcome A) (k : A -> outcome B) (b : B) :
  m ≫= k = Ret b -> exists a, m = Ret a /\ k a = Ret b.
Proof.
  destruct m as [a|f]; simpl; [eauto | discriminate].
Qed.


Lemma slice_app (l1 h l2 : list byte) :
  slice (l1 ++ h ++ l2) (Z.of_nat (length l1)) (Z.of_nat (length h)) = Ret h.
Proof.
  unfold slice.
  rewrite !length_app, !Nat2Z.id.
  replace (_ && _ && _) with true
    by (symmetry; rewrite !andb_true_iff, !Z.leb_le; lia).
  rewrite drop_app_length, take_app_length. reflexivity.
Qed.

Lemma for_loop_ext {S R : Type} (n : nat) (i : Z)
    (body body' : Z -> S -> outcome (ctl S R)) (s : S) :
  (forall j s', i <= j < i + Z.of_nat n -> body j s' = body' j s') ->
  for_loop n i body s = for_loop n i body' s.
Proof.
  revert i s. induction n as [|n IH]; intros i s H; [reflexivity|].
  rewrite !for_loop_S, H by lia.
  destruct (body' i s) as [[s'|r]|f]; cbn [mbind outcome_bind]; try reflexivity.
  apply IH. intros j s'' Hj. apply H. lia.
Qed.

(** A loop that ran to its end ran every iteration to its end. *)
Lemma for_loop_Continue {R : Type} (n : nat) (i : Z)
    (body : Z -> unit -> outcome (ctl unit R)) :
  for_loop n i body tt = Ret (Continue tt) <->
  (forall j, i <= j < i + Z.of_nat n -> body j tt = Ret (Continue tt)).
Proof.
  revert i. induction n as [|n IH]; intros i.
  - split; [intros _ j Hj; lia | reflexivity].
  - rewrite for_loop_S. split.
    + intros H j Hj.
      destruct (body i tt) as [[[]|r]|f] eqn:Hb; try discriminate.
      cbn [mbind outcome_bind] in H.
      destruct (Z.eq_dec j i) as [->|Hne]; [exact Hb|].
      apply (proj1 (IH (i + 1)) H). lia.
    + intros H. rewrite (H i) by lia. cbn [mbind outcome_bind].
      apply IH. intros j Hj. apply H. lia.
Qed.

(** A [return] out of a loop is a [return] of one of its iterations. *)
Lemma for_loop_Return {S R : Type} (n : nat) (i : Z)
    (body : Z -> S -> outcome (ctl S R)) (s : S) (r : R) :
  for_loop n i body s = Ret (Return r) ->
  exists j s', i <= j < i + Z.of_nat n /\ body j s' = Ret (Return r).
Proof.
  revert i s. induction n as [|n IH]; intros i s; [discriminate|].
  rewrite for_loop_S. intros H.
  destruct (body i s) as [[s'|r']|f] eqn:Hb; try discriminate.
  - cbn [mbind outcome_bind] in H. apply IH in H as (j & s'' & Hj & Hr).
    exists j, s''. split; [lia | exact Hr].
  - cbn [mbind outcome_bind] in H. injection H as ->.
    exists i, s. split; [lia | exact Hb].
Qed.

(** A loop whose iterations neither fault nor diverge ends or returns. *)
Lemma for_loop_total {R : Type} (n : nat) (i : Z)
    (body : Z -> unit -> outcome (ctl unit R)) :
  (forall j, i <= j < i + Z.of_nat n -> exists c, body j tt = Ret c) ->
  exists c, for_loop n i body tt = Ret c.
Proof.
  revert i. induction n as [|n IH]; intros i H; [eexists; reflexivity|].
  rewrite for_loop_S.
  destruct (H i) as [[[]|r] Hc]; [lia| |]; rewrite Hc; cbn [mbind outcome_bind].
  - apply IH. intros j Hj. apply H. lia.
  - eexists; reflexivity.
Qed.

(** ** Lists *)

Lemma NoDup_fmap_concat {A B : Type} (f : A -> B) (ls : list (list A)) :
  (forall i l, ls !! i = Some l -> NoDup (f <$> l)) ->
  (forall i j l1 l2 x y,
     i <> j -> ls !! i = Some l1 -> ls !! j = Some l2 ->
     x ∈ l1 -> y ∈ l2 -> f x <> f y) ->
  NoDup (f <$> concat ls).
Proof.
  induction ls as [|l ls IH]; intros Hin Hcross; [constructor|].
  cbn [concat]. rewrite fmap_app. apply list.NoDup_app.
  split; [apply (Hin 0%nat); reflexivity|]. split.
  - intros b Hb Hb'.
    apply list_elem_of_fmap in Hb as (x & -> & Hx).
    apply list_elem_of_fmap in Hb' as (y & Hxy & Hy).
    apply list_elem_of_In, in_concat in Hy as (l' & Hl' & Hy).
    apply list_elem_of_In in Hl', Hy.
    apply list_elem_of_lookup in Hl' as [j Hj].
    apply (Hcross 0%nat (S j) l l' x y); try assumption; [lia | reflexivity].
  - apply IH.
    + intros i l' Hi. apply (Hin (S i)). exact Hi.
    + intros i j l1 l2 x y Hne Hi Hj. apply (Hcross (S i) (S j)); [lia|assumption..].
Qed.


(** ** More on loops *)

(** The first [n] iterations, then the remaining [m]. *)
Lemma for_loop_split {S R : Type} (n m : nat) (i : Z)
    (body : Z -> S -> outcome (ctl S R)) (s : S) :
  for_loop (n + m) i body s =
  for_loop n i body s ≫= (fun c => match c with
                                   | Continue s' => for_loop m (i + Z.of_nat n) body s'
                                   | Return r => Ret (Return r)
                                   end).
Proof.
  revert i s. induction n as [|n IH]; intros i s.
  - cbn [for_loop Nat.add mbind outcome_bind]. now rewrite Z.add_0_r.
  - change (Datatypes.S n + m)%nat with (Datatypes.S (n + m)).
    rewrite !for_loop_S.
    destruct (body i s) as [[s'|r]|f]; cbn [mbind outcome_bind]; try reflexivity.
    rewrite IH. now replace (i + 1 + Z.of_nat n) with (i + Z.of_nat (Datatypes.S n)) by lia.
Qed.

(** A loop whose iterations keep an invariant and fall through runs to its
    end, in a state the invariant holds of. *)
Lemma for_loop_invariant {S R : Type} (P : Z -> S -> Prop) (n : nat) (i : Z)
    (body : Z -> S -> outcome (ctl S R)) (s : S) :
  P i s ->
  (forall j s', i <= j < i + Z.of_nat n -> P j s' ->
     exists s'', body j s' = Ret (Continue s'') /\ P (j + 1) s'') ->
  exists s', for_loop n i body s = Ret (Continue s') /\ P (i + Z.of_nat n) s'.
Proof.
  revert i s. induction n as [|n IH]; intros i s Hs Hstep.
  - exists s. split; [reflexivity|]. now rewrite Z.add_0_r.
  - rewrite for_loop_S.
    destruct (Hstep i s) as (s1 & Hb & Hs1); [lia | exact Hs|].
    rewrite Hb. cbn [mbind outcome_bind].
    destruct (IH (i + 1) s1 Hs1) as (s' & Hl & Hs').
    { intros j s2 Hj. apply Hstep. lia. }
    exists s'. split; [exact Hl|].
    now replace (i + Z.of_nat (Datatypes.S n)) with (i + 1 + Z.of_nat n) by lia.
Qed.

(** The iterations before [k] keep the invariant and fall through: the loop
    comes to iteration [k] in a state the invariant holds of, and what it
    does from there is what it does as a whole. *)
Lemma for_loop_reaches {S R : Type} (P : Z -> S -> Prop) (n : nat) (i k : Z)
    (body : Z -> S -> outcome (ctl S R)) (s : S) :
  P i s -> i <= k < i + Z.of_nat n ->
  (forall j s', i <= j < k -> P j s' ->
     exists s'', body j s' = Ret (Continue s'') /\ P (j + 1) s'') ->
  exists s', P k s' /\
    for_loop n i body s = for_loop (n - Z.to_nat (k - i)) k body s'.
Proof.
  intros Hs Hk Hstep.
  assert (E : for_loop n i body s
              = for_loop (Z.to_nat (k - i) + (n - Z.to_nat (k - i))) i body s)
    by (f_equal; lia).
  rewrite E, for_loop_split.
  destruct (for_loop_invariant P (Z.to_nat (k - i)) i body s Hs) as (s' & Hl & Hs').
  { intros j s2 Hj. apply Hstep. lia. }
  rewrite Hl. cbn [mbind outcome_bind].
  replace (i + Z.of_nat (Z.to_nat (k - i))) with k in * by lia.
  exists s'. split; [exact Hs' | reflexivity].
Qed.

(** A loop that reaches an iteration which returns or faults returns or
    faults as that iteration does. *)
Lemma for_loop_stops {S R : Type} (n : nat) (k : Z)
    (body : Z -> S -> outcome (ctl S R)) (s : S) :
  (0 < n)%nat ->
  (forall s', body k s <> Ret (Continue s')) ->
  for_loop n k body s =
  body k s ≫= (fun c => match c with
                        | Continue s' => Ret (Continue s')
                        | Return r => Ret (Return r)
                        end).
Proof.
  intros Hn Hb. destruct n as [|n]; [lia|]. rewrite for_loop_S.
  destruct (body k s) as [[s'|r]|f]; cbn [mbind outcome_bind]; try reflexivity.
  now destruct (Hb s').
Qed.

(** A [while] loop whose iterations keep an invariant, fall through and
    decrease a measure that the budget covers ends, in a state the
    invariant holds of and the condition fails in. *)
Lemma while_loop_invariant {S R : Type} (P : S -> Prop) (measure : S -> nat)
    (fuel : nat) (cond : S -> bool) (body : S -> outcome (ctl S R)) (s : S) :
  P s -> (measure s < fuel)%nat ->
  (forall s, P s -> cond s = true ->
     exists s', body s = Ret (Continue s') /\ P s' /\ (measure s' < measure s)%nat) ->
  exists s', while_loop fuel cond body s = Ret (Continue s') /\ P s' /\ cond s' = false.
Proof.
  intros Hs Hfuel Hstep. revert s Hs Hfuel.
  induction fuel as [|fuel IH]; intros s Hs Hfuel; [lia|].
  rewrite while_loop_S. destruct (cond s) eqn:Hc.
  - destruct (Hstep s Hs Hc) as (s1 & Hb & Hs1 & Hm). rewrite Hb.
    cbn [mbind outcome_bind]. apply IH; [exact Hs1 | lia].
  - exists s. auto.
Qed.
(** ** common/buffer.h *)

Module Buffer.

(** Modelled from the spec: common/buffer.h and common/buffer_iterator.h are
    not under src/. The spec's codec section fixes what the calls write:
    integers are little-endian and fixed-width, fixed-length byte arrays are
    written verbatim with no length prefix, variable-length byte fields carry
    a 4-byte little-endian length prefix; decoding fails on short input and on
    a length prefix exceeding the remaining buffer. A write returns 0.

    [data] are the bytes written so far, which is what [buffer->data] points
    at; [spare] are the bytes of the buffer's allocation behind them, which
    no write has reached. *)
Record buffer_t : Type := mk_buffer { data : list byte; spare : list byte }.

Definition buffer_init : buffer_t := mk_buffer [] [].

(** [buffer_init_size(offset, size)]: an empty buffer over a fresh
    allocation of [size] bytes; [memory] is what the allocation holds. *)
Definition buffer_init_size (offset size : Z) (memory : list byte) : buffer_t :=
  mk_buffer [] (resize (Z.to_nat size) x00 memory).

Definition buffer_init_data (offset : Z) (bytes : list byte) (len : Z) : buffer_t :=
  mk_buffer (take (Z.to_nat len) bytes) [].

Definition buffer_get_size (b : buffer_t) : Z := Z.of_nat (length (data b)).

(** [memcpy(dst, buffer->data, n)] *)
Definition buffer_bytes (b : buffer_t) (n : Z) : list byte :=
  take (Z.to_nat n) (data b ++ spare b).

(** A write call: the returned status (0 on success) and the buffer after. *)
Definition writer : Type := buffer_t -> Z * buffer_t.

Definition append (bytes : list byte) : writer :=
  fun b => (0, mk_buffer (data b ++ bytes) (drop (length bytes) (spare b))).

Definition buffer_write_uint32 (v : Z) : writer := append (encode_le 4 v).
Definition buffer_write_uint64 (v : Z) : writer := append (encode_le 8 v).

Definition buffer_write (bytes : list byte) (size : Z) : writer :=
  append (take (Z.to_nat size) bytes).

Definition buffer_write_bytes32 (bytes : list byte) (size : Z) : writer :=
  fun b =>
    let '(rc, b') := buffer_write_uint32 size b in
    if rc =? 0 then buffer_write bytes size b' else (rc, b').

(** C's [w1 || w2] on two write calls: [w2] runs only when [w1] returned 0,
    and the value is 0 or 1. *)
Definition or_else (w1 w2 : writer) : writer :=
  fun b =>
    let '(rc1, b1) := w1 b in
    if rc1 =? 0
    then let '(rc2, b2) := w2 b1 in ((if rc2 =? 0 then 0 else 1), b2)
    else (1, b1).

(** The read cursor: the bytes not yet consumed. *)
Record buffer_iterator_t : Type := mk_iterator { remaining : list byte }.

Definition buffer_iterator_init (b : buffer_t) : buffer_iterator_t :=
  mk_iterator (data b).

(** A read call: [None] when it returns non-zero, otherwise the value stored
    through the out-pointer and the advanced cursor. *)
Definition reader (A : Type) : Type :=
  buffer_iterator_t -> option (A * buffer_iterator_t).

#[global] Instance reader_ret : MRet reader := fun A a it => Some (a, it).

#[global] Instance reader_bind : MBind reader := fun A B k m it =>
  match m it with
  | Some (a, it') => k a it'
  | None => None
  end.

Definition read_bytes (n : nat) : reader (list byte) :=
  fun it =>
    if (n <=? length (remaining it))%nat
    then Some (take n (remaining it), mk_iterator (drop n (remaining it)))
    else None.

Definition buffer_read_uint32 : reader Z :=
  bs ← read_bytes 4; mret (decode_le bs).

Definition buffer_read_uint64 : reader Z :=
  bs ← read_bytes 8; mret (decode_le bs).

Definition buffer_read_bytes32 : reader (list byte) :=
  len ← buffer_read_uint32; read_bytes (Z.to_nat len).

(** *** Properties of the buffer model *)

(** [w] succeeds and appends exactly [bytes], whatever the buffer holds. *)
Definition appends (w : writer) (bytes : list byte) : Prop :=
  forall b, w b = (0, mk_buffer (data b ++ bytes) (drop (length bytes) (spare b))).

Lemma appends_append (bytes : list byte) : appends (append bytes) bytes.
Proof. intros b. reflexivity. Qed.

Lemma appends_or_else (w1 w2 : writer) (x y : list byte) :
  appends w1 x -> appends w2 y -> appends (or_else w1 w2) (x ++ y).
Proof.
  intros H1 H2 b. unfold or_else. rewrite H1, H2.
  cbn [Z.eqb data spare].
  now rewrite drop_drop, <- app_assoc, length_app.
Qed.

Lemma appends_uint32 (v : Z) : appends (buffer_write_uint32 v) (encode_le 4 v).
Proof. apply appends_append. Qed.

Lemma appends_uint64 (v : Z) : appends (buffer_write_uint64 v) (encode_le 8 v).
Proof. apply appends_append. Qed.

Lemma appends_write (bytes : list byte) (size : Z) :
  appends (buffer_write bytes size) (take (Z.to_nat size) bytes).
Proof. apply appends_append. Qed.

Lemma appends_bytes32 (bytes : list byte) (size : Z) :
  appends (buffer_write_bytes32 bytes size)
    (encode_le 4 size ++ take (Z.to_nat size) bytes).
Proof.
  intros b. unfold buffer_write_bytes32.
  rewrite appends_uint32. cbn [Z.eqb]. rewrite appends_write.
  cbn [data spare].
  now rewrite drop_drop, <- app_assoc, length_app.
Qed.

Lemma run_bind {A B : Type} (m : reader A) (k : A -> reader B)
    (it : buffer_iterator_t) :
  (m ≫= k) it = match m it with
                | Some (a, it') => k a it'
                | None => None
                end.
Proof. reflexivity. Qed.

Lemma read_bytes_app (bytes rest : list byte) :
  read_bytes (length bytes) (mk_iterator (bytes ++ rest))
  = Some (bytes, mk_iterator rest).
Proof.
  unfold read_bytes. cbn [remaining].
  destruct (Nat.leb_spec (length bytes) (length (bytes ++ rest))) as [_|H].
  - now rewrite take_app_length, drop_app_length.
  - rewrite length_app in H. lia.
Qed.

Lemma read_uint32_app (v : Z) (rest : list byte) :
  is_uint32 v ->
  buffer_read_uint32 (mk_iterator (encode_le 4 v ++ rest))
  = Some (v, mk_iterator rest).
Proof.
  intros Hv. unfold buffer_read_uint32. rewrite run_bind.
  pose proof (read_bytes_app (encode_le 4 v) rest) as H.
  rewrite length_encode_le in H. rewrite H.
  unfold mret, reader_ret. now rewrite decode_encode_uint32.
Qed.

Lemma read_uint64_app (v : Z) (rest : list byte) :
  is_uint64 v ->
  buffer_read_uint64 (mk_iterator (encode_le 8 v ++ rest))
  = Some (v, mk_iterator rest).
Proof.
  intros Hv. unfold buffer_read_uint64. rewrite run_bind.
  pose proof (read_bytes_app (encode_le 8 v) rest) as H.
  rewrite length_encode_le in H. rewrite H.
  unfold mret, reader_ret. now rewrite decode_encode_uint64.
Qed.

Lemma read_bytes32_app (bytes rest : list byte) :
  is_uint32 (Z.of_nat (length bytes)) ->
  buffer_read_bytes32
    (mk_iterator (encode_le 4 (Z.of_nat (length bytes)) ++ bytes ++ rest))
  = Some (bytes, mk_iterator rest).
Proof.
  intros Hlen. unfold buffer_read_bytes32. rewrite run_bind.
  rewrite read_uint32_app by exact Hlen.
  rewrite Nat2Z.id. apply read_bytes_app.
Qed.

(** *** Reads that consume exactly the bytes a write produced *)

(** [m] reads [a] off [bytes] and stops behind them, and fails on every
    input that is a strict prefix of [bytes]. *)
Definition reads {A : Type} (m : reader A) (bytes : list byte) (a : A) : Prop :=
  (forall rest, m (mk_iterator (bytes ++ rest)) = Some (a, mk_iterator rest)) /\
  (forall n, (n < length bytes)%nat -> m (mk_iterator (take n bytes)) = None).

Lemma reads_bind {A B : Type} (m : reader A) (k : A -> reader B)
    (x y : list byte) (a : A) (b : B) :
  reads m x a -> reads (k a) y b -> reads (m ≫= k) (x ++ y) b.
Proof.
  intros [Hm Hshort] [Hk Hkshort]. split.
  - intros rest. rewrite run_bind, <- app_assoc, Hm. apply Hk.
  - intros n Hn. rewrite run_bind.
    destruct (decide (n < length x)%nat) as [Hx|Hx].
    + rewrite take_app_le by lia. now rewrite Hshort.
    + rewrite take_app_ge by lia. rewrite Hm.
      apply Hkshort. rewrite length_app in Hn. lia.
Qed.

Lemma reads_ret {A : Type} (a : A) : reads (mret a) [] a.
Proof.
  split; [reflexivity|]. intros n Hn. cbn [length] in Hn. lia.
Qed.

Lemma reads_bytes (bytes : list byte) : reads (read_bytes (length bytes)) bytes bytes.
Proof.
  split; [apply read_bytes_app|].
  intros n Hn. unfold read_bytes. cbn [remaining].
  destruct (Nat.leb_spec (length bytes) (length (take n bytes))) as [H|_];
    [|reflexivity].
  rewrite length_take in H. lia.
Qed.

Lemma reads_uint32 (v : Z) :
  is_uint32 v -> reads buffer_read_uint32 (encode_le 4 v) v.
Proof.
  intros Hv. unfold buffer_read_uint32.
  rewrite <- (app_nil_r (encode_le 4 v)).
  apply reads_bind with (a := encode_le 4 v).
  - pose proof (reads_bytes (encode_le 4 v)) as H.
    now rewrite length_encode_le in H.
  - rewrite decode_encode_uint32 by exact Hv. apply reads_ret.
Qed.

Lemma reads_uint64 (v : Z) :
  is_uint64 v -> reads buffer_read_uint64 (encode_le 8 v) v.
Proof.
  intros Hv. unfold buffer_read_uint64.
  rewrite <- (app_nil_r (encode_le 8 v)).
  apply reads_bind with (a := encode_le 8 v).
  - pose proof (reads_bytes (encode_le 8 v)) as H.
    now rewrite length_encode_le in H.
  - rewrite decode_encode_uint64 by exact Hv. apply reads_ret.
Qed.

Lemma reads_bytes32 (bytes : list byte) :
  is_uint32 (Z.of_nat (length bytes)) ->
  reads buffer_read_bytes32 (encode_le 4 (Z.of_nat (length bytes)) ++ bytes) bytes.
Proof.
  intros Hlen. unfold buffer_read_bytes32.
  apply reads_bind with (a := Z.of_nat (length bytes)).
  - now apply reads_uint32.
  - rewrite Nat2Z.id. apply reads_bytes.
Qed.

End Buffer.

Infix "|||" := Buffer.or_else (at level 50, left associativity).

(** ** transaction.h *)

Module Transaction.

Record input_transaction_t : Type := mk_txin {
  transaction : list byte;   (* previous tx hash/id *)
  txout_index : Z;           (* referenced txout index in previous tx *)
  signature : list byte;
  public_key : list byte
}.

Record output_transaction_t : Type := mk_txout {
  amount : Z;
  address : list byte
}.

Record transaction_t : Type := mk_tx {
  id : list byte;
  txin_count : Z;
  txout_count : Z;
  txins : list (option input_transaction_t);
  txouts : list (option output_transaction_t)
}.

Definition TXIN_HEADER_SIZE : Z := 32 + 4.
Definition TXOUT_HEADER_SIZE : Z := 32 + 4.

(** Modelled from the spec: [zero_tx_hash] is only declared in transaction.h
    ([extern uint8_t zero_tx_hash[32]]); the spec calls it the zero hash. *)
Definition zero_tx_hash : list byte := replicate 32 x00.

(** The spend reference [(prev_txid, prev_vout)] of an input. *)
Definition outpoint (txin : input_transaction_t) : list byte * Z :=
  (transaction txin, txout_index txin).

(** The first [count] entries of an array of pointers, when the array holds
    that many and none is NULL. *)
Definition entries {A : Type} (count : Z) (arr : list (option A)) : option (list A) :=
  if decide (Z.to_nat count <= length arr)%nat
  then mapM (fun p => p) (take (Z.to_nat count) arr)
  else None.

Definition tx_inputs (tx : transaction_t) : option (list input_transaction_t) :=
  entries (txin_count tx) (txins tx).

Definition tx_outputs (tx : transaction_t) : option (list output_transaction_t) :=
  entries (txout_count tx) (txouts tx).

(** Modelled from the spec: the functions of transaction.c are not under
    src/ (transaction.h only declares them). TxIn header (sign preimage):
    [prev_txid (32B) ‖ prev_vout (u32 LE)]. *)
Definition get_txin_header (txin : input_transaction_t) : list byte :=
  transaction txin ++ encode_le 4 (txout_index txin).

(** Modelled from the spec: transaction.c is not under src/. TxOut header:
    [amount (u64 LE) ‖ address], the address not length-prefixed. *)
Definition get_txout_header (txout : output_transaction_t) : list byte :=
  encode_le 8 (amount txout) ++ address txout.

(** Modelled from the spec: transaction.c is not under src/. Transaction sign
    preimage: the concatenation of every TxIn header followed by every TxOut
    header, in list order. [None] stands for a non-zero return. *)
Definition get_tx_sign_header (tx : transaction_t) : option (list byte) :=
  ins ← tx_inputs tx;
  outs ← tx_outputs tx;
  Some (concat (get_txin_header <$> ins) ++ concat (get_txout_header <$> outs)).

(** Modelled from the spec: transaction.c is not under src/. A TxIn is a
    coinbase input iff [prev_txid] is the zero hash and [prev_vout] is
    0xFFFFFFFF. *)
Definition is_coinbase_txin (txin : input_transaction_t) : bool :=
  bool_decide (transaction txin = zero_tx_hash) && (txout_index txin =? 4294967295).

(** Modelled from the spec: [is_coinbase_tx] (transaction.c) is not under
    src/. A transaction is a coinbase iff it has exactly one TxIn and that
    TxIn is a coinbase input. *)
Definition is_coinbase_tx (tx : transaction_t) : Z :=
  if txin_count tx =? 1
  then match txins tx !! 0%nat with
       | Some (Some txin) => if is_coinbase_txin txin then 1 else 0
       | _ => 0
       end
  else 0.

Section Crypto.

(** [crypto_hash_sha256d(out, in, len)] of crypto/sha256d.h, as the function
    from the input bytes to the 32 output bytes. *)
Variable crypto_hash_sha256d : list byte -> list byte.

(** libsodium's [crypto_sign_verify_detached(sig, m, mlen, pk)]: 0 when the
    signature verifies. *)
Variable crypto_sign_verify_detached : list byte -> list byte -> list byte -> Z.

(** Modelled from the spec: [compute_tx_id] (transaction.c) is not under
    src/. The txid is [sha256d] of the sign preimage; signatures and public
    keys are not part of it. [None] stands for a non-zero return. *)
Definition compute_tx_id (tx : transaction_t) : option (list byte) :=
  crypto_hash_sha256d <$> get_tx_sign_header tx.

Definition txin_signature_verifies (preimage : list byte)
    (txin : input_transaction_t) : bool :=
  crypto_sign_verify_detached (signature txin) preimage (public_key txin) =? 0.

Definition sum_amounts (outs : list output_transaction_t) : Z :=
  foldr (fun o acc => amount o + acc) 0 outs.

(** Modelled from the spec: [valid_transaction] (transaction.c) is not under
    src/. It returns true iff (1) [txin_count ≥ 1] and [txout_count ≥ 1],
    (2) [compute_txid(tx) == tx.id], (3) every TxOut amount is > 0, (4) the
    sum of TxOut amounts does not overflow u64, (5) for a non-coinbase tx,
    every input's signature verifies under its stated public key over the
    sign preimage, and (6) for a non-coinbase tx, no two inputs share
    [(prev_txid, prev_vout)]. The inputs and outputs are the entries the two
    counts announce; a transaction that lacks one of them is not valid. *)
Definition valid_transaction (tx : transaction_t) : Z :=
  match tx_inputs tx, tx_outputs tx, get_tx_sign_header tx with
  | Some ins, Some outs, Some preimage =>
      if (1 <=? txin_count tx) && (1 <=? txout_count tx)
         && bool_decide (crypto_hash_sha256d preimage = id tx)
         && forallb (fun o => 0 <? amount o) outs
         && (sum_amounts outs <? 2 ^ 64)
         && (negb (is_coinbase_tx tx =? 0)
             || (forallb (txin_signature_verifies preimage) ins
                 && bool_decide (NoDup (outpoint <$> ins))))
      then 1 else 0
  | _, _, _ => 0
  end.

(** *** Properties of the transaction model *)

Lemma entries_Some {A : Type} (count : Z) (arr : list (option A)) (l : list A) :
  entries count arr = Some l ->
  length l = Z.to_nat count /\
  (forall k a, l !! k = Some a <->
               (k < Z.to_nat count)%nat /\ arr !! k = Some (Some a)).
Proof.
  unfold entries. destruct (decide _) as [Hlen|]; [|discriminate].
  intros H. apply mapM_Some in H.
  pose proof (Forall2_length H) as Hl.
  rewrite length_take in Hl. split; [lia|].
  intros k a. split.
  - intros Hk.
    destruct (Forall2_lookup_r _ _ _ _ _ H Hk) as (p & Hp & ->).
    apply lookup_take_Some in Hp. tauto.
  - intros [Hk Ha].
    assert (Hp : take (Z.to_nat count) arr !! k = Some (Some a))
      by (apply lookup_take_Some; tauto).
    destruct (Forall2_lookup_l _ _ _ _ _ H Hp) as (y & Hy & [= ->]).
    exact Hy.
Qed.

Lemma is_coinbase_tx_single_input (tx : transaction_t) :
  is_coinbase_tx tx <> 0 -> txin_count tx = 1.
Proof.
  unfold is_coinbase_tx.
  destruct (Z.eqb_spec (txin_count tx) 1); [trivial | congruence].
Qed.

(** What the spec's rules (1), (5) and (6) give for a transaction that
    [valid_transaction] accepts. *)
Lemma valid_transaction_inputs (tx : transaction_t) :
  valid_transaction tx <> 0 ->
  exists ins,
    tx_inputs tx = Some ins /\ 1 <= txin_count tx /\
    (is_coinbase_tx tx <> 0 \/ NoDup (outpoint <$> ins)).
Proof.
  unfold valid_transaction.
  destruct (tx_inputs tx) as [ins|]; [|congruence].
  destruct (tx_outputs tx) as [outs|]; [|congruence].
  destruct (get_tx_sign_header tx) as [preimage|]; [|congruence].
  destruct (_ && _) eqn:E; [|congruence].
  intros _. exists ins. split; [reflexivity|].
  repeat (apply andb_true_iff in E as [E ?]).
  split; [now apply Z.leb_le|].
  match goal with H : _ || _ = true |- _ => apply orb_true_iff in H as [H|H] end.
  - left. apply negb_true_iff, Z.eqb_neq in H. exact H.
  - right. apply andb_true_iff in H as [_ H]. now apply bool_decide_eq_true in H.
Qed.

(** No transaction that [valid_transaction] accepts spends an output twice:
    a coinbase has a single input, and rule (6) covers the others. *)
Lemma valid_transaction_NoDup (tx : transaction_t) :
  valid_transaction tx <> 0 ->
  exists ins, tx_inputs tx = Some ins /\ NoDup (outpoint <$> ins).
Proof.
  intros H. destruct (valid_transaction_inputs tx H) as (ins & Hins & _ & Hd).
  exists ins. split; [exact Hins|].
  destruct Hd as [Hcb|Hnd]; [|exact Hnd].
  apply is_coinbase_tx_single_input in Hcb.
  apply entries_Some in Hins as [Hlen _]. rewrite Hcb in Hlen.
  destruct ins as [|a [|? ?]]; try discriminate.
  cbn. apply NoDup_singleton.
Qed.

End Crypto.

End Transaction.

(** ** core/merkle.c *)

Module Merkle.

(** [merkle_node_t]: two child pointers and the node's hash; [merkle_tree_t]
    holds the root pointer (merkle.h itself is not under src/; the fields are
    the ones merkle.c reads and writes). *)
#[warnings="-register-all"]
Inductive merkle_node_t : Type := mk_node {
  left : option merkle_node_t;
  right : option merkle_node_t;
  hash : list byte
}.

Record merkle_tree_t : Type := mk_tree { root : merkle_node_t }.

Section Hash.

Variable crypto_hash_sha256d : list byte -> list byte.

(** Creates a node that holds the hash of two nodes. *)
Definition construct_merkle_node (left right : merkle_node_t) : merkle_node_t :=
  let combined_hash := hash left ++ hash right in
  let node_hash := crypto_hash_sha256d combined_hash in
  mk_node (Some left) (Some right) node_hash.

(** Loops through all of the hashes, and creates a leaf node for each:
    [nodes[i]] is written for [i = 0, 1, ...], so the array grows at its end.
    The hash of leaf [i] is read at [&hashes[i * HASH_SIZE]], a product of
    [uint32_t]. Returns the array and [*num_of_nodes]. *)
Definition construct_merkle_leaves_from_hashes (hashes : list byte)
    (num_of_hashes : Z) : outcome (list merkle_node_t * Z) :=
  c ← for_each_index (R := Empty_set) num_of_hashes
        (fun i nodes =>
           h ← slice hashes (to_uint32 (i * HASH_SIZE)) HASH_SIZE;
           Ret (Continue (nodes ++ [mk_node None None h])))
        [];
  Ret (loop_state c, num_of_hashes).

(** Collapses the list of nodes into a smaller list of parent nodes that are
    hashes of 2 child nodes. [temp_nodes[current_node_idx]] is always the
    slot after the last one written, so [temp_nodes] grows at its end and
    [current_node_idx] is its length. *)
Definition collapse_merkle_nodes (nodes : list merkle_node_t)
    (num_of_nodes : Z) : outcome (list merkle_node_t * Z) :=
  c ← while_loop (R := Empty_set) (Datatypes.S (Z.to_nat num_of_nodes))
        (fun '(i, _) => i <? to_uint32 (num_of_nodes - 1))
        (fun '(i, temp_nodes) =>
           l ← array_get nodes i;
           r ← array_get nodes (i + 1);
           Ret (Continue (i + 2, temp_nodes ++ [construct_merkle_node l r])))
        (0, []);
  let temp_nodes := snd (loop_state c) in
  temp_nodes ←
    (if negb (num_of_nodes mod 2 =? 0)
     then last ← array_get nodes (num_of_nodes - 1);
          Ret (temp_nodes ++ [construct_merkle_node last last])
     else Ret temp_nodes);
  let current_node_idx := Z.of_nat (length temp_nodes) in
  c ← for_each_index (R := Empty_set) current_node_idx
        (fun i nodes =>
           t ← array_get temp_nodes i;
           Ret (Continue (<[Z.to_nat i := t]> nodes)))
        nodes;
  Ret (loop_state c, current_node_idx).

(** Builds the tree over [num_of_hashes] concatenated 32-byte hashes; NULL
    ([None]) when there is none. *)
Definition construct_merkle_tree_from_leaves (hashes : list byte)
    (num_of_hashes : Z) : outcome (option merkle_tree_t) :=
  if num_of_hashes <? 1 then Ret None
  else
    '(nodes, num_of_nodes) ← construct_merkle_leaves_from_hashes hashes num_of_hashes;
    c ← while_loop (R := Empty_set) (Datatypes.S (Z.to_nat num_of_hashes))
          (fun '(_, num_of_nodes) => 1 <? num_of_nodes)
          (fun '(nodes, num_of_nodes) =>
             st ← collapse_merkle_nodes nodes num_of_nodes;
             Ret (Continue st))
          (nodes, num_of_nodes);
    root ← array_get (fst (loop_state c)) 0;
    Ret (Some (mk_tree root)).

Definition compare_merkle_node (merkle_node other_merkle_node : merkle_node_t) : Z :=
  compare_hash (hash merkle_node) (hash other_merkle_node).

(** *** Properties of the Merkle engine *)

Definition leaf (h : list byte) : merkle_node_t := mk_node None None h.

(** One level up, by structural recursion: neighbours are paired, and an odd
    last node is paired with itself. *)
Fixpoint pair_up (nodes : list merkle_node_t) : list merkle_node_t :=
  match nodes with
  | l :: r :: rest => construct_merkle_node l r :: pair_up rest
  | [last] => [construct_merkle_node last last]
  | [] => []
  end.

(** The complete pairs only. *)
Fixpoint pairs (nodes : list merkle_node_t) : list merkle_node_t :=
  match nodes with
  | l :: r :: rest => construct_merkle_node l r :: pairs rest
  | _ => []
  end.

(** Levels are collapsed until one node remains. *)
Fixpoint collapse_levels (fuel : nat) (nodes : list merkle_node_t) : list merkle_node_t :=
  match fuel with
  | O => nodes
  | S fuel' =>
      if (1 <? length nodes)%nat then collapse_levels fuel' (pair_up nodes) else nodes
  end.

(** The root the spec describes, over a non-empty list of txids. *)
Definition merkle_root_node (txids : list (list byte)) : option merkle_node_t :=
  head (collapse_levels (length txids) (leaf <$> txids)).

(** The hash leaf [i] receives: the 32 bytes of [hashes] at the [uint32_t]
    offset [i * HASH_SIZE]. *)
Definition read_hash (hashes : list byte) (i : nat) : list byte :=
  take (Z.to_nat HASH_SIZE)
    (drop (Z.to_nat (to_uint32 (Z.of_nat i * HASH_SIZE))) hashes).

Definition read_hashes (hashes : list byte) (n : nat) : list (list byte) :=
  read_hash hashes <$> seq 0 n.

Lemma length_read_hashes (hashes : list byte) (n : nat) :
  length (read_hashes hashes n) = n.
Proof. unfold read_hashes. now rewrite length_fmap, length_seq. Qed.

Lemma read_hashes_S (hashes : list byte) (n : nat) :
  read_hashes hashes (S n) = read_hashes hashes n ++ [read_hash hashes n].
Proof. unfold read_hashes. now rewrite seq_S, fmap_app. Qed.

Lemma length_concat_wf (hs : list (list byte)) :
  Forall hash_wf hs ->
  Z.of_nat (length (concat hs)) = Z.of_nat (length hs) * HASH_SIZE.
Proof.
  induction 1 as [|h hs Hh _ IH]; [reflexivity|].
  cbn [concat]. rewrite length_app, Hh. cbn [length].
  unfold HASH_SIZE in *. lia.
Qed.

(** The wrapped offset of a leaf stays inside an array that holds one hash
    for each leaf. *)
Lemma slice_read_hash (hashes : list byte) (n i : nat) :
  (i < n)%nat ->
  Z.of_nat n * HASH_SIZE <= Z.of_nat (length hashes) ->
  slice hashes (to_uint32 (Z.of_nat i * HASH_SIZE)) HASH_SIZE
  = Ret (read_hash hashes i).
Proof.
  intros Hi Hlen. unfold slice, read_hash.
  assert (Hoff : 0 <= to_uint32 (Z.of_nat i * HASH_SIZE) <= Z.of_nat i * HASH_SIZE).
  { unfold to_uint32, HASH_SIZE. split.
    - apply Z.mod_pos_bound. lia.
    - apply Z.mod_le; lia. }
  replace (_ && _ && _) with true; [reflexivity|].
  symmetry. rewrite !andb_true_iff, !Z.leb_le. unfold HASH_SIZE in *. lia.
Qed.

Lemma construct_merkle_leaves_reads (hashes : list byte) (n : nat) :
  Z.of_nat n * HASH_SIZE <= Z.of_nat (length hashes) ->
  construct_merkle_leaves_from_hashes hashes (Z.of_nat n)
  = Ret (leaf <$> read_hashes hashes n, Z.of_nat n).
Proof.
  intros Hlen. unfold construct_merkle_leaves_from_hashes, for_each_index.
  rewrite Nat2Z.id.
  set (body := fun (i : Z) (nodes : list merkle_node_t) => _).
  destruct (for_loop_invariant (R := Empty_set)
              (fun j nodes => nodes = leaf <$> read_hashes hashes (Z.to_nat j))
              n 0 body []) as (nodes & Hloop & ->).
  - reflexivity.
  - intros j nodes Hj ->. subst body. cbn beta.
    pose proof (slice_read_hash hashes n (Z.to_nat j)) as Hs.
    rewrite Z2Nat.id in Hs by lia. rewrite Hs by (lia || assumption).
    cbn [mbind outcome_bind]. eexists. split; [reflexivity|].
    replace (Z.to_nat (j + 1)) with (S (Z.to_nat j)) by lia.
    now rewrite read_hashes_S, fmap_app.
  - rewrite Hloop. cbn [mbind outcome_bind loop_state].
    now rewrite Z.add_0_l, Nat2Z.id.
Qed.

Lemma slice_txid (txids : list (list byte)) (j : nat) (h : list byte) :
  Forall hash_wf txids -> txids !! j = Some h ->
  slice (concat txids) (Z.of_nat j * HASH_SIZE) HASH_SIZE = Ret h.
Proof.
  intros Hwf Hh.
  assert (E : concat txids
              = concat (take j txids) ++ h ++ concat (drop (S j) txids)).
  { rewrite <- (take_drop_middle txids j h Hh) at 1.
    rewrite concat_app. reflexivity. }
  assert (Hj : Z.of_nat j * HASH_SIZE = Z.of_nat (length (concat (take j txids)))).
  { rewrite length_concat_wf by now apply Forall_take.
    rewrite length_take. apply lookup_lt_Some in Hh.
    replace (j `min` length txids)%nat with j by lia. reflexivity. }
  assert (Hlen : HASH_SIZE = Z.of_nat (length h)).
  { apply (proj1 (Forall_lookup _ _) Hwf) in Hh. rewrite Hh. reflexivity. }
  rewrite E, Hj, Hlen. apply slice_app.
Qed.

(** Over the concatenation of 32-byte txids, leaf [i] receives txid
    [i mod 2^27]: the offset [32 * i] is taken modulo [2^32]. *)
Lemma read_hash_txid (txids : list (list byte)) (i : nat) (h : list byte) :
  Forall hash_wf txids ->
  txids !! Z.to_nat (Z.of_nat i mod 2 ^ 27) = Some h ->
  read_hash (concat txids) i = h.
Proof.
  intros Hwf Hh.
  pose proof (slice_txid txids _ h Hwf Hh) as Hs.
  assert (Hoff : to_uint32 (Z.of_nat i * HASH_SIZE)
                 = Z.of_nat (Z.to_nat (Z.of_nat i mod 2 ^ 27)) * HASH_SIZE).
  { unfold to_uint32, HASH_SIZE.
    pose proof (Z.mod_pos_bound (Z.of_nat i) (2 ^ 27) ltac:(lia)).
    rewrite Z2Nat.id by lia.
    change (2 ^ 32) with (2 ^ 27 * 32).
    apply Z.mul_mod_distr_r; lia. }
  unfold read_hash. rewrite Hoff.
  unfold slice in Hs. destruct (_ && _ && _); [|discriminate].
  now injection Hs.
Qed.

Lemma read_hashes_txids (txids : list (list byte)) :
  Forall hash_wf txids ->
  Z.of_nat (length txids) <= 2 ^ 27 ->
  read_hashes (concat txids) (length txids) = txids.
Proof.
  intros Hwf Hmax. apply list_eq. intros i. unfold read_hashes.
  rewrite list_lookup_fmap.
  destruct (decide (i < length txids)%nat) as [Hi|Hi].
  - rewrite lookup_seq_lt by exact Hi. cbn [fmap option_fmap option_map Nat.add].
    destruct (lookup_lt_is_Some_2 txids i Hi) as [h Hh]. rewrite Hh. f_equal.
    apply read_hash_txid; [exact Hwf|].
    rewrite Z.mod_small, Nat2Z.id by lia. exact Hh.
  - rewrite lookup_seq_ge, lookup_ge_None_2 by lia. reflexivity.
Qed.

Lemma length_pairs (nodes : list merkle_node_t) :
  length (pairs nodes) = (length nodes / 2)%nat.
Proof.
  induction nodes as [nodes IH] using (induction_ltof1 _ (@length _)).
  unfold ltof in IH.
  destruct nodes as [|l [|r rest]]; [reflexivity..|].
  cbn [pairs length]. rewrite IH by (cbn [length]; lia).
  change (S (S (length rest))) with (2 + length rest)%nat.
  replace (2 + length rest)%nat with (length rest + 1 * 2)%nat by lia.
  rewrite Nat.div_add by lia. lia.
Qed.

Lemma pair_up_pairs (nodes : list merkle_node_t) :
  pair_up nodes =
  pairs nodes ++
  (if Nat.odd (length nodes)
   then match nodes !! (length nodes - 1)%nat with
        | Some x => [construct_merkle_node x x]
        | None => []
        end
   else []).
Proof.
  induction nodes as [nodes IH] using (induction_ltof1 _ (@length _)).
  unfold ltof in IH.
  destruct nodes as [|l [|r rest]]; [reflexivity..|].
  cbn [pair_up pairs app]. rewrite IH by (cbn [length]; lia).
  f_equal. f_equal.
  change (length (l :: r :: rest)) with (S (S (length rest))).
  rewrite Nat.odd_succ_succ.
  destruct rest as [|x rest']; [reflexivity|].
  cbn [length]. replace (S (S (S (length rest'))) - 1)%nat
    with (S (S (S (length rest') - 1)))%nat by lia.
  reflexivity.
Qed.

Lemma length_pair_up (nodes : list merkle_node_t) :
  length (pair_up nodes) = ((length nodes + 1) / 2)%nat.
Proof.
  induction nodes as [nodes IH] using (induction_ltof1 _ (@length _)).
  unfold ltof in IH.
  destruct nodes as [|l [|r rest]]; [reflexivity..|].
  cbn [pair_up length]. rewrite IH by (cbn [length]; lia).
  replace (S (S (length rest)) + 1)%nat with (length rest + 1 + 1 * 2)%nat by lia.
  rewrite Nat.div_add by lia. lia.
Qed.

(** The pairing loop of [collapse_merkle_nodes], entered at index
    [length done] with [rest] still to be paired. *)
Lemma pairing_loop (tail : list merkle_node_t) (fuel : nat) :
  forall (rest done temp : list merkle_node_t),
  (length rest < 2 * fuel)%nat ->
  Z.of_nat (length done + length rest) < 2 ^ 32 ->
  (1 <= length done + length rest)%nat ->
  exists i,
    while_loop (R := Empty_set) fuel
      (fun '(i, _) => i <? to_uint32 (Z.of_nat (length done + length rest) - 1))
      (fun '(i, temp_nodes) =>
         l ← array_get (done ++ rest ++ tail) i;
         r ← array_get (done ++ rest ++ tail) (i + 1);
         Ret (Continue (i + 2, temp_nodes ++ [construct_merkle_node l r])))
      (Z.of_nat (length done), temp)
    = Ret (Continue (i, temp ++ pairs rest)).
Proof.
  induction fuel as [|fuel IH]; intros rest done temp Hfuel Hmax Hmin; [lia|].
  rewrite while_loop_S.
  assert (Hu : to_uint32 (Z.of_nat (length done + length rest) - 1)
               = Z.of_nat (length done + length rest) - 1).
  { unfold to_uint32. apply Z.mod_small. lia. }
  destruct rest as [|l [|r rest]].
  - rewrite Hu. cbn [length] in *.
    destruct (Z.ltb_spec (Z.of_nat (length done)) (Z.of_nat (length done + 0) - 1)); [lia|].
    exists (Z.of_nat (length done)). cbn [pairs]. now rewrite app_nil_r.
  - rewrite Hu. cbn [length] in *.
    destruct (Z.ltb_spec (Z.of_nat (length done)) (Z.of_nat (length done + 1) - 1)); [lia|].
    exists (Z.of_nat (length done)). cbn [pairs]. now rewrite app_nil_r.
  - cbn [length] in *. rewrite Hu.
    destruct (Z.ltb_spec (Z.of_nat (length done))
                (Z.of_nat (length done + S (S (length rest))) - 1)) as [_|Hge]; [|lia].
    rewrite (array_get_lookup _ (length done) l)
      by (rewrite lookup_app_r, Nat.sub_diag by lia; reflexivity).
    replace (Z.of_nat (length done) + 1) with (Z.of_nat (S (length done))) by lia.
    rewrite (array_get_lookup _ (S (length done)) r)
      by (rewrite lookup_app_r by lia;
          replace (S (length done) - length done)%nat with 1%nat by lia; reflexivity).
    cbn [mbind outcome_bind].
    specialize (IH rest (done ++ [l; r]) (temp ++ [construct_merkle_node l r])).
    rewrite length_app in IH. cbn [length] in IH.
    replace (length done + 2 + length rest)%nat
      with (length done + S (S (length rest)))%nat in IH by lia.
    replace (Z.of_nat (length done) + 2) with (Z.of_nat (length done + 2)) by lia.
    rewrite <- !app_assoc in IH. cbn [app] in IH.
    rewrite Hu in IH.
    destruct IH as [i Hi]; [lia..|].
    exists i. cbn [app pairs].
    rewrite Hi. reflexivity.
Qed.

(** The loop of [collapse_merkle_nodes] that copies [temp_nodes] back. *)
Lemma copy_back_loop (rest done nodes : list merkle_node_t) :
  (length done + length rest <= length nodes)%nat ->
  for_loop (R := Empty_set) (length rest) (Z.of_nat (length done))
    (fun i nodes' =>
       t ← array_get (done ++ rest) i;
       Ret (Continue (<[Z.to_nat i := t]> nodes')))
    (done ++ drop (length done) nodes)
  = Ret (Continue ((done ++ rest) ++ drop (length done + length rest) nodes)).
Proof.
  revert done. induction rest as [|t rest IH]; intros done Hlen.
  - cbn [length for_loop]. now rewrite app_nil_r, Nat.add_0_r.
  - cbn [length] in *. rewrite for_loop_S.
    rewrite (array_get_lookup _ (length done) t)
      by (rewrite lookup_app_r, Nat.sub_diag by lia; reflexivity).
    cbn [mbind outcome_bind]. rewrite Nat2Z.id.
    destruct (drop (length done) nodes) as [|x tl] eqn:Hdrop.
    { apply (f_equal length) in Hdrop. rewrite length_drop in Hdrop.
      cbn [length] in Hdrop. lia. }
    assert (Htl : tl = drop (S (length done)) nodes).
    { change tl with (drop 1 (x :: tl)).
      rewrite <- Hdrop, drop_drop. f_equal. lia. }
    rewrite insert_app_r_alt, Nat.sub_diag by lia. cbn [insert list_insert].
    specialize (IH (done ++ [t])).
    rewrite length_app in IH. cbn [length] in IH.
    replace (length done + 1)%nat with (S (length done)) in IH by lia.
    rewrite <- Htl in IH.
    rewrite <- !app_assoc in IH. cbn [app] in IH.
    replace (Z.of_nat (length done) + 1) with (Z.of_nat (S (length done))) by lia.
    rewrite IH by lia.
    rewrite <- !app_assoc. cbn [app].
    replace (S (length done) + length rest)%nat
      with (length done + S (length rest))%nat by lia.
    reflexivity.
Qed.

Lemma half_up_bounds (n : nat) :
  (1 <= n -> 1 <= (n + 1) / 2 <= n)%nat /\ (2 <= n -> (n + 1) / 2 < n)%nat.
Proof.
  pose proof (Nat.div_mod_eq (n + 1) 2).
  pose proof (Nat.mod_upper_bound (n + 1) 2). lia.
Qed.

Lemma odd_count (n : nat) : negb (Z.of_nat n mod 2 =? 0) = Nat.odd n.
Proof.
  destruct (Nat.odd n) eqn:E.
  - apply Nat.odd_spec in E as [m ->].
    replace (Z.of_nat (2 * m + 1)) with (1 + Z.of_nat m * 2) by lia.
    now rewrite Z_mod_plus_full.
  - rewrite <- Nat.negb_even in E. apply negb_false_iff, Nat.even_spec in E as [m ->].
    replace (Z.of_nat (2 * m)) with (0 + Z.of_nat m * 2) by lia.
    now rewrite Z_mod_plus_full.
Qed.

(** [collapse_merkle_nodes] on a level of [length level] nodes, whatever
    stale entries [tail] the array holds behind them: the level above is
    written over the front of the array, and an odd last node has been paired
    with itself. *)
Lemma collapse_merkle_nodes_spec (level tail : list merkle_node_t) :
  (1 <= length level)%nat ->
  Z.of_nat (length level) < 2 ^ 32 ->
  collapse_merkle_nodes (level ++ tail) (Z.of_nat (length level))
  = Ret (pair_up level ++ drop (length (pair_up level)) (level ++ tail),
         Z.of_nat (length (pair_up level))).
Proof.
  intros Hmin Hmax. unfold collapse_merkle_nodes.
  rewrite Nat2Z.id.
  destruct (pairing_loop tail (S (length level)) level [] []) as [i Hi];
    [cbn [length]; lia..|].
  cbn [length app Nat.add] in Hi. change (Z.of_nat 0) with 0 in Hi.
  rewrite Hi. cbn [mbind outcome_bind loop_state snd].
  assert (Hodd :
    (if negb (Z.of_nat (length level) mod 2 =? 0)
     then last ← array_get (level ++ tail) (Z.of_nat (length level) - 1);
          Ret (pairs level ++ [construct_merkle_node last last])
     else Ret (pairs level)) = Ret (pair_up level)).
  { rewrite odd_count, pair_up_pairs.
    destruct (Nat.odd (length level)); [|now rewrite app_nil_r].
    destruct (level !! (length level - 1)%nat) as [x|] eqn:Hx.
    - replace (Z.of_nat (length level) - 1) with (Z.of_nat (length level - 1)) by lia.
      rewrite (array_get_lookup _ _ x) by (now apply lookup_app_l_Some).
      reflexivity.
    - apply lookup_ge_None in Hx. lia. }
  rewrite Hodd. cbn [mbind outcome_bind].
  unfold for_each_index. rewrite Nat2Z.id.
  pose proof (copy_back_loop (pair_up level) [] (level ++ tail)) as Hc.
  cbn [length app Nat.add] in Hc. rewrite drop_0 in Hc. change (Z.of_nat 0) with 0 in Hc.
  rewrite Hc; [reflexivity|].
  rewrite length_pair_up, length_app.
  pose proof (half_up_bounds (length level)). lia.
Qed.

Lemma collapse_levels_single (fuel : nat) (nodes : list merkle_node_t) :
  (1 <= length nodes <= S fuel)%nat ->
  length (collapse_levels fuel nodes) = 1%nat.
Proof.
  revert nodes. induction fuel as [|fuel IH]; intros nodes Hlen.
  - cbn [collapse_levels]. lia.
  - cbn [collapse_levels].
    destruct (Nat.ltb_spec 1 (length nodes)) as [Hgt|Hle]; [|lia].
    apply IH. rewrite length_pair_up.
    pose proof (half_up_bounds (length nodes)). lia.
Qed.

(** The [while (num_of_nodes > 1)] loop of
    [construct_merkle_tree_from_leaves] ends, within the budget, with the
    top level at the front of the array. *)
Lemma collapse_while (fuel : nat) :
  forall (level tail : list merkle_node_t),
  (1 <= length level <= fuel)%nat ->
  Z.of_nat (length level) < 2 ^ 32 ->
  exists tail',
    while_loop (R := Empty_set) (S fuel)
      (fun '(_, num_of_nodes) => 1 <? num_of_nodes)
      (fun '(nodes, num_of_nodes) =>
         st ← collapse_merkle_nodes nodes num_of_nodes;
         Ret (Continue st))
      (level ++ tail, Z.of_nat (length level))
    = Ret (Continue (collapse_levels fuel level ++ tail', 1)).
Proof.
  induction fuel as [|fuel IH]; intros level tail Hlen Hmax; [lia|].
  rewrite while_loop_S. cbn [collapse_levels].
  destruct (Nat.ltb_spec 1 (length level)) as [Hgt|Hle].
  - destruct (Z.ltb_spec 1 (Z.of_nat (length level))) as [_|?]; [|lia].
    rewrite collapse_merkle_nodes_spec by lia.
    cbn [mbind outcome_bind].
    assert (Hup : (1 <= length (pair_up level) <= fuel)%nat).
    { rewrite length_pair_up.
      pose proof (half_up_bounds (length level)). lia. }
    destruct (IH (pair_up level) (drop (length (pair_up level)) (level ++ tail)))
      as [tail' Ht]; [exact Hup| |].
    { rewrite length_pair_up. pose proof (half_up_bounds (length level)). lia. }
    exists tail'. exact Ht.
  - destruct (Z.ltb_spec 1 (Z.of_nat (length level))) as [?|_]; [lia|].
    exists tail. replace (Z.of_nat (length level)) with 1 by lia. reflexivity.
Qed.

(** The tree built over [n] hashes, one or more: the loops end within their
    budgets, and the root is the node the level-by-level description gives
    over the hashes the leaves received. *)
Lemma construct_merkle_tree_reads (hashes : list byte) (n : nat) :
  (1 <= n)%nat ->
  Z.of_nat n < 2 ^ 32 ->
  Z.of_nat n * HASH_SIZE <= Z.of_nat (length hashes) ->
  exists root,
    merkle_root_node (read_hashes hashes n) = Some root /\
    construct_merkle_tree_from_leaves hashes (Z.of_nat n)
    = Ret (Some (mk_tree root)).
Proof.
  intros Hmin Hmax Hlen.
  unfold construct_merkle_tree_from_leaves, merkle_root_node.
  destruct (Z.ltb_spec (Z.of_nat n) 1) as [?|_]; [lia|].
  rewrite construct_merkle_leaves_reads by assumption.
  cbn [mbind outcome_bind]. rewrite Nat2Z.id.
  set (txids := read_hashes hashes n).
  assert (Hn : length txids = n) by apply length_read_hashes.
  rewrite Hn.
  destruct (collapse_while n (leaf <$> txids) []) as [tail' Hw].
  { rewrite length_fmap. lia. }
  { rewrite length_fmap. lia. }
  rewrite app_nil_r, length_fmap, Hn in Hw. rewrite Hw.
  cbn [mbind outcome_bind loop_state fst].
  pose proof (collapse_levels_single n (leaf <$> txids)) as Hone.
  rewrite length_fmap, Hn in Hone.
  destruct (collapse_levels n (leaf <$> txids)) as [|root [|? ?]];
    cbn [length] in Hone; [lia| |lia].
  exists root. split; [reflexivity|].
  cbn [app]. rewrite (array_get_lookup _ 0%nat root) by reflexivity.
  reflexivity.
Qed.

(** Over the concatenation of at most [2^27] txids of 32 bytes no offset
    wraps, and the leaves are the txids in their order. *)
Lemma construct_merkle_tree_spec (txids : list (list byte)) :
  Forall hash_wf txids ->
  (1 <= length txids)%nat ->
  Z.of_nat (length txids) <= 2 ^ 27 ->
  exists root,
    merkle_root_node txids = Some root /\
    construct_merkle_tree_from_leaves (concat txids) (Z.of_nat (length txids))
    = Ret (Some (mk_tree root)).
Proof.
  intros Hwf Hmin Hmax.
  destruct (construct_merkle_tree_reads (concat txids) (length txids))
    as (root & Hroot & Htree); [lia | lia | |].
  { rewrite length_concat_wf by assumption. lia. }
  rewrite read_hashes_txids in Hroot by assumption.
  exists root. split; assumption.
Qed.

(** C6: a one-element list of txids yields a tree whose root is the leaf
    that carries the txid unchanged (no child, no hashing), so the Merkle
    root is the sole txid. *)
Theorem merkle_root_single_leaf (a : list byte) :
  hash_wf a ->
  construct_merkle_tree_from_leaves a 1 = Ret (Some (mk_tree (leaf a))) /\
  hash (leaf a) = a.
Proof.
  intros Ha. split; [|reflexivity].
  destruct (construct_merkle_tree_spec [a]) as (root & Hroot & Htree).
  - constructor; [exact Ha | constructor].
  - cbn [length]. lia.
  - cbn [length]. lia.
  - cbn [concat length] in Htree. rewrite app_nil_r in Htree.
    change (Z.of_nat 1) with 1 in Htree.
    cbv in Hroot. injection Hroot as <-. exact Htree.
Qed.

(** C5: over three txids [a, b, c] the root is
    [sha256d (sha256d (a ‖ b) ‖ sha256d (c ‖ c))]: the odd last node of the
    leaf level is paired with itself. *)
Theorem merkle_root_three_leaves (a b c : list byte) :
  hash_wf a -> hash_wf b -> hash_wf c ->
  exists tree,
    construct_merkle_tree_from_leaves (a ++ b ++ c) 3 = Ret (Some tree) /\
    root tree = construct_merkle_node
                  (construct_merkle_node (leaf a) (leaf b))
                  (construct_merkle_node (leaf c) (leaf c)) /\
    hash (root tree) =
      crypto_hash_sha256d
        (crypto_hash_sha256d (a ++ b) ++ crypto_hash_sha256d (c ++ c)).
Proof.
  intros Ha Hb Hc.
  destruct (construct_merkle_tree_spec [a; b; c]) as (root & Hroot & Htree).
  - repeat constructor; assumption.
  - cbn [length]. lia.
  - cbn [length]. lia.
  - cbn [concat length] in Htree. rewrite app_nil_r in Htree.
    change (Z.of_nat 3) with 3 in Htree.
    cbv [merkle_root_node collapse_levels length Nat.ltb Nat.leb fmap list_fmap
         pair_up head] in Hroot.
    injection Hroot as <-.
    eexists. split; [exact Htree|]. split; reflexivity.
Qed.

(** *** Further properties of the Merkle engine *)

Lemma pair_up_lookup (nodes : list merkle_node_t) (k : nat) :
  pair_up nodes !! k =
  match nodes !! (2 * k)%nat, nodes !! (2 * k + 1)%nat with
  | Some l, Some r => Some (construct_merkle_node l r)
  | Some last, None => Some (construct_merkle_node last last)
  | None, _ => None
  end.
Proof.
  revert nodes. induction k as [|k IH]; intros nodes.
  - destruct nodes as [|l [|r rest]]; reflexivity.
  - destruct nodes as [|l [|r rest]]; [reflexivity..|].
    replace (2 * S k)%nat with (S (S (2 * k))) by lia.
    cbn [pair_up lookup list_lookup Nat.add]. apply IH.
Qed.

(** X17: one call of [collapse_merkle_nodes] on a level of [n >= 1] nodes: it
    leaves [(n + 1) / 2] nodes; parent [k] is the node over children [2k]
    and [2k + 1] of the level, the parent of an odd last node has that node
    as both children, and every parent's hash is sha256d of its children's
    hashes, concatenated. *)
Theorem collapse_merkle_nodes_level (level tail : list merkle_node_t) :
  (1 <= length level)%nat ->
  Z.of_nat (length level) < 2 ^ 32 ->
  exists nodes',
    collapse_merkle_nodes (level ++ tail) (Z.of_nat (length level))
    = Ret (nodes', Z.of_nat ((length level + 1) / 2)) /\
    length nodes' = length (level ++ tail) /\
    (forall k l r,
       level !! (2 * k)%nat = Some l -> level !! (2 * k + 1)%nat = Some r ->
       nodes' !! k = Some (construct_merkle_node l r)) /\
    (forall k last,
       level !! (2 * k)%nat = Some last -> level !! (2 * k + 1)%nat = None ->
       nodes' !! k = Some (construct_merkle_node last last)) /\
    (forall k parent,
       (k < (length level + 1) / 2)%nat -> nodes' !! k = Some parent ->
       exists l r,
         left parent = Some l /\ right parent = Some r /\
         hash parent = crypto_hash_sha256d (hash l ++ hash r)).
Proof.
  intros Hmin Hmax.
  pose proof (half_up_bounds (length level)) as [Hhalf _].
  specialize (Hhalf Hmin).
  exists (pair_up level ++ drop (length (pair_up level)) (level ++ tail)).
  rewrite collapse_merkle_nodes_spec, length_pair_up by assumption.
  split; [reflexivity|].
  assert (Hfront : forall k, (k < (length level + 1) / 2)%nat ->
            (pair_up level ++ drop ((length level + 1) / 2) (level ++ tail)) !! k
            = pair_up level !! k).
  { intros k Hk. apply lookup_app_l. now rewrite length_pair_up. }
  split; [|split; [|split]].
  - rewrite length_app, length_pair_up, length_drop, !length_app. lia.
  - intros k l r Hl Hr.
    assert (Hk : (k < (length level + 1) / 2)%nat).
    { apply lookup_lt_Some in Hr.
      apply Nat.div_le_lower_bound; lia. }
    rewrite Hfront, pair_up_lookup, Hl, Hr by exact Hk. reflexivity.
  - intros k last Hl Hr.
    assert (Hk : (k < (length level + 1) / 2)%nat).
    { apply lookup_lt_Some in Hl.
      apply Nat.div_le_lower_bound; lia. }
    rewrite Hfront, pair_up_lookup, Hl, Hr by exact Hk. reflexivity.
  - intros k parent Hk Hp. rewrite Hfront, pair_up_lookup in Hp by exact Hk.
    destruct (level !! (2 * k)%nat) as [l|]; [|discriminate].
    destruct (level !! (2 * k + 1)%nat) as [r|]; injection Hp as <-;
      eexists _, _; repeat split.
Qed.

(** X18: [construct_merkle_tree_from_leaves] returns NULL for no hash. Over
    the concatenation of [n] txids of 32 bytes, [1 <= n < 2^32], all its
    loops end with every array read in range, and the root is the node
    reached by collapsing level after level, until one node remains, the
    leaves it read: leaf [i] holds the 32 bytes at the [uint32_t] offset
    [i * HASH_SIZE], which is txid [i mod 2^27]. Up to [2^27] txids no
    offset wraps (the largest is [32 * (n - 1)]) and the leaves are the
    txids in their order. *)
Theorem construct_merkle_tree_total (txids : list (list byte)) :
  construct_merkle_tree_from_leaves (concat txids) 0 = Ret None /\
  (Forall hash_wf txids ->
   (1 <= length txids)%nat ->
   Z.of_nat (length txids) < 2 ^ 32 ->
   (exists root,
      merkle_root_node (read_hashes (concat txids) (length txids)) = Some root /\
      construct_merkle_tree_from_leaves (concat txids) (Z.of_nat (length txids))
      = Ret (Some (mk_tree root))) /\
   (forall i, (i < length txids)%nat ->
      read_hashes (concat txids) (length txids) !! i
      = txids !! Z.to_nat (Z.of_nat i mod 2 ^ 27)) /\
   (Z.of_nat (length txids) <= 2 ^ 27 ->
    read_hashes (concat txids) (length txids) = txids)).
Proof.
  split; [reflexivity|]. intros Hwf Hmin Hmax. split; [|split].
  - apply construct_merkle_tree_reads; [lia | lia |].
    rewrite length_concat_wf by assumption. lia.
  - intros i Hi. unfold read_hashes.
    rewrite list_lookup_fmap, lookup_seq_lt by exact Hi.
    cbn [fmap option_fmap option_map Nat.add].
    pose proof (Z.mod_pos_bound (Z.of_nat i) (2 ^ 27) ltac:(lia)) as Hm.
    pose proof (Z.mod_le (Z.of_nat i) (2 ^ 27) ltac:(lia) ltac:(lia)) as Hle.
    destruct (lookup_lt_is_Some_2 txids (Z.to_nat (Z.of_nat i mod 2 ^ 27)))
      as [h Hh]; [lia|].
    rewrite Hh. f_equal. now apply read_hash_txid.
  - now apply read_hashes_txids.
Qed.

Lemma collapse_levels_enough (fuel : nat) (nodes : list merkle_node_t) :
  (length nodes <= S fuel)%nat ->
  collapse_levels (S fuel) nodes = collapse_levels fuel nodes.
Proof.
  revert nodes. induction fuel as [|fuel IH]; intros nodes Hlen.
  - cbn [collapse_levels].
    destruct (Nat.ltb_spec 1 (length nodes)); [lia | reflexivity].
  - change (collapse_levels (S (S fuel)) nodes)
      with (if (1 <? length nodes)%nat
            then collapse_levels (S fuel) (pair_up nodes) else nodes).
    change (collapse_levels (S fuel) nodes)
      with (if (1 <? length nodes)%nat
            then collapse_levels fuel (pair_up nodes) else nodes).
    destruct (Nat.ltb_spec 1 (length nodes)) as [Hgt|]; [|reflexivity].
    apply IH. rewrite length_pair_up.
    pose proof (half_up_bounds (length nodes)). lia.
Qed.

Lemma pair_up_duplicate_last (nodes : list merkle_node_t) (x : merkle_node_t) :
  Nat.odd (length nodes) = true ->
  nodes !! (length nodes - 1)%nat = Some x ->
  pair_up (nodes ++ [x]) = pair_up nodes.
Proof.
  induction nodes as [nodes IH] using (induction_ltof1 _ (@length _)).
  unfold ltof in IH. intros Hodd Hlast.
  destruct nodes as [|l [|r rest]]; [discriminate| |].
  - cbn in Hlast. injection Hlast as <-. reflexivity.
  - cbn [app pair_up]. f_equal.
    change (length (l :: r :: rest)) with (S (S (length rest))) in Hodd, Hlast.
    rewrite Nat.odd_succ_succ in Hodd.
    destruct rest as [|y rest']; [discriminate|].
    apply IH; [cbn [length]; lia | exact Hodd |].
    cbn [length] in *.
    replace (S (S (S (length rest'))) - 1)%nat
      with (S (S (S (length rest') - 1)))%nat in Hlast by lia.
    exact Hlast.
Qed.

(** Repeating the last txid of a list of odd length, three or more, does
    not change the root node. *)
Lemma merkle_root_node_duplicate_last (txids : list (list byte)) (x : list byte) :
  Nat.odd (length txids) = true ->
  (3 <= length txids)%nat ->
  txids !! (length txids - 1)%nat = Some x ->
  merkle_root_node (txids ++ [x]) = merkle_root_node txids.
Proof.
  intros Hodd Hmin Hlast.
  unfold merkle_root_node.
  rewrite length_app. cbn [length].
  destruct (length txids) as [|[|n]] eqn:Hn; [lia..|].
  replace (S (S n) + 1)%nat with (S (S (S n))) by lia.
  change (collapse_levels (S (S (S n))) (leaf <$> txids ++ [x]))
    with (if (1 <? length (leaf <$> txids ++ [x]))%nat
          then collapse_levels (S (S n)) (pair_up (leaf <$> txids ++ [x]))
          else leaf <$> txids ++ [x]).
  change (collapse_levels (S (S n)) (leaf <$> txids))
    with (if (1 <? length (leaf <$> txids))%nat
          then collapse_levels (S n) (pair_up (leaf <$> txids))
          else leaf <$> txids).
  rewrite !length_fmap, length_app. cbn [length]. rewrite Hn.
  destruct (Nat.ltb_spec 1 (S (S n))) as [_|]; [|lia].
  destruct (Nat.ltb_spec 1 (S (S n) + 1)) as [_|]; [|lia].
  rewrite fmap_app. cbn [fmap list_fmap].
  rewrite pair_up_duplicate_last.
  - rewrite collapse_levels_enough; [reflexivity|].
    rewrite length_pair_up, length_fmap, Hn.
    pose proof (half_up_bounds (S (S n))). lia.
  - now rewrite length_fmap, Hn.
  - rewrite length_fmap, Hn, list_lookup_fmap. now rewrite Hlast.
Qed.

(** X19: the odd-node rule makes two different lists of txids share a tree,
    and so a root: a list of odd length [n], three or more, and the same
    list with its last txid repeated, as long as no leaf offset of the
    longer list wraps ([n + 1 <= 2^27]). *)
Theorem merkle_root_duplicate_last (txids : list (list byte)) (x : list byte) :
  Forall hash_wf txids ->
  Nat.odd (length txids) = true ->
  (3 <= length txids)%nat ->
  Z.of_nat (length txids) + 1 <= 2 ^ 27 ->
  txids !! (length txids - 1)%nat = Some x ->
  exists tree,
    construct_merkle_tree_from_leaves (concat txids) (Z.of_nat (length txids))
    = Ret (Some tree) /\
    construct_merkle_tree_from_leaves (concat (txids ++ [x]))
      (Z.of_nat (length txids) + 1)
    = Ret (Some tree).
Proof.
  intros Hwf Hodd Hmin Hmax Hlast.
  assert (Hx : hash_wf x).
  { apply (proj1 (Forall_lookup _ _) Hwf _ _ Hlast). }
  destruct (construct_merkle_tree_spec txids) as (root & Hroot & Htree);
    [assumption | lia | lia |].
  destruct (construct_merkle_tree_spec (txids ++ [x])) as (root' & Hroot' & Htree').
  { apply Forall_app. split; [assumption | repeat constructor; assumption]. }
  { rewrite length_app. cbn [length]. lia. }
  { rewrite length_app. cbn [length]. lia. }
  rewrite length_app, Nat2Z.inj_add in Htree'. cbn [length] in Htree'.
  change (Z.of_nat 1) with 1 in Htree'.
  exists (mk_tree root). split; [exact Htree|].
  rewrite Htree'. do 3 f_equal.
  rewrite (merkle_root_node_duplicate_last txids x Hodd Hmin Hlast) in Hroot'.
  rewrite Hroot in Hroot'. now injection Hroot' as <-.
Qed.

(** *** The root binds the leaves *)

(** Two different byte strings with the same digest. *)
Definition collision : Prop :=
  exists x y : list byte, x <> y /\ crypto_hash_sha256d x = crypto_hash_sha256d y.







End Hash.

End Merkle.


(** ** core/merkle.c, with the nodes in memory *)

(** The functions of merkle.c once more, with the nodes where the code has
    them: in allocations that pointers refer to. A pointer is the address
    of an allocation, or NULL ([None]); two pointers are equal when they
    are the same address. This is the view [free_merkle_tree] and
    [free_merkle_node] need, which compare pointers and free each node. *)
Module MerkleMemory.

Record merkle_node_t : Type := mk_node {
  left : option nat;
  right : option nat;
  hash : list byte
}.

(** What an allocation holds: a [merkle_node_t] or a [merkle_tree_t], which
    is its [root] pointer. *)
Inductive object : Type :=
| node_object (node : merkle_node_t)
| tree_object (root : option nat).

(** The allocations made so far, by address, in the order they were made:
    [Some] for a live one, [None] for one that has been freed. [malloc]
    never hands out an address twice. The pointer arrays and the scratch
    buffers, which the function that allocates them frees, are values. *)
Abbreviation memory := (list (option object)).

Definition malloc (o : object) (m : memory) : nat * memory :=
  (length m, m ++ [Some o]).

(** An access through a pointer to no live object of the expected type, a
    second [free] of an address included, is reported as [out_of_bounds]. *)
Definition free (p : nat) (m : memory) : outcome memory :=
  match m !! p with
  | Some (Some _) => Ret (<[p := None]> m)
  | _ => Crash out_of_bounds
  end.

Definition load_node (p : nat) (m : memory) : outcome merkle_node_t :=
  match m !! p with
  | Some (Some (node_object node)) => Ret node
  | _ => Crash out_of_bounds
  end.

Definition store_node (p : nat) (node : merkle_node_t) (m : memory) : outcome memory :=
  match m !! p with
  | Some (Some (node_object _)) => Ret (<[p := Some (node_object node)]> m)
  | _ => Crash out_of_bounds
  end.

Definition load_tree (p : nat) (m : memory) : outcome (option nat) :=
  match m !! p with
  | Some (Some (tree_object root)) => Ret root
  | _ => Crash out_of_bounds
  end.

Definition store_tree (p : nat) (root : option nat) (m : memory) : outcome memory :=
  match m !! p with
  | Some (Some (tree_object _)) => Ret (<[p := Some (tree_object root)]> m)
  | _ => Crash out_of_bounds
  end.

Section Hash.

Variable crypto_hash_sha256d : list byte -> list byte.

(** Creates a MerkleNode that contains the hash of two MerkleNodes. *)
Definition construct_merkle_node (left right : option nat) (m : memory)
    : outcome (option nat * memory) :=
  match left, right with
  | Some l, Some r =>
      left_node ← load_node l m;
      right_node ← load_node r m;
      let combined_hash := hash left_node ++ hash right_node in
      let node_hash := crypto_hash_sha256d combined_hash in
      let '(node, m) := malloc (node_object (mk_node left right node_hash)) m in
      Ret (Some node, m)
  | _, _ => Crash assertion_failed
  end.

(** Loops through all of the hashes, and creates a leaf node for each, its
    hash read at [&hashes[i * HASH_SIZE]], a product of [uint32_t]. The
    result is the array, [*num_of_nodes] and the memory. *)
Definition construct_merkle_leaves_from_hashes (hashes : list byte)
    (num_of_hashes : Z) (m : memory) : outcome (list (option nat) * Z * memory) :=
  c ← for_each_index (R := Empty_set) num_of_hashes
        (fun i '(nodes, m) =>
           h ← slice hashes (to_uint32 (i * HASH_SIZE)) HASH_SIZE;
           let '(node, m) := malloc (node_object (mk_node None None h)) m in
           Ret (Continue (nodes ++ [Some node], m)))
        ([], m);
  let '(nodes, m) := loop_state c in
  Ret (nodes, num_of_hashes, m).

(** Collapses the list of nodes into a smaller list of parent nodes that are
    hashes of 2 child nodes. *)
Definition collapse_merkle_nodes (nodes : list (option nat)) (num_of_nodes : Z)
    (m : memory) : outcome (list (option nat) * Z * memory) :=
  c ← while_loop (R := Empty_set) (Datatypes.S (Z.to_nat num_of_nodes))
        (fun '(i, _, _) => i <? to_uint32 (num_of_nodes - 1))
        (fun '(i, temp_nodes, m) =>
           l ← array_get nodes i;
           r ← array_get nodes (i + 1);
           '(node, m) ← construct_merkle_node l r m;
           Ret (Continue (i + 2, temp_nodes ++ [node], m)))
        (0, [], m);
  let '(_, temp_nodes, m) := loop_state c in
  '(temp_nodes, m) ←
    (if negb (num_of_nodes mod 2 =? 0)
     then last ← array_get nodes (num_of_nodes - 1);
          '(node, m) ← construct_merkle_node last last m;
          Ret (temp_nodes ++ [node], m)
     else Ret (temp_nodes, m));
  let current_node_idx := Z.of_nat (length temp_nodes) in
  c ← for_each_index (R := Empty_set) current_node_idx
        (fun i nodes =>
           t ← array_get temp_nodes i;
           Ret (Continue (<[Z.to_nat i := t]> nodes)))
        nodes;
  Ret (loop_state c, current_node_idx, m).

(** The result is the tree pointer, NULL when there is no hash, and the
    memory. *)
Definition construct_merkle_tree_from_leaves (hashes : list byte)
    (num_of_hashes : Z) (m : memory) : outcome (option nat * memory) :=
  if num_of_hashes <? 1 then Ret (None, m)
  else
    let '(tree, m) := malloc (tree_object None) m in
    '(nodes, num_of_nodes, m) ←
      construct_merkle_leaves_from_hashes hashes num_of_hashes m;
    c ← while_loop (R := Empty_set) (Datatypes.S (Z.to_nat num_of_hashes))
          (fun '(_, num_of_nodes, _) => 1 <? num_of_nodes)
          (fun '(nodes, num_of_nodes, m) =>
             st ← collapse_merkle_nodes nodes num_of_nodes m;
             Ret (Continue st))
          (nodes, num_of_nodes, m);
    let '(nodes, _, m) := loop_state c in
    root ← array_get nodes 0;
    m ← store_tree tree root m;
    Ret (Some tree, m).

End Hash.

(** The recursion of [free_merkle_node] is bounded by [fuel] calls deep; a
    call that would go deeper is reported as [fuel_exhausted]. The fields of
    [node] are read from memory where the code reads them, and
    [node->left = NULL] is a store to the node. *)
Fixpoint free_merkle_node (fuel : nat) (node : option nat) (m : memory)
    : outcome memory :=
  match fuel with
  | O => Crash fuel_exhausted
  | Datatypes.S fuel =>
      match node with
      | None => Crash assertion_failed
      | Some p =>
          n ← load_node p m;
          m ← (if bool_decide (left n <> None) && bool_decide (left n = right n)
               then free_merkle_node fuel (left n) m
               else
                 m ← (if bool_decide (left n <> None)
                      then m ← free_merkle_node fuel (left n) m;
                           n ← load_node p m;
                           store_node p (mk_node None (right n) (hash n)) m
                      else Ret m);
                 n ← load_node p m;
                 if bool_decide (right n <> None)
                 then m ← free_merkle_node fuel (right n) m;
                      n ← load_node p m;
                      store_node p (mk_node (left n) None (hash n)) m
                 else Ret m);
          free p m
      end
  end.

(** Frees a merkle tree in DFS postorder traversal. *)
Definition free_merkle_tree (fuel : nat) (tree : option nat) (m : memory)
    : outcome memory :=
  match tree with
  | None => Crash assertion_failed
  | Some t =>
      root ← load_tree t m;
      m ← free_merkle_node fuel root m;
      free t m
  end.

(** *** Trees in memory *)

(** [tree_at m p t fp]: in memory [m] the pointer [p] leads to a tree whose
    nodes are live, each at an address of its own, [fp] being those
    addresses; [t] is that tree as the value-level model of merkle.c has
    it. A parent has two children at different addresses, or one child that
    both its pointers refer to. *)
Inductive tree_at (m : memory) : nat -> Merkle.merkle_node_t -> list nat -> Prop :=
| tree_at_leaf (p : nat) (h : list byte) :
    m !! p = Some (Some (node_object (mk_node None None h))) ->
    tree_at m p (Merkle.mk_node None None h) [p]
| tree_at_pair (p l r : nat) (h : list byte) (tl tr : Merkle.merkle_node_t)
    (fl fr : list nat) :
    m !! p = Some (Some (node_object (mk_node (Some l) (Some r) h))) ->
    tree_at m l tl fl -> tree_at m r tr fr ->
    NoDup (p :: fl ++ fr) ->
    tree_at m p (Merkle.mk_node (Some tl) (Some tr) h) (p :: fl ++ fr)
| tree_at_twin (p l : nat) (h : list byte) (tl : Merkle.merkle_node_t)
    (fl : list nat) :
    m !! p = Some (Some (node_object (mk_node (Some l) (Some l) h))) ->
    tree_at m l tl fl ->
    NoDup (p :: fl) ->
    tree_at m p (Merkle.mk_node (Some tl) (Some tl) h) (p :: fl).

Lemma tree_at_root (m : memory) (p : nat) (t : Merkle.merkle_node_t) (fp : list nat) :
  tree_at m p t fp -> p ∈ fp.
Proof. destruct 1; apply list_elem_of_here. Qed.

Lemma tree_at_node (m : memory) (p : nat) (t : Merkle.merkle_node_t) (fp : list nat) :
  tree_at m p t fp ->
  exists node, m !! p = Some (Some (node_object node)) /\ hash node = Merkle.hash t.
Proof. destruct 1; eexists; split; try eassumption; reflexivity. Qed.

Lemma tree_at_NoDup (m : memory) (p : nat) (t : Merkle.merkle_node_t) (fp : list nat) :
  tree_at m p t fp -> NoDup fp.
Proof. destruct 1; [apply NoDup_singleton | assumption..]. Qed.

Lemma tree_at_live (m : memory) (p : nat) (t : Merkle.merkle_node_t) (fp : list nat) :
  tree_at m p t fp -> forall q, q ∈ fp -> exists o, m !! q = Some (Some o).
Proof.
  induction 1 as [p h Hp | p l r h tl tr fl fr Hp _ IHl _ IHr _ | p l h tl fl Hp _ IHl _];
    intros q Hq.
  - apply list_elem_of_singleton in Hq as ->. eauto.
  - apply elem_of_cons in Hq as [->|Hq]; [eauto|].
    apply elem_of_app in Hq as [Hq|Hq]; auto.
  - apply elem_of_cons in Hq as [->|Hq]; [eauto | auto].
Qed.

(** A tree is still there in every memory that holds the same objects at
    its addresses. *)
Lemma tree_at_frame (m m' : memory) (p : nat) (t : Merkle.merkle_node_t)
    (fp : list nat) :
  tree_at m p t fp ->
  (forall q, q ∈ fp -> m' !! q = m !! q) ->
  tree_at m' p t fp.
Proof.
  induction 1 as [p h Hp | p l r h tl tr fl fr Hp _ IHl _ IHr Hnd | p l h tl fl Hp _ IHl Hnd];
    intros Hsame.
  - apply tree_at_leaf. rewrite Hsame by apply list_elem_of_here. exact Hp.
  - apply (tree_at_pair m' p l r h tl tr fl fr); [| | |exact Hnd].
    + rewrite Hsame by apply list_elem_of_here. exact Hp.
    + apply IHl. intros q Hq. apply Hsame.
      apply list_elem_of_further, elem_of_app. now left.
    + apply IHr. intros q Hq. apply Hsame.
      apply list_elem_of_further, elem_of_app. now right.
  - apply (tree_at_twin m' p l h tl fl); [| |exact Hnd].
    + rewrite Hsame by apply list_elem_of_here. exact Hp.
    + apply IHl. intros q Hq. apply Hsame. now apply list_elem_of_further.
Qed.

(** *** The memory operations *)

Lemma load_node_live (m : memory) (p : nat) (node : merkle_node_t) :
  m !! p = Some (Some (node_object node)) -> load_node p m = Ret node.
Proof. intros H. unfold load_node. now rewrite H. Qed.

Lemma store_node_live (m : memory) (p : nat) (node node' : merkle_node_t) :
  m !! p = Some (Some (node_object node)) ->
  store_node p node' m = Ret (<[p := Some (node_object node')]> m).
Proof. intros H. unfold store_node. now rewrite H. Qed.

Lemma free_live (m : memory) (p : nat) (o : object) :
  m !! p = Some (Some o) -> free p m = Ret (<[p := None]> m).
Proof. intros H. unfold free. now rewrite H. Qed.

Lemma lookup_insert_live (m : memory) (p : nat) (x y : option object) :
  m !! p = Some x -> <[p := y]> m !! p = Some y.
Proof. intros H. apply list_lookup_insert_eq. now apply lookup_lt_Some in H. Qed.

(** *** [free_merkle_node] *)

(** What a memory looks like after the objects at the addresses [fp] have
    been freed. *)
Definition freed (fp : list nat) (m m' : memory) : Prop :=
  length m' = length m /\
  forall q, m' !! q = if decide (q ∈ fp) then Some None else m !! q.

Lemma free_merkle_node_tree (fuel : nat) :
  forall (m : memory) (p : nat) (t : Merkle.merkle_node_t) (fp : list nat),
  tree_at m p t fp -> (length fp <= fuel)%nat ->
  exists m', free_merkle_node fuel (Some p) m = Ret m' /\ freed fp m m'.
Proof.
  induction fuel as [|fuel IH]; intros m p t fp Htree Hfuel.
  { pose proof (tree_at_root _ _ _ _ Htree) as Hp.
    destruct fp; [now apply elem_of_nil in Hp | cbn [length] in Hfuel; lia]. }
  cbn [free_merkle_node].
  destruct Htree as [p h Hp | p l r h tl tr fl fr Hp Hl Hr Hnd | p l h tl fl Hp Hl Hnd].
  - (* a leaf *)
    rewrite (load_node_live _ _ _ Hp). cbn [mbind outcome_bind left right].
    rewrite bool_decide_eq_false_2 by (intros H; now apply H).
    cbn [andb mbind outcome_bind].
    rewrite (load_node_live _ _ _ Hp). cbn [mbind outcome_bind left right].
    rewrite bool_decide_eq_false_2 by (intros H; now apply H).
    cbn [mbind outcome_bind].
    rewrite (free_live _ _ _ Hp). eexists. split; [reflexivity|].
    split; [apply length_insert|].
    intros q. destruct (decide (q ∈ [p])) as [Hq|Hq].
    + apply list_elem_of_singleton in Hq as ->. eapply lookup_insert_live, Hp.
    + apply list_lookup_insert_ne. intros ->. apply Hq, list_elem_of_here.
  - (* two children *)
    apply list.NoDup_cons in Hnd as [Hpn Hnd].
    apply list.NoDup_app in Hnd as (_ & Hdisj & _).
    rewrite elem_of_app in Hpn.
    assert (Hlr : l <> r).
    { intros ->. apply (Hdisj r); eapply tree_at_root; eassumption. }
    cbn [length] in Hfuel. rewrite length_app in Hfuel.
    rewrite (load_node_live _ _ _ Hp). cbn [mbind outcome_bind left right].
    rewrite bool_decide_eq_true_2 by discriminate.
    rewrite (bool_decide_eq_false_2 (Some l = Some r)) by congruence.
    cbn [andb mbind outcome_bind].
    destruct (IH m l tl fl Hl) as (m1 & Hfree1 & Hlen1 & Hm1); [lia|].
    rewrite Hfree1. cbn [mbind outcome_bind].
    assert (Hp1 : m1 !! p = Some (Some (node_object (mk_node (Some l) (Some r) h)))).
    { rewrite Hm1. destruct (decide (p ∈ fl)); [tauto | exact Hp]. }
    rewrite (load_node_live _ _ _ Hp1). cbn [mbind outcome_bind left right hash].
    rewrite (store_node_live _ _ _ _ Hp1). cbn [mbind outcome_bind].
    set (m2 := <[p := Some (node_object (mk_node None (Some r) h))]> m1).
    assert (Hp2 : m2 !! p = Some (Some (node_object (mk_node None (Some r) h))))
      by (eapply lookup_insert_live, Hp1).
    rewrite (load_node_live _ _ _ Hp2). cbn [mbind outcome_bind left right hash].
    rewrite bool_decide_eq_true_2 by discriminate.
    assert (Hr2 : tree_at m2 r tr fr).
    { apply (tree_at_frame m); [exact Hr|]. intros q Hq. unfold m2.
      rewrite list_lookup_insert_ne by (intros E; apply Hpn; right; now rewrite E).
      rewrite Hm1. destruct (decide (q ∈ fl)) as [Hq'|]; [|reflexivity].
      destruct (Hdisj q Hq' Hq). }
    destruct (IH m2 r tr fr Hr2) as (m3 & Hfree3 & Hlen3 & Hm3); [lia|].
    rewrite Hfree3. cbn [mbind outcome_bind].
    assert (Hp3 : m3 !! p = Some (Some (node_object (mk_node None (Some r) h)))).
    { rewrite Hm3. destruct (decide (p ∈ fr)); [tauto | exact Hp2]. }
    rewrite (load_node_live _ _ _ Hp3). cbn [mbind outcome_bind left right hash].
    rewrite (store_node_live _ _ _ _ Hp3). cbn [mbind outcome_bind].
    set (m4 := <[p := Some (node_object (mk_node None None h))]> m3).
    assert (Hp4 : m4 !! p = Some (Some (node_object (mk_node None None h))))
      by (eapply lookup_insert_live, Hp3).
    rewrite (free_live _ _ _ Hp4). eexists. split; [reflexivity|].
    split.
    { unfold m4. rewrite !length_insert, Hlen3. unfold m2.
      rewrite length_insert. exact Hlen1. }
    intros q. destruct (decide (q = p)) as [->|Hqp].
    { rewrite decide_True by apply list_elem_of_here.
      eapply lookup_insert_live, Hp4. }
    rewrite list_lookup_insert_ne by congruence. unfold m4.
    rewrite list_lookup_insert_ne by congruence. rewrite Hm3. unfold m2.
    rewrite list_lookup_insert_ne by congruence. rewrite Hm1.
    destruct (decide (q ∈ fr)) as [Hqr|Hqr].
    { rewrite decide_True; [reflexivity|].
      apply list_elem_of_further, elem_of_app. now right. }
    destruct (decide (q ∈ fl)) as [Hql|Hql].
    { rewrite decide_True; [reflexivity|].
      apply list_elem_of_further, elem_of_app. now left. }
    rewrite decide_False; [reflexivity|].
    intros Hq. apply elem_of_cons in Hq as [?|Hq]; [contradiction|].
    apply elem_of_app in Hq as [?|?]; contradiction.
  - (* one child, which both pointers refer to *)
    apply list.NoDup_cons in Hnd as [Hpn _].
    cbn [length] in Hfuel.
    rewrite (load_node_live _ _ _ Hp). cbn [mbind outcome_bind left right].
    rewrite bool_decide_eq_true_2 by discriminate.
    rewrite bool_decide_eq_true_2 by reflexivity.
    cbn [andb mbind outcome_bind].
    destruct (IH m l tl fl Hl) as (m1 & Hfree1 & Hlen1 & Hm1); [lia|].
    rewrite Hfree1. cbn [mbind outcome_bind].
    assert (Hp1 : m1 !! p = Some (Some (node_object (mk_node (Some l) (Some l) h)))).
    { rewrite Hm1. destruct (decide (p ∈ fl)); [contradiction | exact Hp]. }
    rewrite (free_live _ _ _ Hp1). eexists. split; [reflexivity|].
    split; [rewrite length_insert; exact Hlen1|].
    intros q. destruct (decide (q = p)) as [->|Hqp].
    { rewrite decide_True by apply list_elem_of_here.
      eapply lookup_insert_live, Hp1. }
    rewrite list_lookup_insert_ne by congruence. rewrite Hm1.
    destruct (decide (q ∈ fl)) as [Hql|Hql].
    { rewrite decide_True; [reflexivity | now apply list_elem_of_further]. }
    rewrite decide_False; [reflexivity|].
    intros Hq. apply elem_of_cons in Hq as [?|?]; contradiction.
Qed.

(** *** Building the tree in memory *)

Section Construction.

Variable crypto_hash_sha256d : list byte -> list byte.

Local Abbreviation pair_up := (Merkle.pair_up crypto_hash_sha256d).
Local Abbreviation parent := (Merkle.construct_merkle_node crypto_hash_sha256d).

(** The nodes [addrs] point to are the roots of the trees [nodes], which
    lie apart from each other in memory, and every object from address
    [base] on is a node of one of them. *)
Definition forest (base : nat) (m : memory) (addrs : list nat)
    (nodes : list Merkle.merkle_node_t) : Prop :=
  (base <= length m)%nat /\
  exists fps : list (list nat),
    Forall3 (tree_at m) addrs nodes fps /\
    NoDup (concat fps) /\
    (forall q, q ∈ concat fps <-> (base <= q < length m)%nat).

Lemma tree_at_malloc (m : memory) (o : object) (p : nat)
    (t : Merkle.merkle_node_t) (fp : list nat) :
  tree_at m p t fp -> tree_at (m ++ [Some o]) p t fp.
Proof.
  intros H. apply (tree_at_frame m); [exact H|].
  intros q Hq. destruct (tree_at_live _ _ _ _ H q Hq) as [o' Ho'].
  apply lookup_app_l. now apply lookup_lt_Some in Ho'.
Qed.

(** A new node at the next address, over trees of the forest that it takes
    the place of. *)
Lemma forest_replace (base : nat) (m : memory) (o : object)
    (a1 a2 : list nat) (n1 n2 : list Merkle.merkle_node_t)
    (f1 f2 : list (list nat)) (fc : list nat) (t : Merkle.merkle_node_t) :
  (base <= length m)%nat ->
  Forall3 (tree_at m) a1 n1 f1 ->
  Forall3 (tree_at m) a2 n2 f2 ->
  NoDup (concat f1 ++ fc ++ concat f2) ->
  (forall q, q ∈ concat f1 ++ fc ++ concat f2 <-> (base <= q < length m)%nat) ->
  tree_at (m ++ [Some o]) (length m) t (length m :: fc) ->
  forest base (m ++ [Some o]) (a1 ++ length m :: a2) (n1 ++ t :: n2).
Proof.
  intros Hbase H1 H2 Hnd Hcover Ht.
  split; [rewrite length_app; lia|].
  exists (f1 ++ (length m :: fc) :: f2).
  assert (Hperm : concat (f1 ++ (length m :: fc) :: f2)
                  ≡ₚ length m :: concat f1 ++ fc ++ concat f2).
  { rewrite concat_app. cbn [concat app]. now rewrite <- Permutation_middle. }
  split; [|split].
  - apply Forall3_app; [|apply Forall3_cons; [exact Ht|]].
    + eapply Forall3_impl; [exact H1|]. intros. now apply tree_at_malloc.
    + eapply Forall3_impl; [exact H2|]. intros. now apply tree_at_malloc.
  - rewrite Hperm. apply list.NoDup_cons. split; [|exact Hnd].
    intros Hin. apply Hcover in Hin. lia.
  - intros q. rewrite Hperm, elem_of_cons, Hcover, length_app. cbn [length]. lia.
Qed.

Lemma forest_leaf (base : nat) (m : memory) (addrs : list nat)
    (nodes : list Merkle.merkle_node_t) (h : list byte) :
  forest base m addrs nodes ->
  forest base (m ++ [Some (node_object (mk_node None None h))])
    (addrs ++ [length m]) (nodes ++ [Merkle.leaf h]).
Proof.
  intros (Hbase & fps & Hall & Hnd & Hcover).
  apply (forest_replace base m _ addrs [] nodes [] fps [] []); try assumption.
  - apply Forall3_nil.
  - cbn [concat app]. now rewrite app_nil_r.
  - intros q. cbn [concat app]. rewrite app_nil_r. apply Hcover.
  - apply tree_at_leaf. rewrite lookup_app_r, Nat.sub_diag by lia. reflexivity.
Qed.

(** [construct_merkle_node] on the roots of two neighbouring trees of a
    forest. *)
Lemma forest_pair (base : nat) (m : memory) (a1 a2 : list nat) (l r : nat)
    (n1 n2 : list Merkle.merkle_node_t) (tl tr : Merkle.merkle_node_t) :
  forest base m (a1 ++ l :: r :: a2) (n1 ++ tl :: tr :: n2) ->
  length a1 = length n1 ->
  exists o,
    construct_merkle_node crypto_hash_sha256d (Some l) (Some r) m
    = Ret (Some (length m), m ++ [Some o]) /\
    forest base (m ++ [Some o]) (a1 ++ length m :: a2) (n1 ++ parent tl tr :: n2).
Proof.
  intros (Hbase & fps & Hall & Hnd & Hcover) Hlen.
  apply Forall3_app_inv_l in Hall as (k1 & k2 & f1 & f2 & Hk & -> & H1 & H2).
  apply app_inj_1 in Hk as [<- <-];
    [|rewrite <- Hlen; eapply Forall3_length_lm; exact H1].
  apply Forall3_cons_inv_l in H2 as (? & ? & fl & f2' & [= <- <-] & -> & Hl & H2).
  apply Forall3_cons_inv_l in H2 as (? & ? & fr & f2'' & [= <- <-] & -> & Hr & H2).
  rewrite concat_app in Hnd, Hcover. cbn [concat] in Hnd, Hcover.
  destruct (tree_at_node _ _ _ _ Hl) as (nl & Hnl & Hhl).
  destruct (tree_at_node _ _ _ _ Hr) as (nr & Hnr & Hhr).
  eexists. split.
  - unfold construct_merkle_node.
    rewrite (load_node_live _ _ _ Hnl), (load_node_live _ _ _ Hnr).
    cbn [mbind outcome_bind malloc]. reflexivity.
  - rewrite Hhl, Hhr.
    apply (forest_replace base m _ a1 a2 n1 n2 f1 f2'' (fl ++ fr)); try assumption.
    + now rewrite <- app_assoc.
    + intros q. rewrite <- app_assoc. apply Hcover.
    + assert (Hsub : NoDup (fl ++ fr)).
      { apply list.NoDup_app in Hnd as (_ & _ & Hnd).
        rewrite app_assoc in Hnd. now apply list.NoDup_app in Hnd as (Hnd & _). }
      apply (tree_at_pair _ (length m) l r _ tl tr fl fr).
      * rewrite lookup_app_r, Nat.sub_diag by lia. reflexivity.
      * now apply tree_at_malloc.
      * now apply tree_at_malloc.
      * apply list.NoDup_cons. split; [|exact Hsub].
        intros Hin.
        assert (Hq : length m ∈ concat f1 ++ fl ++ fr ++ concat f2'').
        { apply elem_of_app. right. rewrite app_assoc.
          apply elem_of_app. now left. }
        apply Hcover in Hq. lia.
Qed.

(** [construct_merkle_node] on the root of the last tree of a forest, for
    both children. *)
Lemma forest_twin (base : nat) (m : memory) (a1 : list nat) (l : nat)
    (n1 : list Merkle.merkle_node_t) (tl : Merkle.merkle_node_t) :
  forest base m (a1 ++ [l]) (n1 ++ [tl]) ->
  length a1 = length n1 ->
  exists o,
    construct_merkle_node crypto_hash_sha256d (Some l) (Some l) m
    = Ret (Some (length m), m ++ [Some o]) /\
    forest base (m ++ [Some o]) (a1 ++ [length m]) (n1 ++ [parent tl tl]).
Proof.
  intros (Hbase & fps & Hall & Hnd & Hcover) Hlen.
  apply Forall3_app_inv_l in Hall as (k1 & k2 & f1 & f2 & Hk & -> & H1 & H2).
  apply app_inj_1 in Hk as [<- <-];
    [|rewrite <- Hlen; eapply Forall3_length_lm; exact H1].
  apply Forall3_cons_inv_l in H2 as (? & ? & fl & f2' & [= <- <-] & -> & Hl & H2).
  inversion H2; subst.
  rewrite concat_app in Hnd, Hcover. cbn [concat] in Hnd, Hcover.
  destruct (tree_at_node _ _ _ _ Hl) as (nl & Hnl & Hhl).
  eexists. split.
  - unfold construct_merkle_node.
    rewrite (load_node_live _ _ _ Hnl).
    cbn [mbind outcome_bind malloc]. reflexivity.
  - rewrite Hhl.
    apply (forest_replace base m _ a1 [] n1 [] f1 [] fl); try assumption.
    assert (Hsub : NoDup fl).
    { apply list.NoDup_app in Hnd as (_ & _ & Hnd).
      now rewrite app_nil_r in Hnd. }
    apply (tree_at_twin _ (length m) l _ tl fl).
    + rewrite lookup_app_r, Nat.sub_diag by lia. reflexivity.
    + now apply tree_at_malloc.
    + apply list.NoDup_cons. split; [|exact Hsub].
      intros Hin.
      assert (Hq : length m ∈ concat f1 ++ fl ++ []).
      { apply elem_of_app. right. now rewrite app_nil_r. }
      apply Hcover in Hq. lia.
Qed.

Lemma forest_empty (m : memory) : forest (length m) m [] [].
Proof.
  split; [lia|]. exists []. split; [apply Forall3_nil|].
  split; [apply NoDup_nil_2|]. intros q. cbn [concat].
  rewrite elem_of_nil. lia.
Qed.

Lemma forest_length (base : nat) (m : memory) (addrs : list nat)
    (nodes : list Merkle.merkle_node_t) :
  forest base m addrs nodes -> length addrs = length nodes.
Proof. intros (_ & fps & Hall & _). eapply Forall3_length_lm, Hall. Qed.

(** The leaves, one allocation each, in the order of the hashes read. *)
Lemma construct_merkle_leaves_in_memory (hashes : list byte) (n : nat) (m : memory) :
  Z.of_nat n * HASH_SIZE <= Z.of_nat (length hashes) ->
  exists addrs ext,
    construct_merkle_leaves_from_hashes hashes (Z.of_nat n) m
    = Ret (Some <$> addrs, Z.of_nat n, m ++ ext) /\
    forest (length m) (m ++ ext) addrs (Merkle.leaf <$> Merkle.read_hashes hashes n).
Proof.
  intros Hlen. unfold construct_merkle_leaves_from_hashes, for_each_index.
  rewrite Nat2Z.id.
  set (body := fun (i : Z) (s : list (option nat) * memory) => _).
  destruct (for_loop_invariant (R := Empty_set)
              (fun j s =>
                 exists addrs ext,
                   s = (Some <$> addrs, m ++ ext) /\
                   forest (length m) (m ++ ext) addrs
                     (Merkle.leaf <$> Merkle.read_hashes hashes (Z.to_nat j)))
              n 0 body ([], m)) as (s & Hloop & addrs & ext & -> & Hf).
  - exists [], []. rewrite app_nil_r. split; [reflexivity|]. apply forest_empty.
  - intros j s Hj (addrs & ext & -> & Hf). subst body. cbn beta iota.
    pose proof (Merkle.slice_read_hash hashes n (Z.to_nat j)) as Hs.
    rewrite Z2Nat.id in Hs by lia. rewrite Hs by (lia || assumption).
    cbn [mbind outcome_bind malloc]. eexists. split; [reflexivity|].
    exists (addrs ++ [length (m ++ ext)]),
           (ext ++ [Some (node_object
                            (mk_node None None (Merkle.read_hash hashes (Z.to_nat j))))]).
    split; [now rewrite fmap_app, app_assoc|].
    replace (Z.to_nat (j + 1)) with (Datatypes.S (Z.to_nat j)) by lia.
    rewrite Merkle.read_hashes_S, fmap_app, app_assoc.
    now apply forest_leaf.
  - rewrite Hloop. cbn [mbind outcome_bind loop_state].
    exists addrs, ext. split; [reflexivity|].
    rewrite Z.add_0_l, Nat2Z.id in Hf. exact Hf.
Qed.

Lemma array_get_front (la : list nat) (tail : list (option nat)) (i : nat) (a : nat) :
  la !! i = Some a ->
  array_get ((Some <$> la) ++ tail) (Z.of_nat i) = Ret (Some a).
Proof.
  intros Ha. apply array_get_lookup, lookup_app_l_Some.
  now rewrite list_lookup_fmap, Ha.
Qed.

(** The pairing loop of [collapse_merkle_nodes]: after [k] iterations the
    first [2 * k] trees of the level have been put under [k] new parents. *)
Lemma pairing_loop_in_memory (base : nat) (m : memory) (la : list nat)
    (ln : list Merkle.merkle_node_t) (tail : list (option nat)) :
  forest base m la ln ->
  (1 <= length la)%nat ->
  Z.of_nat (length la) < 2 ^ 32 ->
  exists i k ta ext,
    while_loop (R := Empty_set) (Datatypes.S (length la))
      (fun '(i, _, _) => i <? to_uint32 (Z.of_nat (length la) - 1))
      (fun '(i, temp_nodes, m) =>
         l ← array_get ((Some <$> la) ++ tail) i;
         r ← array_get ((Some <$> la) ++ tail) (i + 1);
         '(node, m) ← construct_merkle_node crypto_hash_sha256d l r m;
         Ret (Continue (i + 2, temp_nodes ++ [node], m)))
      (0, [], m)
    = Ret (Continue (i, Some <$> ta, m ++ ext)) /\
    length ta = k /\ (length la - 1 <= 2 * k <= length la)%nat /\
    forest base (m ++ ext) (ta ++ drop (2 * k) la)
      (take k (pair_up ln) ++ drop (2 * k) ln).
Proof.
  intros Hf Hmin Hmax.
  pose proof (forest_length _ _ _ _ Hf) as Hlen.
  assert (Hu : to_uint32 (Z.of_nat (length la) - 1) = Z.of_nat (length la) - 1)
    by (apply Z.mod_small; lia).
  set (cond := fun s : Z * list (option nat) * memory => _).
  set (body := fun s : Z * list (option nat) * memory => _).
  destruct (while_loop_invariant (R := Empty_set)
              (fun s =>
                 exists k ta ext,
                   s = (Z.of_nat (2 * k), Some <$> ta, m ++ ext) /\
                   length ta = k /\ (2 * k <= length la)%nat /\
                   forest base (m ++ ext) (ta ++ drop (2 * k) la)
                     (take k (pair_up ln) ++ drop (2 * k) ln))
              (fun s => (length la - Z.to_nat (fst (fst s)))%nat)
              (Datatypes.S (length la)) cond body (0, [], m))
    as (s & Hloop & (k & ta & ext & -> & Hta & Hk & Hforest) & Hexit).
  - exists 0%nat, [], []. rewrite app_nil_r.
    split; [reflexivity|]. split; [reflexivity|]. split; [lia|].
    cbn [Nat.mul take app]. now rewrite !drop_0.
  - cbn [fst]. lia.
  - intros s (k & ta & ext & -> & Hta & Hk & Hforest) Hcond.
    subst cond body. cbn beta iota in Hcond |- *.
    rewrite Hu in Hcond. apply Z.ltb_lt in Hcond.
    destruct (lookup_lt_is_Some_2 la (2 * k)) as [l Hl]; [lia|].
    destruct (lookup_lt_is_Some_2 la (2 * k + 1)) as [r Hr]; [lia|].
    destruct (lookup_lt_is_Some_2 ln (2 * k)) as [tl Htl]; [lia|].
    destruct (lookup_lt_is_Some_2 ln (2 * k + 1)) as [tr Htr]; [lia|].
    rewrite (array_get_front la tail _ l Hl).
    replace (Z.of_nat (2 * k) + 1) with (Z.of_nat (2 * k + 1)) by lia.
    rewrite (array_get_front la tail _ r Hr).
    cbn [mbind outcome_bind].
    rewrite (drop_S _ _ _ Hl) in Hforest.
    replace (Datatypes.S (2 * k)) with (2 * k + 1)%nat in Hforest by lia.
    rewrite (drop_S _ _ _ Hr) in Hforest.
    rewrite (drop_S _ _ _ Htl) in Hforest.
    replace (Datatypes.S (2 * k)) with (2 * k + 1)%nat in Hforest by lia.
    rewrite (drop_S _ _ _ Htr) in Hforest.
    assert (Hpu : pair_up ln !! k = Some (parent tl tr))
      by (rewrite Merkle.pair_up_lookup, Htl, Htr; reflexivity).
    destruct (forest_pair _ _ _ _ _ _ _ _ _ _ Hforest) as (o & Hnode & Hforest').
    { rewrite length_take. apply lookup_lt_Some in Hpu. lia. }
    rewrite Hnode. cbn [mbind outcome_bind].
    eexists. split; [reflexivity|]. split.
    + exists (Datatypes.S k), (ta ++ [length (m ++ ext)]), (ext ++ [Some o]).
      split.
      { rewrite fmap_app, app_assoc. cbn [fmap list_fmap].
        repeat f_equal. lia. }
      split; [rewrite length_app; cbn [length]; lia|].
      split; [lia|].
      rewrite (take_S_r _ _ _ Hpu), <- !app_assoc. cbn [app].
      replace (2 * Datatypes.S k)%nat with (Datatypes.S (2 * k + 1)) by lia.
      rewrite app_assoc. exact Hforest'.
    + cbn [fst]. lia.
  - subst cond. cbn beta iota in Hexit. rewrite Hu in Hexit.
    apply Z.ltb_ge in Hexit.
    exists (Z.of_nat (2 * k)), k, ta, ext.
    split; [exact Hloop|]. split; [exact Hta|]. split; [lia | exact Hforest].
Qed.

(** The loop of [collapse_merkle_nodes] that copies [temp_nodes] back. *)
Lemma copy_back_in_memory (temp nodes : list (option nat)) :
  (length temp <= length nodes)%nat ->
  for_loop (R := Empty_set) (length temp) 0
    (fun i nodes' =>
       t ← array_get temp i;
       Ret (Continue (<[Z.to_nat i := t]> nodes')))
    nodes
  = Ret (Continue (temp ++ drop (length temp) nodes)).
Proof.
  intros Hlen.
  set (body := fun (i : Z) (nodes' : list (option nat)) => _).
  destruct (for_loop_invariant (R := Empty_set)
              (fun j arr => arr = take (Z.to_nat j) temp ++ drop (Z.to_nat j) nodes)
              (length temp) 0 body nodes) as (arr & Hloop & Harr).
  - cbn [Z.to_nat take app]. now rewrite drop_0.
  - intros j arr Hj ->. subst body. cbn beta.
    destruct (lookup_lt_is_Some_2 temp (Z.to_nat j)) as [t Ht]; [lia|].
    destruct (lookup_lt_is_Some_2 nodes (Z.to_nat j)) as [x Hx]; [lia|].
    pose proof (array_get_lookup temp _ t Ht) as Hg.
    rewrite Z2Nat.id in Hg by lia. rewrite Hg. cbn [mbind outcome_bind].
    eexists. split; [reflexivity|].
    rewrite insert_app_r_alt by (rewrite length_take; lia).
    rewrite length_take.
    replace (Z.to_nat j - Z.to_nat j `min` length temp)%nat with 0%nat by lia.
    rewrite (drop_S _ _ _ Hx). cbn [insert list_insert].
    replace (Z.to_nat (j + 1)) with (Datatypes.S (Z.to_nat j)) by lia.
    rewrite (take_S_r _ _ _ Ht), <- app_assoc. reflexivity.
  - rewrite Hloop, Harr, Z.add_0_l, Nat2Z.id, take_ge by lia. reflexivity.
Qed.

(** [collapse_merkle_nodes] on a level of trees at the front of the array:
    the parents are new allocations, the trees of the level become their
    children, and nothing that was in memory changes. *)
Lemma collapse_merkle_nodes_in_memory (base : nat) (m : memory) (la : list nat)
    (ln : list Merkle.merkle_node_t) (tail : list (option nat)) :
  forest base m la ln ->
  (1 <= length la)%nat ->
  Z.of_nat (length la) < 2 ^ 32 ->
  exists la' tail' ext,
    collapse_merkle_nodes crypto_hash_sha256d ((Some <$> la) ++ tail)
      (Z.of_nat (length la)) m
    = Ret ((Some <$> la') ++ tail', Z.of_nat (length la'), m ++ ext) /\
    forest base (m ++ ext) la' (pair_up ln) /\
    (2 * length la' = length la \/ 2 * length la' = length la + 1)%nat.
Proof.
  intros Hf Hmin Hmax.
  pose proof (forest_length _ _ _ _ Hf) as Hlen.
  unfold collapse_merkle_nodes. rewrite Nat2Z.id.
  destruct (pairing_loop_in_memory base m la ln tail Hf Hmin Hmax)
    as (i & k & ta & ext & Hloop & Hta & Hk & Hforest).
  rewrite Hloop. cbn [mbind outcome_bind loop_state].
  rewrite Merkle.odd_count.
  assert (Hstep : exists (ta' : list nat) (ext' : memory),
            (if Nat.odd (length la)
             then last ← array_get ((Some <$> la) ++ tail) (Z.of_nat (length la) - 1);
                  '(node, m0) ← construct_merkle_node crypto_hash_sha256d last last
                                   (m ++ ext);
                  Ret ((Some <$> ta) ++ [node], m0)
             else Ret (Some <$> ta, m ++ ext))
            = Ret (Some <$> ta', m ++ ext') /\
            forest base (m ++ ext') ta' (pair_up ln) /\
            (2 * length ta' = length la \/ 2 * length ta' = length la + 1)%nat).
  { destruct (Nat.odd (length la)) eqn:Hodd.
    - apply Nat.odd_spec in Hodd as [half Hhalf].
      assert (Hk' : (2 * k = length la - 1)%nat) by lia.
      destruct (lookup_lt_is_Some_2 la (2 * k)) as [l Hl]; [lia|].
      destruct (lookup_lt_is_Some_2 ln (2 * k)) as [tl Htl]; [lia|].
      replace (Z.of_nat (length la) - 1) with (Z.of_nat (2 * k)) by lia.
      rewrite (array_get_front la tail _ l Hl). cbn [mbind outcome_bind].
      rewrite (drop_S _ _ _ Hl), (drop_S _ _ _ Htl) in Hforest.
      rewrite !drop_ge in Hforest by lia.
      assert (Hpu : pair_up ln !! k = Some (parent tl tl)).
      { rewrite Merkle.pair_up_lookup, Htl.
        rewrite (proj2 (lookup_ge_None ln (2 * k + 1))) by lia. reflexivity. }
      destruct (forest_twin _ _ _ _ _ _ Hforest) as (o & Hnode & Hforest').
      { rewrite length_take. apply lookup_lt_Some in Hpu. lia. }
      rewrite Hnode. cbn [mbind outcome_bind].
      exists (ta ++ [length (m ++ ext)]), (ext ++ [Some o]).
      split; [now rewrite fmap_app, app_assoc|]. split.
      + rewrite <- (take_S_r _ _ _ Hpu), take_ge in Hforest'.
        * now rewrite app_assoc.
        * rewrite Merkle.length_pair_up.
          pose proof (Nat.div_mod_eq (length ln + 1) 2).
          pose proof (Nat.mod_upper_bound (length ln + 1) 2). lia.
      + rewrite length_app. cbn [length]. lia.
    - rewrite <- Nat.negb_even in Hodd.
      apply negb_false_iff, Nat.even_spec in Hodd as [half Hhalf].
      assert (Hk' : (2 * k = length la)%nat) by lia.
      exists ta, ext. split; [reflexivity|]. split; [|lia].
      rewrite !drop_ge, !app_nil_r in Hforest by lia.
      rewrite take_ge in Hforest; [exact Hforest|].
      rewrite Merkle.length_pair_up.
      pose proof (Nat.div_mod_eq (length ln + 1) 2).
      pose proof (Nat.mod_upper_bound (length ln + 1) 2). lia. }
  destruct Hstep as (ta' & ext' & Hstep & Hforest' & Hhalf).
  rewrite Hstep. cbn [mbind outcome_bind]. unfold for_each_index.
  rewrite Nat2Z.id, copy_back_in_memory
    by (rewrite length_app, !length_fmap; lia).
  cbn [mbind outcome_bind loop_state].
  exists ta', (drop (length (Some <$> ta')) ((Some <$> la) ++ tail)), ext'.
  split; [now rewrite length_fmap|]. split; [exact Hforest' | exact Hhalf].
Qed.

Lemma collapse_levels_one (f : nat) (t : Merkle.merkle_node_t) :
  Merkle.collapse_levels crypto_hash_sha256d f [t] = [t].
Proof. destruct f; reflexivity. Qed.

(** [construct_merkle_tree_from_leaves] in memory: the tree structure is
    the first new allocation, every allocation behind it is a node of the
    tree the root pointer leads to, which is the tree over the hashes the
    leaves read, and the memory there was is unchanged. *)
Lemma construct_in_memory (hashes : list byte) (n : nat) (m0 : memory) :
  (1 <= n)%nat ->
  Z.of_nat n < 2 ^ 32 ->
  Z.of_nat n * HASH_SIZE <= Z.of_nat (length hashes) ->
  exists t root ext fp,
    Merkle.merkle_root_node crypto_hash_sha256d (Merkle.read_hashes hashes n) = Some t /\
    construct_merkle_tree_from_leaves crypto_hash_sha256d hashes (Z.of_nat n) m0
    = Ret (Some (length m0), m0 ++ Some (tree_object (Some root)) :: ext) /\
    tree_at (m0 ++ Some (tree_object (Some root)) :: ext) root t fp /\
    (forall q, q ∈ fp <-> (length m0 < q < length m0 + 1 + length ext)%nat).
Proof.
  intros Hmin Hmax Hbytes. unfold construct_merkle_tree_from_leaves.
  destruct (Z.ltb_spec (Z.of_nat n) 1) as [?|_]; [lia|].
  cbn [malloc].
  set (m := m0 ++ [Some (tree_object None)]).
  destruct (construct_merkle_leaves_in_memory hashes n m Hbytes)
    as (addrs & ext1 & Hleaves & Hforest1).
  rewrite Hleaves. cbn [mbind outcome_bind]. rewrite Nat2Z.id.
  set (txids := Merkle.read_hashes hashes n) in *.
  assert (Hn : length txids = n) by apply Merkle.length_read_hashes.
  pose proof (forest_length _ _ _ _ Hforest1) as Haddrs.
  rewrite length_fmap, Hn in Haddrs.
  set (final := Merkle.collapse_levels crypto_hash_sha256d n
                  (Merkle.leaf <$> txids)).
  set (cond := fun s : list (option nat) * Z * memory => _).
  set (body := fun s : list (option nat) * Z * memory => _).
  destruct (while_loop_invariant (R := Empty_set)
              (fun s =>
                 exists la ln tail ext f,
                   s = ((Some <$> la) ++ tail, Z.of_nat (length la), m ++ ext) /\
                   (1 <= length la <= n)%nat /\
                   forest (length m) (m ++ ext) la ln /\
                   (length ln <= Datatypes.S f)%nat /\
                   Merkle.collapse_levels crypto_hash_sha256d f ln = final)
              (fun s => Z.to_nat (snd (fst s)))
              (Datatypes.S n) cond body
              (Some <$> addrs, Z.of_nat n, m ++ ext1))
    as (s & Hloop & (la & ln & tail & ext & f & -> & Hla & Hforest & Hf & Hfinal) & Hexit).
  - exists addrs, (Merkle.leaf <$> txids), [], ext1, n.
    rewrite app_nil_r, Haddrs, length_fmap, Hn.
    split; [reflexivity|]. split; [lia|]. split; [exact Hforest1|].
    split; [lia | reflexivity].
  - cbn [fst snd]. lia.
  - intros s (la & ln & tail & ext & f & -> & Hla & Hforest & Hf & Hfinal) Hcond.
    subst cond body. cbn beta iota in Hcond |- *. apply Z.ltb_lt in Hcond.
    pose proof (forest_length _ _ _ _ Hforest) as Hlen.
    destruct (collapse_merkle_nodes_in_memory _ _ _ _ tail Hforest)
      as (la' & tail' & ext' & Hrun & Hforest' & Hhalf); [lia..|].
    rewrite Hrun. cbn [mbind outcome_bind].
    eexists. split; [reflexivity|].
    pose proof (forest_length _ _ _ _ Hforest') as Hlen'.
    split; [|cbn [fst snd]; lia].
    destruct f as [|f']; [lia|].
    exists la', (pair_up ln), tail', (ext ++ ext'), f'.
    split; [now rewrite app_assoc|]. split; [lia|].
    split; [now rewrite app_assoc|]. split; [lia|].
    rewrite <- Hfinal. cbn [Merkle.collapse_levels].
    destruct (Nat.ltb_spec 1 (length ln)); [reflexivity | lia].
  - subst cond. cbn beta iota in Hexit. apply Z.ltb_ge in Hexit.
    rewrite Hloop. cbn [mbind outcome_bind loop_state].
    pose proof (forest_length _ _ _ _ Hforest) as Hlen.
    destruct la as [|root [|? ?]]; cbn [length] in Hla, Hexit; [lia| |lia].
    destruct ln as [|t [|? ?]]; cbn [length] in Hlen; [lia| |lia].
    rewrite collapse_levels_one in Hfinal.
    pose proof (array_get_front [root] tail 0 root eq_refl) as Hget.
    change (Z.of_nat 0) with 0 in Hget. rewrite Hget.
    cbn [mbind outcome_bind].
    destruct Hforest as (Hbase & fps & Hall & Hnd & Hcover).
    apply Forall3_cons_inv_l in Hall as (? & ? & fp & fps' & [= <- <-] & -> & Ht & Hnil).
    inversion Hnil; subst fps'. cbn [concat] in Hcover.
    assert (Hm : length m = Datatypes.S (length m0))
      by (unfold m; rewrite length_app; cbn [length]; lia).
    assert (Htree : (m ++ ext) !! length m0 = Some (Some (tree_object None))).
    { unfold m. rewrite <- app_assoc, lookup_app_r, Nat.sub_diag by lia. reflexivity. }
    unfold store_tree. rewrite Htree. cbn [mbind outcome_bind].
    assert (Hstore : <[length m0 := Some (tree_object (Some root))]> (m ++ ext)
                     = m0 ++ Some (tree_object (Some root)) :: ext).
    { unfold m. rewrite <- app_assoc, insert_app_r_alt, Nat.sub_diag by lia.
      reflexivity. }
    rewrite Hstore.
    exists t, root, ext, fp.
    split; [unfold Merkle.merkle_root_node; rewrite Hn; fold final; now rewrite <- Hfinal|].
    split; [reflexivity|]. split.
    + apply (tree_at_frame (m ++ ext)); [exact Ht|].
      intros q Hq. rewrite <- Hstore.
      apply list_lookup_insert_ne.
      assert (Hq' : q ∈ fp ++ []) by now rewrite app_nil_r.
      apply Hcover in Hq'. lia.
    + intros q. rewrite app_nil_r in Hcover. rewrite Hcover, length_app, Hm. lia.
Qed.

(** X20: [construct_merkle_tree_from_leaves], run on pointers in any memory
    over [n] hashes of 32 bytes, [1 <= n < 2^32], returns a tree structure
    at a new address whose root pointer leads to the tree that the
    value-level model of the function returns (both read leaf [i] at the
    [uint32_t] offset [i * HASH_SIZE]): same shape, same hash at every
    node. The nodes are live, at addresses of their own (a parent of an odd
    last node points to it twice), every allocation made behind the tree
    structure is one of them, and the memory that was there is unchanged.
    Up to [2^27] hashes, where no offset wraps, it is the tree of the
    level-by-level description over the txids. *)
Theorem construct_merkle_tree_in_memory (txids : list (list byte)) (m0 : memory) :
  Forall hash_wf txids ->
  (1 <= length txids)%nat ->
  Z.of_nat (length txids) < 2 ^ 32 ->
  exists t root ext fp,
    Merkle.construct_merkle_tree_from_leaves crypto_hash_sha256d (concat txids)
      (Z.of_nat (length txids))
    = Ret (Some (Merkle.mk_tree t)) /\
    construct_merkle_tree_from_leaves crypto_hash_sha256d (concat txids)
      (Z.of_nat (length txids)) m0
    = Ret (Some (length m0), m0 ++ Some (tree_object (Some root)) :: ext) /\
    tree_at (m0 ++ Some (tree_object (Some root)) :: ext) root t fp /\
    (forall q, q ∈ fp <-> (length m0 < q < length m0 + 1 + length ext)%nat) /\
    (exists node,
       load_node root (m0 ++ Some (tree_object (Some root)) :: ext) = Ret node /\
       hash node = Merkle.hash t) /\
    (Z.of_nat (length txids) <= 2 ^ 27 ->
     Merkle.merkle_root_node crypto_hash_sha256d txids = Some t).
Proof.
  intros Hwf Hmin Hmax.
  assert (Hbytes : Z.of_nat (length txids) * HASH_SIZE
                   <= Z.of_nat (length (concat txids)))
    by (rewrite Merkle.length_concat_wf by assumption; lia).
  destruct (construct_in_memory (concat txids) (length txids) m0 Hmin Hmax Hbytes)
    as (t & root & ext & fp & Hroot & Hrun & Htree & Hcover).
  destruct (Merkle.construct_merkle_tree_reads crypto_hash_sha256d (concat txids)
              (length txids) Hmin Hmax Hbytes)
    as (t' & Hroot' & Hvalue).
  rewrite Hroot in Hroot'. injection Hroot' as <-.
  exists t, root, ext, fp.
  split; [exact Hvalue|]. split; [exact Hrun|]. split; [exact Htree|].
  split; [exact Hcover|]. split.
  - destruct (tree_at_node _ _ _ _ Htree) as (node & Hnode & Hhash).
    exists node. split; [now apply load_node_live | exact Hhash].
  - intros Hsmall. now rewrite Merkle.read_hashes_txids in Hroot by assumption.
Qed.

Lemma NoDup_length_range (fp : list nat) (lo n : nat) :
  NoDup fp -> (forall q, q ∈ fp -> (lo <= q < lo + n)%nat) -> (length fp <= n)%nat.
Proof.
  intros Hnd Hrange.
  rewrite <- (length_seq n lo). apply submseteq_length, NoDup_submseteq; [exact Hnd|].
  intros q Hq. apply elem_of_seq. apply Hrange in Hq. lia.
Qed.

(** X22: [free_merkle_tree] on the tree [construct_merkle_tree_from_leaves] has
    built frees the tree structure and every node, each once: it returns,
    no access goes through a freed pointer, no allocation made by the
    construction is live afterwards, and the memory that was there before
    the construction is unchanged. *)
Theorem free_merkle_tree_after_construct (txids : list (list byte)) (m0 : memory) :
  Forall hash_wf txids ->
  (1 <= length txids)%nat ->
  Z.of_nat (length txids) < 2 ^ 32 ->
  exists tree m1,
    construct_merkle_tree_from_leaves crypto_hash_sha256d (concat txids)
      (Z.of_nat (length txids)) m0
    = Ret (Some tree, m1) /\
    (length m0 < length m1)%nat /\
    forall fuel, (length m1 - length m0 <= fuel)%nat ->
      free_merkle_tree fuel (Some tree) m1
      = Ret (m0 ++ replicate (length m1 - length m0) None).
Proof.
  intros Hwf Hmin Hmax.
  assert (Hbytes : Z.of_nat (length txids) * HASH_SIZE
                   <= Z.of_nat (length (concat txids)))
    by (rewrite Merkle.length_concat_wf by assumption; lia).
  destruct (construct_in_memory (concat txids) (length txids) m0 Hmin Hmax Hbytes)
    as (t & root & ext & fp & _ & Hrun & Htree & Hcover).
  set (m1 := m0 ++ Some (tree_object (Some root)) :: ext) in *.
  assert (Hm1 : length m1 = (length m0 + 1 + length ext)%nat)
    by (unfold m1; rewrite length_app; cbn [length]; lia).
  exists (length m0), m1. split; [exact Hrun|]. split; [lia|].
  intros fuel Hfuel.
  assert (Htree_object : m1 !! length m0 = Some (Some (tree_object (Some root))))
    by (unfold m1; rewrite lookup_app_r, Nat.sub_diag by lia; reflexivity).
  unfold free_merkle_tree, load_tree. rewrite Htree_object.
  cbn [mbind outcome_bind].
  destruct (free_merkle_node_tree fuel m1 root t fp Htree) as (m2 & Hfree & Hlen2 & Hm2).
  { pose proof (NoDup_length_range fp (Datatypes.S (length m0)) (length ext)
                  (tree_at_NoDup _ _ _ _ Htree)) as Hbound.
    etransitivity; [apply Hbound|lia].
    intros q Hq. apply Hcover in Hq. lia. }
  rewrite Hfree. cbn [mbind outcome_bind].
  assert (Hnot : length m0 ∉ fp) by (intros Hq; apply Hcover in Hq; lia).
  assert (Htree2 : m2 !! length m0 = Some (Some (tree_object (Some root)))).
  { rewrite Hm2. now rewrite decide_False by exact Hnot. }
  rewrite (free_live _ _ _ Htree2). f_equal.
  apply list_eq. intros i.
  destruct (decide (i = length m0)) as [->|Hne].
  { rewrite (lookup_insert_live _ _ _ _ Htree2).
    rewrite lookup_app_r, Nat.sub_diag by lia.
    symmetry. apply lookup_replicate_2. lia. }
  rewrite list_lookup_insert_ne by congruence. rewrite Hm2.
  destruct (decide (i ∈ fp)) as [Hin|Hout].
  - apply Hcover in Hin. rewrite lookup_app_r by lia.
    symmetry. apply lookup_replicate_2. lia.
  - destruct (decide (i < length m0)%nat) as [Hlt|Hge].
    + unfold m1. now rewrite !lookup_app_l by lia.
    + assert (Hout' : (length m1 <= i)%nat).
      { destruct (decide (i < length m1)%nat) as [Hlt|]; [|lia].
        destruct Hout. apply Hcover. lia. }
      rewrite (proj2 (lookup_ge_None m1 i)) by lia.
      symmetry. apply lookup_ge_None. rewrite length_app, length_replicate. lia.
Qed.

End Construction.

(** X21: [free_merkle_node] on a pointer to a tree whose nodes are live, each at
    an address of its own, returns once the recursion may go as deep as the
    tree has nodes: it has freed every node of the tree, has touched no
    other allocation, and a second call on the same pointer reads freed
    memory. *)
Theorem free_merkle_node_frees_every_node_once (fuel : nat) (m : memory) (p : nat)
    (t : Merkle.merkle_node_t) (fp : list nat) :
  tree_at m p t fp ->
  (length fp <= fuel)%nat ->
  exists m',
    free_merkle_node fuel (Some p) m = Ret m' /\
    length m' = length m /\
    (forall q, q ∈ fp -> m' !! q = Some None) /\
    (forall q, q ∉ fp -> m' !! q = m !! q) /\
    free_merkle_node (Datatypes.S fuel) (Some p) m' = Crash out_of_bounds.
Proof.
  intros Htree Hfuel.
  destruct (free_merkle_node_tree fuel m p t fp Htree Hfuel) as (m' & Hfree & Hlen & Hm').
  exists m'. split; [exact Hfree|]. split; [exact Hlen|].
  assert (Hin : forall q, q ∈ fp -> m' !! q = Some None).
  { intros q Hq. rewrite Hm'. now rewrite decide_True by exact Hq. }
  split; [exact Hin|]. split.
  - intros q Hq. rewrite Hm'. now rewrite decide_False by exact Hq.
  - cbn [free_merkle_node]. unfold load_node.
    rewrite (Hin p (tree_at_root _ _ _ _ Htree)). reflexivity.
Qed.

End MerkleMemory.
(** ** core/block.c *)

Module Block.

Import Transaction.

(** [block_t] (block.h is not under src/; the fields are the ones block.c
    reads and writes, with the widths the spec's data model gives them). *)
Record block_t : Type := mk_block {
  version : Z;
  previous_hash : list byte;
  hash : list byte;
  timestamp : Z;
  nonce : Z;
  bits : Z;
  cumulative_emission : Z;
  merkle_root : list byte;
  transaction_count : Z;
  transactions : option (list (option transaction_t))
}.

Definition set_hash (h : list byte) (b : block_t) : block_t :=
  mk_block (version b) (previous_hash b) h (timestamp b) (nonce b) (bits b)
    (cumulative_emission b) (merkle_root b) (transaction_count b) (transactions b).

Definition set_transactions (count : Z)
    (txs : option (list (option transaction_t))) (b : block_t) : block_t :=
  mk_block (version b) (previous_hash b) (hash b) (timestamp b) (nonce b) (bits b)
    (cumulative_emission b) (merkle_root b) count txs.

(** The value of a C condition. *)
Definition truth (z : Z) : bool := negb (z =? 0).
Definition of_bool (c : bool) : Z := if c then 1 else 0.

(** [block->transactions[i]] *)
Definition block_tx (block : block_t) (i : Z) : outcome (option transaction_t) :=
  ptr_array_get (transactions block) i.

(** [tx->txins[i]] *)
Definition tx_txin (tx : transaction_t) (i : Z) : outcome (option input_transaction_t) :=
  array_get (txins tx) i.

Section Params.

(** Consensus parameters of parameters.h, which is not under src/. *)
Variable BLOCK_VERSION : Z.
Variable MAX_FUTURE_BLOCK_TIME : Z.
Variable MAX_BLOCK_SIZE : Z.

(** What the allocation behind the fresh buffer of [compute_block_hash]
    holds: the code does not initialise it, and every call has an
    allocation of its own. One value stands for it inside this section;
    the statements that compare the hashes two calls produce are made after
    the section, with a value for each call. *)
Variable heap_bytes : list byte.

(** crypto/sha256d.h, libsodium and pow.h. *)
Variable crypto_hash_sha256d : list byte -> list byte.
Variable crypto_sign_verify_detached : list byte -> list byte -> list byte -> Z.
Variable check_proof_of_work : list byte -> Z -> Z.

(** Functions of transaction.c that block.c calls and the spec does not
    describe: [get_tx_header_size], [validate_tx_signatures],
    [compare_transaction], and [copy_transaction], which is handed the
    source transaction and the VALUE of the receiving pointer. *)
Variable get_tx_header_size : transaction_t -> Z.
Variable validate_tx_signatures : transaction_t -> Z.
Variable compare_transaction : transaction_t -> transaction_t -> Z.
Variable copy_transaction : transaction_t -> option transaction_t -> outcome Z.

Local Abbreviation compute_tx_id := (Transaction.compute_tx_id crypto_hash_sha256d).
Local Abbreviation valid_transaction :=
  (Transaction.valid_transaction crypto_hash_sha256d crypto_sign_verify_detached).

(** Allocates a block for usage. *)
Definition make_block : block_t :=
  mk_block BLOCK_VERSION (replicate (Z.to_nat HASH_SIZE) x00)
    (replicate (Z.to_nat HASH_SIZE) x00) 0 0 0 0
    (replicate (Z.to_nat HASH_SIZE) x00) 0 None.

(** [get_current_time()] (common/util.h, not under src/) is the argument
    [now]; the block timestamp is a [uint32_t] of unix seconds and the sum
    is taken in that type. *)
Definition valid_block_timestamp (now : Z) (block : block_t) : Z :=
  of_bool (timestamp block <=? to_uint32 (now + MAX_FUTURE_BLOCK_TIME)).

Definition serialize_block_header (block : block_t) : Buffer.writer :=
  fun buffer =>
    let '(rc, buffer) :=
      (Buffer.buffer_write_uint32 (version block) |||
       Buffer.buffer_write_uint32 (timestamp block) |||
       Buffer.buffer_write_uint32 (nonce block) |||
       Buffer.buffer_write_uint32 (bits block) |||
       Buffer.buffer_write_uint64 (cumulative_emission block) |||
       Buffer.buffer_write (previous_hash block) HASH_SIZE |||
       Buffer.buffer_write (merkle_root block) HASH_SIZE) buffer in
    if truth rc then (1, buffer) else (0, buffer).

(** [None] when it returns 1; otherwise the 32 bytes stored through [hash]. *)
Definition compute_block_hash (block : block_t) : option (list byte) :=
  let buffer := Buffer.buffer_init_size 0 BLOCK_HEADER_SIZE heap_bytes in
  let '(rc, buffer) := serialize_block_header block buffer in
  if truth rc then None
  else
    let header := Buffer.buffer_bytes buffer BLOCK_HEADER_SIZE in
    Some (crypto_hash_sha256d header).

Definition get_block_header_size (block : block_t) : outcome Z :=
  c ← for_each_index (R := Empty_set) (transaction_count block)
        (fun i block_header_size =>
           tx ← block_tx block i;
           match tx with
           | None => Crash assertion_failed
           | Some tx =>
               Ret (Continue (to_uint32 (block_header_size + get_tx_header_size tx)))
           end)
        BLOCK_HEADER_SIZE;
  Ret (loop_state c).

(** [None] when it returns 1; otherwise the root stored through
    [merkle_root]. The [i]-th id is written at [&hashes[HASH_SIZE * i]], so
    the buffer of ids grows at its end. [HASH_SIZE * transaction_count], the
    size of the buffer, and [HASH_SIZE * i] are products of [uint32_t]: the
    list of ids is the buffer for a block of fewer than [2^27] transactions,
    where neither product wraps, and the statements about the ids written
    are made for such blocks. *)
Definition compute_merkle_root (block : block_t) : outcome (option (list byte)) :=
  c ← for_each_index (transaction_count block)
        (fun i hashes =>
           tx ← block_tx block i;
           match tx with
           | None => Crash assertion_failed
           | Some tx =>
               match compute_tx_id tx with
               | None => Ret (Return (@None (list byte)))
               | Some h => Ret (Continue (hashes ++ h))
               end
           end)
        [];
  match c with
  | Return r => Ret r
  | Continue hashes =>
      tree ← Merkle.construct_merkle_tree_from_leaves crypto_hash_sha256d
               hashes (transaction_count block);
      match tree with
      | None => Crash assertion_failed
      | Some tree => Ret (Some (Merkle.hash (Merkle.root tree)))
      end
  end.

Definition valid_merkle_root (block : block_t) : outcome Z :=
  r ← compute_merkle_root block;
  match r with
  | None => Ret 0
  | Some merkle_root' => Ret (compare_hash merkle_root' (merkle_root block))
  end.

Definition valid_block_hash (block : block_t) : Z :=
  match compute_block_hash block with
  | None => 0
  | Some expected_block_hash =>
      of_bool (truth (compare_hash expected_block_hash (hash block))
               && truth (check_proof_of_work (hash block) (bits block)))
  end.


(** The innermost loop of [valid_block]: [txin_first] against every input
    of [second_tx]. *)
Definition valid_block_txin_loop (txin_first : input_transaction_t)
    (second_tx : transaction_t) : outcome (ctl unit Z) :=
  for_each_index (txin_count second_tx)
    (fun second_txin_index (_ : unit) =>
       txin_second ← tx_txin second_tx second_txin_index;
       match txin_second with
       | None => Ret (Return 0)
       | Some txin_second =>
           if truth (compare_hash (transaction txin_first) (transaction txin_second))
              && (txout_index txin_first =? txout_index txin_second)
           then Ret (Return 0)
           else Ret (Continue tt)
       end)
    tt.

(** The loop over [second_tx_index] of [valid_block]. *)
Definition valid_block_second_loop (block : block_t) (first_tx_index : Z)
    (first_tx : transaction_t) : outcome (ctl unit Z) :=
  for_each_index (transaction_count block)
    (fun second_tx_index (_ : unit) =>
       second_tx ← block_tx block second_tx_index;
       match second_tx with
       | None => Ret (Return 0)
       | Some second_tx =>
           if first_tx_index =? second_tx_index then Ret (Continue tt)
           else if truth (compare_hash (id first_tx) (id second_tx)) then Ret (Return 0)
           else
             for_each_index (txin_count first_tx)
               (fun first_txin_index (_ : unit) =>
                  txin_first ← tx_txin first_tx first_txin_index;
                  match txin_first with
                  | None => Ret (Return 0)
                  | Some txin_first => valid_block_txin_loop txin_first second_tx
                  end)
               tt
       end)
    tt.

(** The loop over [first_tx_index] of [valid_block]. *)
Definition valid_block_first_loop (block : block_t) : outcome (ctl unit Z) :=
  for_each_index (transaction_count block)
    (fun first_tx_index (_ : unit) =>
       first_tx ← block_tx block first_tx_index;
       match first_tx with
       | None => Ret (Return 0)
       | Some first_tx =>
           if valid_transaction first_tx =? 0 then Ret (Return 0)
           else if negb (first_tx_index =? 0) && truth (is_coinbase_tx first_tx)
           then Ret (Return 0)
           else valid_block_second_loop block first_tx_index first_tx
       end)
    tt.

(** Returns 0 if invalid, 1 if valid. *)
Definition valid_block (now : Z) (block : block_t) : outcome Z :=
  if valid_block_timestamp now block =? 0 then Ret 0
  else if transaction_count block <? 1 then Ret 0
  else
    coinbase_tx ← block_tx block 0;
    match coinbase_tx with
    | None => Ret 0
    | Some coinbase_tx =>
        if is_coinbase_tx coinbase_tx =? 0 then Ret 0
        else
          c ← valid_block_first_loop block;
          match c with
          | Return r => Ret r
          | Continue _ =>
              block_header_size ← get_block_header_size block;
              if MAX_BLOCK_SIZE <? block_header_size then Ret 0
              else if valid_block_hash block =? 0 then Ret 0
              else
                merkle_ok ← valid_merkle_root block;
                if merkle_ok =? 0 then Ret 0 else Ret 1
          end
    end.

Definition compare_block (block other_block : block_t) : outcome Z :=
  let result :=
    (version block =? version other_block)
    && truth (compare_hash (previous_hash block) (previous_hash other_block))
    && truth (compare_hash (hash block) (hash other_block))
    && (timestamp block =? timestamp other_block)
    && (nonce block =? nonce other_block)
    && (bits block =? bits other_block)
    && (cumulative_emission block =? cumulative_emission other_block)
    && truth (compare_hash (merkle_root block) (merkle_root other_block))
    && (transaction_count block =? transaction_count other_block) in
  if negb result then Ret 0
  else
    c ← for_each_index (transaction_count block)
          (fun tx_index (_ : unit) =>
             transaction ← block_tx block tx_index;
             match transaction with
             | None => Crash assertion_failed
             | Some transaction =>
                 other_transaction ← block_tx other_block tx_index;
                 match other_transaction with
                 | None => Crash assertion_failed
                 | Some other_transaction =>
                     if compare_transaction transaction other_transaction =? 0
                     then Ret (Return 0)
                     else Ret (Continue tt)
                 end
             end)
          tt;
    match c with
    | Return r => Ret r
    | Continue _ => Ret 1
    end.

(** [get_genesis_block()] returns the process-wide genesis block (genesis.h,
    not under src/): it is the argument [genesis_block]. The result is the
    block and the genesis block as the call leaves them, and what it
    returns. The two pointers are taken to be distinct objects. *)
Definition compare_with_genesis_block (block genesis_block : block_t)
    : block_t * block_t * outcome Z :=
  match compute_block_hash block with
  | None => (block, genesis_block, Ret 0)
  | Some h =>
      let block := set_hash h block in
      match compute_block_hash genesis_block with
      | None => (block, genesis_block, Ret 0)
      | Some g =>
          let genesis_block := set_hash g genesis_block in
          (block, genesis_block, compare_block block genesis_block)
      end
  end.

Definition serialize_block (block : block_t) : Buffer.writer :=
  fun buffer =>
    let '(rc, buffer) :=
      (Buffer.buffer_write_uint32 (version block) |||
       Buffer.buffer_write_bytes32 (previous_hash block) HASH_SIZE |||
       Buffer.buffer_write_bytes32 (hash block) HASH_SIZE |||
       Buffer.buffer_write_uint32 (timestamp block) |||
       Buffer.buffer_write_uint32 (nonce block) |||
       Buffer.buffer_write_uint32 (bits block) |||
       Buffer.buffer_write_uint64 (cumulative_emission block) |||
       Buffer.buffer_write_bytes32 (merkle_root block) HASH_SIZE |||
       Buffer.buffer_write_uint32 (transaction_count block)) buffer in
    if truth rc then (1, buffer) else (0, buffer).

(** [memcpy(dst, src, HASH_SIZE)] out of a byte array just read. The
    arrays the statements below read hold [HASH_SIZE] bytes; on a shorter
    one the code copies bytes from behind the array, which the definition
    leaves out. *)
Definition memcpy_hash (src : list byte) : list byte :=
  take (Z.to_nat HASH_SIZE) src.

(** Each failed read jumps to [deserialize_fail], which frees the block and
    returns 1 ([None]); on success the block is stored through [block_out].
    The fields are read into the block [make_block] returns, whose
    transaction array stays NULL. *)
Definition deserialize_block : Buffer.reader block_t :=
  let block := make_block in
  version' ← Buffer.buffer_read_uint32;
  previous_hash' ← Buffer.buffer_read_bytes32;
  hash' ← Buffer.buffer_read_bytes32;
  timestamp' ← Buffer.buffer_read_uint32;
  nonce' ← Buffer.buffer_read_uint32;
  bits' ← Buffer.buffer_read_uint32;
  cumulative_emission' ← Buffer.buffer_read_uint64;
  merkle_root' ← Buffer.buffer_read_bytes32;
  transaction_count' ← Buffer.buffer_read_uint32;
  mret (mk_block version' (memcpy_hash previous_hash') (memcpy_hash hash')
          timestamp' nonce' bits' cumulative_emission' (memcpy_hash merkle_root')
          transaction_count' (transactions block)).

(** [None] when it returns 1; otherwise [( *data, *data_len )]. *)
Definition block_to_serialized (block : block_t) : option (list byte * Z) :=
  let buffer := Buffer.buffer_init in
  let '(rc, buffer) := serialize_block block buffer in
  if truth rc then None
  else
    let data_len := Buffer.buffer_get_size buffer in
    Some (Buffer.buffer_bytes buffer data_len, data_len).

(** [None] is the NULL it returns when deserialization fails. *)
Definition block_from_serialized (data : list byte) (data_len : Z) : option block_t :=
  let buffer := Buffer.buffer_init_data 0 data data_len in
  let buffer_iterator := Buffer.buffer_iterator_init buffer in
  match deserialize_block buffer_iterator with
  | None => None
  | Some (block, _) => Some block
  end.

(** [free_transaction] releases memory only; the block is left with no
    transactions. *)
Definition free_block_transactions (block : block_t) : outcome block_t :=
  if (0 <? transaction_count block) && bool_decide (is_Some (transactions block))
  then
    _ ← for_each_index (R := Empty_set) (transaction_count block)
          (fun i (_ : unit) =>
             tx ← block_tx block i;
             match tx with
             | None => Crash assertion_failed
             | Some _ => Ret (Continue tt)
             end)
          tt;
    Ret (set_transactions 0 None block)
  else Ret block.

(** [realloc(p, sizeof(transaction_t) * count)]: the array at its new size,
    new slots NULL. *)
Definition realloc_transactions (p : option (list (option transaction_t)))
    (count : Z) : list (option transaction_t) :=
  resize (Z.to_nat count) None (default [] p).

(** The result is what it returns and [other_block] as it leaves it. The
    local [other_tx] is NULL when [copy_transaction] is called and is passed
    by value, so it is still NULL when the call returns. *)
Definition copy_block_transactions (block other_block : block_t)
    : outcome (Z * block_t) :=
  other_block ← free_block_transactions other_block;
  if (0 <? transaction_count block) && bool_decide (is_Some (transactions block))
  then
    c ← for_each_index (transaction_count block)
          (fun i other_block =>
             tx ← block_tx block i;
             match tx with
             | None => Crash assertion_failed
             | Some tx =>
                 let other_tx : option transaction_t := None in
                 rc ← copy_transaction tx other_tx;
                 if truth rc then Ret (Return (1, other_block))
                 else
                   match other_tx with
                   | None => Crash assertion_failed
                   | Some _ =>
                       let count := transaction_count other_block + 1 in
                       let arr := realloc_transactions (transactions other_block)
                                    (transaction_count block) in
                       Ret (Continue (set_transactions (to_uint32 count)
                                        (Some (<[Z.to_nat i := other_tx]> arr))
                                        other_block))
                   end
             end)
          other_block;
    match c with
    | Return r => Ret r
    | Continue other_block => Ret (0, other_block)
    end
  else Ret (0, other_block).

(** The assignments and [memcpy]s at the head of [copy_block]. *)
Definition copy_block_fields (block other_block : block_t) : block_t :=
  mk_block (version block) (previous_hash block) (hash block) (timestamp block)
    (nonce block) (bits block) (cumulative_emission block) (merkle_root block)
    (transaction_count block) (transactions other_block).

Definition copy_block (block other_block : block_t) : outcome (Z * block_t) :=
  let other_block := copy_block_fields block other_block in
  '(rc, other_block) ← copy_block_transactions block other_block;
  if truth rc then Ret (1, other_block)
  else
    same ← compare_block block other_block;
    if same =? 0 then Ret (1, other_block) else Ret (0, other_block).

(** *** Properties of the block code *)

(** The header preimage as the spec lays it out: [version (u32), timestamp
    (u32), nonce (u32), bits (u32), cumulative_emission (u64), previous_hash
    (32B), merkle_root (32B)], integers little-endian. *)
Definition block_header_bytes (block : block_t) : list byte :=
  encode_le 4 (version block) ++ encode_le 4 (timestamp block) ++
  encode_le 4 (nonce block) ++ encode_le 4 (bits block) ++
  encode_le 8 (cumulative_emission block) ++
  previous_hash block ++ merkle_root block.

Lemma serialize_block_header_writes (block : block_t) :
  Buffer.appends
    (Buffer.buffer_write_uint32 (version block) |||
     Buffer.buffer_write_uint32 (timestamp block) |||
     Buffer.buffer_write_uint32 (nonce block) |||
     Buffer.buffer_write_uint32 (bits block) |||
     Buffer.buffer_write_uint64 (cumulative_emission block) |||
     Buffer.buffer_write (previous_hash block) HASH_SIZE |||
     Buffer.buffer_write (merkle_root block) HASH_SIZE)
    ((((((encode_le 4 (version block) ++ encode_le 4 (timestamp block)) ++
         encode_le 4 (nonce block)) ++ encode_le 4 (bits block)) ++
       encode_le 8 (cumulative_emission block)) ++
      take (Z.to_nat HASH_SIZE) (previous_hash block)) ++
     take (Z.to_nat HASH_SIZE) (merkle_root block)).
Proof.
  repeat apply Buffer.appends_or_else;
    auto using Buffer.appends_uint32, Buffer.appends_uint64, Buffer.appends_write.
Qed.

Lemma serialize_block_header_appends (block : block_t) (buffer : Buffer.buffer_t) :
  hash_wf (previous_hash block) -> hash_wf (merkle_root block) ->
  serialize_block_header block buffer =
  (0, Buffer.mk_buffer (Buffer.data buffer ++ block_header_bytes block)
        (drop (length (block_header_bytes block)) (Buffer.spare buffer))).
Proof.
  intros Hp Hm. unfold serialize_block_header.
  rewrite serialize_block_header_writes.
  cbn [truth Z.eqb negb]. unfold block_header_bytes.
  rewrite !take_ge by (rewrite ?Hp, ?Hm; lia).
  rewrite <- !app_assoc. reflexivity.
Qed.

Lemma length_block_header_bytes (block : block_t) :
  hash_wf (previous_hash block) -> hash_wf (merkle_root block) ->
  length (block_header_bytes block) = 88%nat.
Proof.
  intros Hp Hm. unfold block_header_bytes.
  rewrite !length_app, !length_encode_le, Hp, Hm. vm_compute. reflexivity.
Qed.

(** [serialize_block_header] writes exactly 88 bytes, laid out as version,
    timestamp, nonce, bits (u32 LE each), cumulative_emission (u64 LE),
    previous_hash and merkle_root (32 bytes each), and the block hash is
    sha256d of the [BLOCK_HEADER_SIZE] bytes at the start of the buffer that
    received them: the 88 header bytes come first. *)
Lemma serialize_block_header_layout (block : block_t) :
  hash_wf (previous_hash block) -> hash_wf (merkle_root block) ->
  (forall spare,
     serialize_block_header block (Buffer.mk_buffer [] spare)
     = (0, Buffer.mk_buffer (block_header_bytes block) (drop 88 spare))) /\
  length (block_header_bytes block) = 88%nat /\
  exists rest,
    Z.of_nat (length rest) = BLOCK_HEADER_SIZE - 88 /\
    compute_block_hash block
    = Some (crypto_hash_sha256d (block_header_bytes block ++ rest)).
Proof.
  intros Hp Hm.
  pose proof (length_block_header_bytes block Hp Hm) as Hlen.
  split; [|split; [exact Hlen|]].
  - intros spare. rewrite serialize_block_header_appends by assumption.
    now rewrite Hlen.
  - unfold compute_block_hash, Buffer.buffer_init_size.
    rewrite serialize_block_header_appends by assumption.
    cbn [truth Z.eqb negb Buffer.data Buffer.spare app].
    unfold Buffer.buffer_bytes. cbn [Buffer.data Buffer.spare].
    rewrite Hlen.
    exists (drop 88 (resize (Z.to_nat BLOCK_HEADER_SIZE) x00 heap_bytes)).
    split.
    + rewrite length_drop, length_resize. reflexivity.
    + rewrite take_ge; [reflexivity|].
      rewrite length_app, length_drop, length_resize, Hlen. vm_compute. lia.
Qed.

(** [compute_block_hash] always produces a hash: the header writes of the
    buffer model do not fail. *)
Lemma compute_block_hash_Some (block : block_t) :
  exists h, compute_block_hash block = Some h.
Proof.
  unfold compute_block_hash, serialize_block_header.
  rewrite serialize_block_header_writes.
  cbn [truth Z.eqb negb]. eauto.
Qed.

(** C8: the future-drift bound is non-strict: a timestamp of exactly
    [now + MAX_FUTURE_BLOCK_TIME] is accepted and one second later is
    rejected. *)
Theorem valid_block_timestamp_boundary (now : Z) (block : block_t) :
  0 <= now + MAX_FUTURE_BLOCK_TIME < 2 ^ 32 ->
  (timestamp block = now + MAX_FUTURE_BLOCK_TIME ->
   valid_block_timestamp now block = 1) /\
  (timestamp block = now + MAX_FUTURE_BLOCK_TIME + 1 ->
   valid_block_timestamp now block = 0) /\
  (valid_block_timestamp now block = 1 <->
   timestamp block <= now + MAX_FUTURE_BLOCK_TIME).
Proof.
  intros Hrange. unfold valid_block_timestamp, to_uint32, of_bool.
  rewrite Z.mod_small by exact Hrange.
  destruct (Z.leb_spec (timestamp block) (now + MAX_FUTURE_BLOCK_TIME));
    repeat split; intros; try lia; try reflexivity; try discriminate.
Qed.

(** C10: [compare_with_genesis_block] writes the recomputed header hash into
    the [hash] field of the block it is given, and into that of the
    process-wide genesis block, before it compares them; no other field
    changes, and the block's [hash] is left as it was only when it already
    was the header hash. *)
Theorem compare_with_genesis_block_overwrites_hash (block genesis_block : block_t) :
  exists h g,
    compute_block_hash block = Some h /\
    compute_block_hash genesis_block = Some g /\
    compare_with_genesis_block block genesis_block
      = (set_hash h block, set_hash g genesis_block,
         compare_block (set_hash h block) (set_hash g genesis_block)) /\
    hash (set_hash h block) = h /\
    hash (set_hash g genesis_block) = g /\
    (hash block <> h ->
     hash (fst (fst (compare_with_genesis_block block genesis_block))) <> hash block).
Proof.
  destruct (compute_block_hash_Some block) as [h Hh].
  destruct (compute_block_hash_Some genesis_block) as [g Hg].
  exists h, g. unfold compare_with_genesis_block. rewrite Hh, Hg.
  repeat split; try assumption. cbn. congruence.
Qed.

(** C9: [copy_block] cannot complete a deep copy of a block that has a
    transaction. [copy_block_transactions] passes the receiving pointer to
    [copy_transaction] by value, so it is still NULL afterwards: whenever
    [copy_transaction] reports success the assertion on it fails, and
    otherwise [copy_block] returns 1. *)
Theorem copy_block_cannot_succeed (block other_block : block_t) :
  0 < transaction_count block ->
  is_Some (transactions block) ->
  (forall other_block', copy_block block other_block <> Ret (0, other_block')) /\
  (forall tx freed,
     free_block_transactions (copy_block_fields block other_block) = Ret freed ->
     block_tx block 0 = Ret (Some tx) ->
     copy_transaction tx None = Ret 0 ->
     copy_block block other_block = Crash assertion_failed).
Proof.
  intros Hcount Htxs.
  assert (Hn : exists n, Z.to_nat (transaction_count block) = S n)
    by (exists (Z.to_nat (transaction_count block) - 1)%nat; lia).
  destruct Hn as [n Hn].
  assert (Hcond : (0 <? transaction_count block)
                  && bool_decide (is_Some (transactions block)) = true).
  { apply andb_true_iff. split; [now apply Z.ltb_lt | now apply bool_decide_eq_true]. }
  split.
  - intros other_block'. unfold copy_block, copy_block_transactions.
    destruct (free_block_transactions _) as [freed|f]; [|discriminate].
    cbn [mbind outcome_bind]. rewrite Hcond.
    unfold for_each_index. rewrite Hn, for_loop_S.
    destruct (block_tx block 0) as [[tx|]|f]; [|discriminate..].
    cbn [mbind outcome_bind].
    destruct (copy_transaction tx None) as [rc|f]; [|discriminate].
    cbn [mbind outcome_bind].
    destruct (truth rc); [|discriminate].
    cbn [mbind outcome_bind truth Z.eqb negb]. congruence.
  - intros tx freed Hfree Htx Hcopy. unfold copy_block, copy_block_transactions.
    rewrite Hfree. cbn [mbind outcome_bind]. rewrite Hcond.
    unfold for_each_index. rewrite Hn, for_loop_S, Htx.
    cbn [mbind outcome_bind]. rewrite Hcopy. reflexivity.
Qed.

(** The scalar fields fit their C types and the three hashes are 32 bytes. *)
Definition block_fields_wf (block : block_t) : Prop :=
  is_uint32 (version block) /\ hash_wf (previous_hash block) /\
  hash_wf (hash block) /\ is_uint32 (timestamp block) /\
  is_uint32 (nonce block) /\ is_uint32 (bits block) /\
  is_uint64 (cumulative_emission block) /\ hash_wf (merkle_root block) /\
  is_uint32 (transaction_count block).

(** A well-formed block: all fields present, and a non-empty array of
    [transaction_count] transactions, none of them NULL. *)
Definition well_formed_block (block : block_t) : Prop :=
  block_fields_wf block /\
  exists txs,
    transactions block = Some txs /\ txs <> [] /\
    Z.of_nat (length txs) = transaction_count block /\
    Forall is_Some txs.

(** The bytes [serialize_block] writes. *)
Definition block_bytes (block : block_t) : list byte :=
  encode_le 4 (version block) ++
  encode_le 4 HASH_SIZE ++ previous_hash block ++
  encode_le 4 HASH_SIZE ++ hash block ++
  encode_le 4 (timestamp block) ++ encode_le 4 (nonce block) ++
  encode_le 4 (bits block) ++ encode_le 8 (cumulative_emission block) ++
  encode_le 4 HASH_SIZE ++ merkle_root block ++
  encode_le 4 (transaction_count block).

Lemma serialize_block_appends (block : block_t) (buffer : Buffer.buffer_t) :
  block_fields_wf block ->
  serialize_block block buffer =
  (0, Buffer.mk_buffer (Buffer.data buffer ++ block_bytes block)
        (drop (length (block_bytes block)) (Buffer.spare buffer))).
Proof.
  intros (_ & Hp & Hh & _ & _ & _ & _ & Hm & _). unfold serialize_block.
  assert (Hw : Buffer.appends
    (Buffer.buffer_write_uint32 (version block) |||
     Buffer.buffer_write_bytes32 (previous_hash block) HASH_SIZE |||
     Buffer.buffer_write_bytes32 (hash block) HASH_SIZE |||
     Buffer.buffer_write_uint32 (timestamp block) |||
     Buffer.buffer_write_uint32 (nonce block) |||
     Buffer.buffer_write_uint32 (bits block) |||
     Buffer.buffer_write_uint64 (cumulative_emission block) |||
     Buffer.buffer_write_bytes32 (merkle_root block) HASH_SIZE |||
     Buffer.buffer_write_uint32 (transaction_count block))
    ((((((((encode_le 4 (version block) ++
            (encode_le 4 HASH_SIZE ++ take (Z.to_nat HASH_SIZE) (previous_hash block))) ++
           (encode_le 4 HASH_SIZE ++ take (Z.to_nat HASH_SIZE) (hash block))) ++
          encode_le 4 (timestamp block)) ++ encode_le 4 (nonce block)) ++
        encode_le 4 (bits block)) ++ encode_le 8 (cumulative_emission block)) ++
      (encode_le 4 HASH_SIZE ++ take (Z.to_nat HASH_SIZE) (merkle_root block))) ++
     encode_le 4 (transaction_count block))).
  { repeat apply Buffer.appends_or_else;
      auto using Buffer.appends_uint32, Buffer.appends_uint64, Buffer.appends_bytes32. }
  rewrite Hw. cbn [truth Z.eqb negb].
  rewrite !take_ge by (rewrite ?Hp, ?Hh, ?Hm; lia).
  rewrite <- !app_assoc. reflexivity.
Qed.

Lemma deserialize_block_bytes (block : block_t) (rest : list byte) :
  block_fields_wf block ->
  deserialize_block (Buffer.mk_iterator (block_bytes block ++ rest))
  = Some (set_transactions (transaction_count block) None block,
          Buffer.mk_iterator rest).
Proof.
  intros (Hv & Hp & Hh & Ht & Hn & Hb & Hc & Hm & Hk).
  assert (H32 : forall h, hash_wf h -> HASH_SIZE = Z.of_nat (length h))
    by (intros h ->; reflexivity).
  assert (Hu : forall h, hash_wf h -> is_uint32 (Z.of_nat (length h)))
    by (intros h ->; vm_compute; split; [discriminate | reflexivity]).
  assert (Hcp : forall h, hash_wf h -> memcpy_hash h = h)
    by (intros h Hwf; unfold memcpy_hash; apply take_ge; rewrite Hwf; lia).
  unfold deserialize_block, block_bytes.
  rewrite (H32 _ Hp) at 1. rewrite (H32 _ Hh) at 1. rewrite (H32 _ Hm) at 1.
  rewrite <- !app_assoc.
  rewrite Buffer.run_bind, Buffer.read_uint32_app by assumption.
  rewrite Buffer.run_bind, Buffer.read_bytes32_app by auto.
  rewrite Buffer.run_bind, Buffer.read_bytes32_app by auto.
  rewrite Buffer.run_bind, Buffer.read_uint32_app by assumption.
  rewrite Buffer.run_bind, Buffer.read_uint32_app by assumption.
  rewrite Buffer.run_bind, Buffer.read_uint32_app by assumption.
  rewrite Buffer.run_bind, Buffer.read_uint64_app by assumption.
  rewrite Buffer.run_bind, Buffer.read_bytes32_app by auto.
  rewrite Buffer.run_bind, Buffer.read_uint32_app by assumption.
  unfold mret, Buffer.reader_ret.
  rewrite !Hcp by assumption. reflexivity.
Qed.

(** C1, as the code has it: [block_to_serialized] followed by
    [block_from_serialized] gives back every scalar field, the three hashes
    and [transaction_count], and a NULL transaction array: the transactions
    are not among the bytes the two functions write and read. *)
Theorem block_round_trip_fields (block : block_t) :
  block_fields_wf block ->
  exists data data_len,
    block_to_serialized block = Some (data, data_len) /\
    data = block_bytes block /\
    block_from_serialized data data_len
    = Some (set_transactions (transaction_count block) None block).
Proof.
  intros Hwf. exists (block_bytes block), (Z.of_nat (length (block_bytes block))).
  assert (Hto : block_to_serialized block
                = Some (block_bytes block, Z.of_nat (length (block_bytes block)))).
  { unfold block_to_serialized. rewrite serialize_block_appends by assumption.
    cbn [truth Z.eqb negb Buffer.buffer_init Buffer.data Buffer.spare app].
    unfold Buffer.buffer_get_size, Buffer.buffer_bytes.
    cbn [Buffer.data Buffer.spare]. rewrite Nat2Z.id, drop_nil, app_nil_r.
    now rewrite take_ge by lia. }
  split; [exact Hto|]. split; [reflexivity|].
  unfold block_from_serialized, Buffer.buffer_init_data, Buffer.buffer_iterator_init.
  cbn [Buffer.data]. rewrite Nat2Z.id, take_ge by lia.
  pose proof (deserialize_block_bytes block [] Hwf) as Hd.
  rewrite app_nil_r in Hd. rewrite Hd. reflexivity.
Qed.

(** **** What [valid_block] has checked when it accepts *)

Lemma index_range (count j : Z) :
  0 <= j < 0 + Z.of_nat (Z.to_nat count) <-> 0 <= j < count.
Proof. lia. Qed.

Lemma same_outpoint (a c : input_transaction_t) :
  truth (compare_hash (transaction a) (transaction c))
  && (txout_index a =? txout_index c) = false ->
  outpoint a <> outpoint c.
Proof.
  unfold compare_hash, outpoint, truth. intros H [= Ht Hi].
  destruct (decide (transaction a = transaction c)); [|contradiction].
  rewrite Hi, Z.eqb_refl in H. discriminate.
Qed.

Lemma txin_loop_Continue (txin_first : input_transaction_t) (second_tx : transaction_t) :
  valid_block_txin_loop txin_first second_tx = Ret (Continue tt) ->
  forall l, 0 <= l < txin_count second_tx ->
    exists txin_second,
      tx_txin second_tx l = Ret (Some txin_second) /\
      outpoint txin_first <> outpoint txin_second.
Proof.
  unfold valid_block_txin_loop, for_each_index. intros H l Hl.
  apply (proj1 (for_loop_Continue _ _ _)) with (j := l) in H; [|lia].
  destruct (tx_txin second_tx l) as [[c|]|f]; try discriminate.
  cbn [mbind outcome_bind] in H.
  destruct (_ && _) eqn:E; [discriminate|].
  exists c. split; [reflexivity | now apply same_outpoint].
Qed.

Lemma txin_loop_Return (txin_first : input_transaction_t) (second_tx : transaction_t) (r : Z) :
  valid_block_txin_loop txin_first second_tx = Ret (Return r) -> r = 0.
Proof.
  unfold valid_block_txin_loop, for_each_index. intros H.
  apply for_loop_Return in H as (j & [] & _ & H).
  destruct (tx_txin second_tx j) as [[c|]|f]; try discriminate.
  - cbn [mbind outcome_bind] in H. destruct (_ && _); congruence.
  - cbn [mbind outcome_bind] in H. congruence.
Qed.

Lemma second_loop_Continue (block : block_t) (i : Z) (first_tx : transaction_t) :
  valid_block_second_loop block i first_tx = Ret (Continue tt) ->
  forall j, 0 <= j < transaction_count block -> j <> i ->
    exists second_tx,
      block_tx block j = Ret (Some second_tx) /\
      id first_tx <> id second_tx /\
      forall k, 0 <= k < txin_count first_tx ->
        exists txin_first,
          tx_txin first_tx k = Ret (Some txin_first) /\
          valid_block_txin_loop txin_first second_tx = Ret (Continue tt).
Proof.
  unfold valid_block_second_loop, for_each_index. intros H j Hj Hne.
  apply (proj1 (for_loop_Continue _ _ _)) with (j := j) in H; [|lia].
  destruct (block_tx block j) as [[tx2|]|f]; try discriminate.
  cbn [mbind outcome_bind] in H.
  destruct (Z.eqb_spec i j) as [->|_]; [contradiction|].
  unfold compare_hash, truth in H.
  destruct (decide (id first_tx = id tx2)) as [|Hid]; [discriminate|].
  cbn [Z.eqb negb] in H.
  exists tx2. split; [reflexivity|]. split; [exact Hid|].
  intros k Hk.
  apply (proj1 (for_loop_Continue _ _ _)) with (j := k) in H; [|lia].
  destruct (tx_txin first_tx k) as [[a|]|f]; try discriminate.
  exists a. split; [reflexivity | exact H].
Qed.

Lemma second_loop_Return (block : block_t) (i : Z) (first_tx : transaction_t) (r : Z) :
  valid_block_second_loop block i first_tx = Ret (Return r) -> r = 0.
Proof.
  unfold valid_block_second_loop, for_each_index. intros H.
  apply for_loop_Return in H as (j & [] & _ & H).
  destruct (block_tx block j) as [[tx2|]|f]; try discriminate;
    cbn [mbind outcome_bind] in H; [|congruence].
  destruct (i =? j); [discriminate|].
  destruct (truth _); [congruence|].
  apply for_loop_Return in H as (k & [] & _ & H).
  destruct (tx_txin first_tx k) as [[a|]|f]; try discriminate;
    cbn [mbind outcome_bind] in H; [|congruence].
  now apply txin_loop_Return in H.
Qed.

Lemma first_loop_Continue (block : block_t) :
  valid_block_first_loop block = Ret (Continue tt) ->
  forall i, 0 <= i < transaction_count block ->
    exists first_tx,
      block_tx block i = Ret (Some first_tx) /\
      valid_transaction first_tx <> 0 /\
      (i <> 0 -> is_coinbase_tx first_tx = 0) /\
      valid_block_second_loop block i first_tx = Ret (Continue tt).
Proof.
  unfold valid_block_first_loop, for_each_index. intros H i Hi.
  apply (proj1 (for_loop_Continue _ _ _)) with (j := i) in H; [|lia].
  destruct (block_tx block i) as [[tx|]|f]; try discriminate.
  cbn [mbind outcome_bind] in H.
  destruct (Z.eqb_spec (valid_transaction tx) 0) as [|Hv]; [discriminate|].
  destruct (_ && _) eqn:E; [discriminate|].
  exists tx. split; [reflexivity|]. split; [exact Hv|]. split; [|exact H].
  intros Hne. apply andb_false_iff in E as [E|E].
  - apply negb_false_iff, Z.eqb_eq in E. contradiction.
  - unfold truth in E. now apply negb_false_iff, Z.eqb_eq in E.
Qed.

Lemma first_loop_Return (block : block_t) (r : Z) :
  valid_block_first_loop block = Ret (Return r) -> r = 0.
Proof.
  unfold valid_block_first_loop, for_each_index. intros H.
  apply for_loop_Return in H as (i & [] & _ & H).
  destruct (block_tx block i) as [[tx|]|f]; try discriminate;
    cbn [mbind outcome_bind] in H; [|congruence].
  destruct (_ =? 0); [congruence|].
  destruct (_ && _); [congruence|].
  now apply second_loop_Return in H.
Qed.

Lemma valid_block_accepts (now : Z) (block : block_t) :
  valid_block now block = Ret 1 ->
  valid_block_timestamp now block <> 0 /\
  1 <= transaction_count block /\
  (exists coinbase_tx,
     block_tx block 0 = Ret (Some coinbase_tx) /\ is_coinbase_tx coinbase_tx <> 0) /\
  valid_block_first_loop block = Ret (Continue tt) /\
  (exists size, get_block_header_size block = Ret size /\ size <= MAX_BLOCK_SIZE) /\
  valid_block_hash block <> 0 /\
  (exists ok, valid_merkle_root block = Ret ok /\ ok <> 0).
Proof.
  unfold valid_block. intros H.
  destruct (Z.eqb_spec (valid_block_timestamp now block) 0) as [|Ht]; [discriminate|].
  destruct (Z.ltb_spec (transaction_count block) 1) as [|Hc]; [discriminate|].
  destruct (block_tx block 0) as [[cb|]|f]; try discriminate.
  cbn [mbind outcome_bind] in H.
  destruct (Z.eqb_spec (is_coinbase_tx cb) 0) as [|Hcb]; [discriminate|].
  destruct (valid_block_first_loop block) as [[[]|r]|f] eqn:Hloop; try discriminate.
  2:{ cbn [mbind outcome_bind] in H. apply first_loop_Return in Hloop. congruence. }
  cbn [mbind outcome_bind] in H.
  destruct (get_block_header_size block) as [size|f]; [|discriminate].
  cbn [mbind outcome_bind] in H.
  destruct (Z.ltb_spec MAX_BLOCK_SIZE size) as [|Hs]; [discriminate|].
  destruct (Z.eqb_spec (valid_block_hash block) 0) as [|Hh]; [discriminate|].
  destruct (valid_merkle_root block) as [ok|f]; [|discriminate].
  cbn [mbind outcome_bind] in H.
  destruct (Z.eqb_spec ok 0) as [|Hok]; [discriminate|].
  repeat split; eauto.
Qed.

(** C4: in a block [valid_block] accepts, the transaction at position 0 is
    a coinbase and no transaction at a later position is: exactly one
    transaction of the block is a coinbase. *)
Theorem valid_block_single_coinbase (now : Z) (block : block_t) :
  valid_block now block = Ret 1 ->
  (exists coinbase_tx,
     block_tx block 0 = Ret (Some coinbase_tx) /\ is_coinbase_tx coinbase_tx <> 0) /\
  (forall i, 0 < i < transaction_count block ->
     exists tx, block_tx block i = Ret (Some tx) /\ is_coinbase_tx tx = 0) /\
  (forall i, 0 <= i < transaction_count block ->
     exists tx, block_tx block i = Ret (Some tx) /\
                (is_coinbase_tx tx <> 0 <-> i = 0)).
Proof.
  intros H. apply valid_block_accepts in H as (_ & _ & Hcb & Hloop & _).
  pose proof (first_loop_Continue block Hloop) as Hall.
  split; [exact Hcb|]. split.
  - intros i Hi. destruct (Hall i) as (tx & Htx & _ & Hn & _); [lia|].
    exists tx. split; [exact Htx | apply Hn; lia].
  - intros i Hi. destruct (Hall i Hi) as (tx & Htx & _ & Hn & _).
    exists tx. split; [exact Htx|].
    destruct (Z.eq_dec i 0) as [->|Hne].
    + destruct Hcb as (cb & Hcb & Hyes). rewrite Htx in Hcb.
      injection Hcb as ->. split; intros _; [reflexivity | exact Hyes].
    + specialize (Hn Hne). split; [intros Hc; destruct (Hc Hn) | intros He; destruct (Hne He)].
Qed.

(** The transactions of a block: the first [transaction_count] entries of
    its array, when there are that many and none is NULL. *)
Definition block_transactions (block : block_t) : option (list transaction_t) :=
  txs ← transactions block; entries (transaction_count block) txs.

(** The spend references [(prev_txid, prev_vout)] of all inputs of all
    transactions of a block, in order. *)
Definition block_outpoints (block : block_t) : option (list (list byte * Z)) :=
  txs ← block_transactions block;
  inputs ← mapM tx_inputs txs;
  Some (outpoint <$> concat inputs).

Lemma block_tx_lookup (block : block_t) (i : Z) (tx : transaction_t) :
  block_tx block i = Ret (Some tx) ->
  exists arr, transactions block = Some arr /\ 0 <= i /\
              arr !! Z.to_nat i = Some (Some tx).
Proof.
  unfold block_tx, ptr_array_get.
  destruct (transactions block) as [arr|]; [|discriminate].
  intros H. apply array_get_Ret in H as [Hi H]. eauto.
Qed.

Lemma tx_txin_lookup (tx : transaction_t) (k : nat) (a : input_transaction_t) :
  txins tx !! k = Some (Some a) -> tx_txin tx (Z.of_nat k) = Ret (Some a).
Proof. apply array_get_lookup. Qed.

(** The transactions the first loop of [valid_block] has walked over. *)
Lemma first_loop_transactions (block : block_t) :
  1 <= transaction_count block ->
  valid_block_first_loop block = Ret (Continue tt) ->
  exists txs,
    block_transactions block = Some txs /\
    length txs = Z.to_nat (transaction_count block) /\
    forall i tx, txs !! i = Some tx ->
      block_tx block (Z.of_nat i) = Ret (Some tx) /\
      valid_transaction tx <> 0 /\
      valid_block_second_loop block (Z.of_nat i) tx = Ret (Continue tt).
Proof.
  intros Hcount Hloop.
  pose proof (first_loop_Continue block Hloop) as Hall.
  destruct (Hall 0) as (tx0 & Htx0 & _); [lia|].
  apply block_tx_lookup in Htx0 as (arr & Harr & _ & _).
  assert (Hget : forall i, (i < Z.to_nat (transaction_count block))%nat ->
            exists tx, arr !! i = Some (Some tx) /\
                       block_tx block (Z.of_nat i) = Ret (Some tx) /\
                       valid_transaction tx <> 0 /\
                       valid_block_second_loop block (Z.of_nat i) tx = Ret (Continue tt)).
  { intros i Hi. destruct (Hall (Z.of_nat i)) as (tx & Htx & Hv & _ & Hs); [lia|].
    exists tx. repeat split; try assumption.
    apply block_tx_lookup in Htx as (arr' & Harr' & _ & Hl).
    rewrite Harr in Harr'. injection Harr' as <-. now rewrite Nat2Z.id in Hl. }
  assert (Hlen : (Z.to_nat (transaction_count block) <= length arr)%nat).
  { destruct (Hget (Z.to_nat (transaction_count block) - 1)%nat) as (tx & Hl & _); [lia|].
    apply lookup_lt_Some in Hl. lia. }
  assert (Hsome : is_Some (entries (transaction_count block) arr)).
  { unfold entries. rewrite decide_True by exact Hlen.
    apply mapM_is_Some, Forall_lookup. intros i p Hi.
    apply lookup_take_Some in Hi as [Hi Hlt].
    destruct (Hget i Hlt) as (tx & Hl & _). rewrite Hl in Hi.
    injection Hi as <-. eexists; reflexivity. }
  destruct Hsome as [txs Htxs]. exists txs.
  unfold block_transactions. rewrite Harr. cbn [mbind option_bind].
  split; [exact Htxs|].
  apply entries_Some in Htxs as [Hl Hlookup]. split; [exact Hl|].
  intros i tx Hi. apply Hlookup in Hi as [Hlt Hi].
  destruct (Hget i Hlt) as (tx' & Hl' & Hrest). rewrite Hl' in Hi.
  injection Hi as <-. exact Hrest.
Qed.

(** C3: in a block [valid_block] accepts, the spend references of all the
    inputs of all its transactions are pairwise distinct, two inputs of one
    transaction included. *)
Theorem valid_block_no_double_spend (now : Z) (block : block_t) :
  valid_block now block = Ret 1 ->
  exists outpoints,
    block_outpoints block = Some outpoints /\
    NoDup outpoints /\
    (forall p q x, outpoints !! p = Some x -> outpoints !! q = Some x -> p = q).
Proof.
  intros H. apply valid_block_accepts in H as (_ & Hcount & _ & Hloop & _).
  destruct (first_loop_transactions block Hcount Hloop) as (txs & Htxs & Hlen & Hall).
  assert (Hins : is_Some (mapM tx_inputs txs)).
  { apply mapM_is_Some, Forall_lookup. intros i tx Hi.
    destruct (Hall i tx Hi) as (_ & Hv & _).
    destruct (valid_transaction_NoDup _ _ tx Hv) as (ins & Hins & _).
    unfold compose. rewrite Hins. eexists; reflexivity. }
  destruct Hins as [inputs Hinputs].
  exists (outpoint <$> concat inputs).
  unfold block_outpoints. rewrite Htxs. cbn [mbind option_bind].
  rewrite Hinputs. cbn [mbind option_bind].
  assert (Hnd : NoDup (outpoint <$> concat inputs)).
  { apply mapM_Some in Hinputs.
    apply NoDup_fmap_concat.
    - intros i ins Hi.
      destruct (Forall2_lookup_r _ _ _ _ _ Hinputs Hi) as (tx & Htx & Hin).
      destruct (Hall i tx Htx) as (_ & Hv & _).
      destruct (valid_transaction_NoDup _ _ tx Hv) as (ins' & Hin' & Hnd).
      rewrite Hin in Hin'. injection Hin' as <-. exact Hnd.
    - intros i j ins1 ins2 a c Hne Hi Hj Ha Hc.
      destruct (Forall2_lookup_r _ _ _ _ _ Hinputs Hi) as (tx1 & Htx1 & Hin1).
      destruct (Forall2_lookup_r _ _ _ _ _ Hinputs Hj) as (tx2 & Htx2 & Hin2).
      destruct (Hall i tx1 Htx1) as (_ & _ & Hsecond).
      destruct (Hall j tx2 Htx2) as (Hb2 & _ & _).
      apply lookup_lt_Some in Htx2 as Hj'.
      destruct (second_loop_Continue block _ tx1 Hsecond (Z.of_nat j))
        as (tx2' & Hb2' & _ & Hpairs); [lia..|].
      rewrite Hb2 in Hb2'. injection Hb2' as <-.
      apply list_elem_of_lookup in Ha as [k Hk].
      apply list_elem_of_lookup in Hc as [l Hl].
      apply entries_Some in Hin1 as [_ Hl1]. apply Hl1 in Hk as [Hk Hka].
      apply entries_Some in Hin2 as [_ Hl2]. apply Hl2 in Hl as [Hl Hlc].
      destruct (Hpairs (Z.of_nat k)) as (a' & Ha' & Hinner); [lia|].
      rewrite (tx_txin_lookup _ _ _ Hka) in Ha'. injection Ha' as <-.
      destruct (txin_loop_Continue a tx2 Hinner (Z.of_nat l)) as (c' & Hc' & Hdiff); [lia|].
      rewrite (tx_txin_lookup _ _ _ Hlc) in Hc'. injection Hc' as <-.
      exact Hdiff. }
  split; [reflexivity|]. split; [exact Hnd|].
  intros p q x Hp Hq. eapply NoDup_lookup; eassumption.
Qed.

(** **** Signature bytes and [valid_block] *)

(** [txin] with its signature bytes replaced. *)
Definition set_signature (sig : list byte) (txin : input_transaction_t)
    : input_transaction_t :=
  mk_txin (transaction txin) (txout_index txin) sig (public_key txin).

(** [tx] with the signature bytes of input [k] replaced. *)
Definition tx_set_signature (k : nat) (sig : list byte) (tx : transaction_t)
    : transaction_t :=
  mk_tx (id tx) (txin_count tx) (txout_count tx)
    (alter (fmap (set_signature sig)) k (txins tx)) (txouts tx).

(** [block] with the signature bytes of input [k] of transaction [i]
    replaced, and nothing else changed. *)
Definition block_set_signature (i k : nat) (sig : list byte) (block : block_t)
    : block_t :=
  set_transactions (transaction_count block)
    (alter (fmap (tx_set_signature k sig)) i <$> transactions block) block.

(** Two inputs that spend the same output. *)
Definition same_spend (a a' : input_transaction_t) : Prop :=
  outpoint a = outpoint a'.

(** Two transactions that differ at most in the witness parts (signature,
    public key) of their inputs. *)
Definition tx_similar (tx tx' : transaction_t) : Prop :=
  id tx = id tx' /\ txin_count tx = txin_count tx' /\
  txout_count tx = txout_count tx' /\ txouts tx = txouts tx' /\
  Forall2 (option_Forall2 same_spend) (txins tx) (txins tx').

(** ... and on which [valid_transaction] and [get_tx_header_size] agree. *)
Definition tx_equiv (tx tx' : transaction_t) : Prop :=
  tx_similar tx tx' /\ valid_transaction tx = valid_transaction tx' /\
  get_tx_header_size tx = get_tx_header_size tx'.

Definition block_equiv (b b' : block_t) : Prop :=
  version b = version b' /\ previous_hash b = previous_hash b' /\
  hash b = hash b' /\ timestamp b = timestamp b' /\ nonce b = nonce b' /\
  bits b = bits b' /\ cumulative_emission b = cumulative_emission b' /\
  merkle_root b = merkle_root b' /\ transaction_count b = transaction_count b' /\
  option_Forall2 (Forall2 (option_Forall2 tx_equiv)) (transactions b) (transactions b').

Lemma array_get_Forall2 {A : Type} (R : A -> A -> Prop) (arr arr' : list A) (i : Z) :
  Forall2 R arr arr' ->
  (exists f, array_get arr i = Crash f /\ array_get arr' i = Crash f) \/
  (exists x y, array_get arr i = Ret x /\ array_get arr' i = Ret y /\ R x y).
Proof.
  intros H. unfold array_get.
  destruct (i <? 0); [left; eauto|].
  pose proof (proj1 (Forall2_lookup _ _ _) H (Z.to_nat i)) as Hi.
  destruct Hi as [x y Hxy|]; [right; eauto | left; eauto].
Qed.

Lemma block_tx_equiv (b b' : block_t) (i : Z) :
  block_equiv b b' ->
  (exists f, block_tx b i = Crash f /\ block_tx b' i = Crash f) \/
  (block_tx b i = Ret None /\ block_tx b' i = Ret None) \/
  (exists tx tx', block_tx b i = Ret (Some tx) /\ block_tx b' i = Ret (Some tx') /\
                  tx_equiv tx tx').
Proof.
  intros (_ & _ & _ & _ & _ & _ & _ & _ & _ & H). unfold block_tx, ptr_array_get.
  destruct H as [arr arr' H|]; [|left; eauto].
  destruct (array_get_Forall2 _ arr arr' i H) as [?|(x & y & -> & -> & Hxy)];
    [left; assumption|].
  destruct Hxy as [tx tx' Heq|]; right; [right; eauto | left; eauto].
Qed.

Lemma tx_txin_similar (tx tx' : transaction_t) (k : Z) :
  tx_similar tx tx' ->
  (exists f, tx_txin tx k = Crash f /\ tx_txin tx' k = Crash f) \/
  (tx_txin tx k = Ret None /\ tx_txin tx' k = Ret None) \/
  (exists a a', tx_txin tx k = Ret (Some a) /\ tx_txin tx' k = Ret (Some a') /\
                same_spend a a').
Proof.
  intros (_ & _ & _ & _ & H). unfold tx_txin.
  destruct (array_get_Forall2 _ _ _ k H) as [?|(x & y & -> & -> & Hxy)];
    [left; assumption|].
  destruct Hxy as [a a' Heq|]; right; [right; eauto | left; eauto].
Qed.

Lemma is_coinbase_tx_similar (tx tx' : transaction_t) :
  tx_similar tx tx' -> is_coinbase_tx tx = is_coinbase_tx tx'.
Proof.
  intros (_ & Hc & _ & _ & H). unfold is_coinbase_tx. rewrite Hc.
  destruct (txin_count tx' =? 1); [|reflexivity].
  pose proof (proj1 (Forall2_lookup _ _ _) H 0%nat) as H0.
  destruct H0 as [x y Hxy|]; [|reflexivity].
  destruct Hxy as [a a' Ha|]; [|reflexivity].
  unfold is_coinbase_txin. injection Ha as -> ->. reflexivity.
Qed.

Lemma mapM_Forall2 {A : Type} (R : A -> A -> Prop) (l l' : list (option A)) :
  Forall2 (option_Forall2 R) l l' ->
  option_Forall2 (Forall2 R) (mapM (fun p => p) l) (mapM (fun p => p) l').
Proof.
  induction 1 as [|x y l l' Hxy _ IH]; [repeat constructor|].
  cbn [mapM]. destruct Hxy as [a a' Ha|]; [|constructor].
  cbn [mbind option_bind]. destruct IH as [k k' Hk|]; [|constructor].
  cbn [mbind option_bind mret option_ret]. constructor. now constructor.
Qed.

Lemma entries_Forall2 {A : Type} (R : A -> A -> Prop) (count : Z)
    (arr arr' : list (option A)) :
  Forall2 (option_Forall2 R) arr arr' ->
  option_Forall2 (Forall2 R) (entries count arr) (entries count arr').
Proof.
  intros H. unfold entries. rewrite <- (Forall2_length H).
  destruct (decide _); [|constructor].
  apply mapM_Forall2, Forall2_take, H.
Qed.

Lemma txin_headers_similar (ins ins' : list input_transaction_t) :
  Forall2 same_spend ins ins' ->
  concat (get_txin_header <$> ins) = concat (get_txin_header <$> ins').
Proof.
  induction 1 as [|a a' ins ins' Ha _ IH]; [reflexivity|].
  cbn [fmap list_fmap concat]. rewrite IH. f_equal.
  unfold get_txin_header. injection Ha as -> ->. reflexivity.
Qed.

(** Txid stability: the sign preimage, hence the txid, does not read the
    witness parts of the inputs. *)
Lemma compute_tx_id_similar (tx tx' : transaction_t) :
  tx_similar tx tx' -> compute_tx_id tx = compute_tx_id tx'.
Proof.
  intros (_ & Hc & Ho & Houts & H).
  unfold Transaction.compute_tx_id, get_tx_sign_header, tx_inputs, tx_outputs.
  rewrite Hc, Ho, Houts.
  destruct (entries_Forall2 _ (txin_count tx') _ _ H) as [ins ins' Hins|];
    [|reflexivity].
  cbn [mbind option_bind]. now rewrite (txin_headers_similar _ _ Hins).
Qed.

Lemma txin_loop_similar (a a' : input_transaction_t) (tx tx' : transaction_t) :
  same_spend a a' -> tx_similar tx tx' ->
  valid_block_txin_loop a tx = valid_block_txin_loop a' tx'.
Proof.
  intros Ha Htx. unfold valid_block_txin_loop, for_each_index.
  destruct Htx as (Hid & Hc & Hrest). rewrite Hc.
  apply for_loop_ext. intros l [] _.
  destruct (tx_txin_similar tx tx' l (conj Hid (conj Hc Hrest)))
    as [(f & -> & ->) | [[-> ->] | (c & c' & -> & -> & Hcc)]]; try reflexivity.
  cbn [mbind outcome_bind].
  injection Ha as -> ->. injection Hcc as -> ->. reflexivity.
Qed.

Lemma second_loop_equiv (b b' : block_t) (i : Z) (tx tx' : transaction_t) :
  block_equiv b b' -> tx_similar tx tx' ->
  valid_block_second_loop b i tx = valid_block_second_loop b' i tx'.
Proof.
  intros Hb Htx. unfold valid_block_second_loop, for_each_index.
  destruct Hb as (? & ? & ? & ? & ? & ? & ? & ? & Hcount & Htxs).
  rewrite Hcount. apply for_loop_ext. intros j [] _.
  destruct (block_tx_equiv b b' j) as
    [(f & -> & ->) | [[-> ->] | (tx2 & tx2' & -> & -> & (Hsim & _))]];
    [repeat split; assumption | reflexivity..|].
  cbn [mbind outcome_bind].
  destruct (i =? j); [reflexivity|].
  destruct Htx as (Hid & Hc & Hrest).
  destruct Hsim as (Hid2 & Hrest2).
  rewrite Hid, Hid2, Hc.
  destruct (truth _); [reflexivity|].
  apply for_loop_ext. intros k [] _.
  destruct (tx_txin_similar tx tx' k (conj Hid (conj Hc Hrest)))
    as [(f & -> & ->) | [[-> ->] | (a & a' & -> & -> & Haa)]]; try reflexivity.
  cbn [mbind outcome_bind].
  apply txin_loop_similar; [exact Haa | exact (conj Hid2 Hrest2)].
Qed.

Lemma first_loop_equiv (b b' : block_t) :
  block_equiv b b' -> valid_block_first_loop b = valid_block_first_loop b'.
Proof.
  intros Hb. unfold valid_block_first_loop, for_each_index.
  pose proof Hb as (? & ? & ? & ? & ? & ? & ? & ? & Hcount & Htxs).
  rewrite Hcount. apply for_loop_ext. intros i [] _.
  destruct (block_tx_equiv b b' i Hb) as
    [(f & -> & ->) | [[-> ->] | (tx & tx' & -> & -> & (Hsim & Hv & _))]];
    try reflexivity.
  cbn [mbind outcome_bind].
  rewrite Hv, (is_coinbase_tx_similar _ _ Hsim).
  destruct (_ =? 0); [reflexivity|].
  destruct (_ && _); [reflexivity|].
  now apply second_loop_equiv.
Qed.

Lemma get_block_header_size_equiv (b b' : block_t) :
  block_equiv b b' -> get_block_header_size b = get_block_header_size b'.
Proof.
  intros Hb. unfold get_block_header_size, for_each_index.
  pose proof Hb as (? & ? & ? & ? & ? & ? & ? & ? & Hcount & Htxs).
  rewrite Hcount. f_equal. apply for_loop_ext. intros i size _.
  destruct (block_tx_equiv b b' i Hb) as
    [(f & -> & ->) | [[-> ->] | (tx & tx' & -> & -> & (_ & _ & Hs))]];
    try reflexivity.
  cbn [mbind outcome_bind]. now rewrite Hs.
Qed.

Lemma compute_merkle_root_equiv (b b' : block_t) :
  block_equiv b b' -> compute_merkle_root b = compute_merkle_root b'.
Proof.
  intros Hb. unfold compute_merkle_root, for_each_index.
  pose proof Hb as (? & ? & ? & ? & ? & ? & ? & ? & Hcount & Htxs).
  rewrite Hcount. f_equal. apply for_loop_ext. intros i hashes _.
  destruct (block_tx_equiv b b' i Hb) as
    [(f & -> & ->) | [[-> ->] | (tx & tx' & -> & -> & (Hsim & _))]];
    try reflexivity.
  cbn [mbind outcome_bind]. now rewrite (compute_tx_id_similar _ _ Hsim).
Qed.

Lemma compute_block_hash_equiv (b b' : block_t) :
  block_equiv b b' -> compute_block_hash b = compute_block_hash b'.
Proof.
  intros (Hv & Hp & _ & Ht & Hn & Hb & Hc & Hm & _).
  unfold compute_block_hash, serialize_block_header.
  now rewrite Hv, Hp, Ht, Hn, Hb, Hc, Hm.
Qed.

(** [valid_block] gives the same result on two blocks that differ at most
    in the witness parts of their inputs, when [valid_transaction] and
    [get_tx_header_size] agree on their transactions. *)
Lemma valid_block_equiv (now : Z) (b b' : block_t) :
  block_equiv b b' -> valid_block now b = valid_block now b'.
Proof.
  intros Hb. unfold valid_block, valid_block_timestamp, valid_merkle_root,
    valid_block_hash.
  rewrite (first_loop_equiv _ _ Hb), (get_block_header_size_equiv _ _ Hb),
    (compute_merkle_root_equiv _ _ Hb), (compute_block_hash_equiv _ _ Hb).
  pose proof Hb as (_ & _ & Hh & Ht & _ & Hbits & _ & Hm & Hcount & _).
  rewrite Hh, Ht, Hbits, Hm, Hcount.
  destruct (_ =? 0); [reflexivity|].
  destruct (_ <? 1); [reflexivity|].
  destruct (block_tx_equiv b b' 0 Hb) as
    [(f & -> & ->) | [[-> ->] | (tx & tx' & -> & -> & (Hsim & _))]];
    try reflexivity.
  cbn [mbind outcome_bind]. now rewrite (is_coinbase_tx_similar _ _ Hsim).
Qed.

Lemma tx_similar_refl (tx : transaction_t) : tx_similar tx tx.
Proof.
  repeat split. apply Forall2_same_length_lookup. split; [reflexivity|].
  intros i x y Hx Hy. rewrite Hx in Hy. injection Hy as <-.
  destruct x; constructor. reflexivity.
Qed.

Lemma tx_set_signature_similar (k : nat) (sig : list byte) (tx : transaction_t) :
  tx_similar tx (tx_set_signature k sig tx).
Proof.
  repeat split. cbn [txins tx_set_signature].
  apply Forall2_same_length_lookup. split; [now rewrite length_alter|].
  intros i x y Hx Hy.
  destruct (decide (k = i)) as [->|Hne].
  - rewrite list_lookup_alter_eq, Hx in Hy. injection Hy as <-.
    destruct x; constructor. reflexivity.
  - rewrite list_lookup_alter_ne, Hx in Hy by exact Hne. injection Hy as <-.
    destruct x; constructor. reflexivity.
Qed.

Lemma block_set_signature_equiv (i k : nat) (sig : list byte) (block : block_t) :
  (forall arr tx,
     transactions block = Some arr -> arr !! i = Some (Some tx) ->
     valid_transaction (tx_set_signature k sig tx) = valid_transaction tx /\
     get_tx_header_size (tx_set_signature k sig tx) = get_tx_header_size tx) ->
  block_equiv block (block_set_signature i k sig block).
Proof.
  intros Hsame. repeat split.
  cbn [transactions block_set_signature set_transactions].
  destruct (transactions block) as [arr|] eqn:Harr; [|constructor].
  cbn [fmap option_fmap option_map]. constructor.
  apply Forall2_same_length_lookup. split; [now rewrite length_alter|].
  intros j x y Hx Hy.
  destruct (decide (i = j)) as [->|Hne].
  - rewrite list_lookup_alter_eq, Hx in Hy. injection Hy as <-.
    destruct x as [tx|]; constructor.
    destruct (Hsame arr tx eq_refl Hx) as [Hv Hs].
    split; [apply tx_set_signature_similar|]. split; congruence.
  - rewrite list_lookup_alter_ne, Hx in Hy by exact Hne. injection Hy as <-.
    destruct x as [tx|]; constructor.
    split; [apply tx_similar_refl|]. split; reflexivity.
Qed.



(** **** The rest of block.c *)

(** [serialize_transaction] and [deserialize_transaction] of transaction.c,
    which is not under src/. A failed [deserialize_transaction] returns
    non-zero ([None]); a successful one stores a pointer through its
    out-parameter, which the caller asserts is not NULL. *)
Variable serialize_transaction : transaction_t -> Buffer.writer.
Variable deserialize_transaction : Buffer.reader (option transaction_t).

(** The result is what it returns and the buffer as it leaves it. *)
Definition serialize_transactions_from_block (block : block_t)
    (buffer : Buffer.buffer_t) : outcome (Z * Buffer.buffer_t) :=
  c ← for_each_index (transaction_count block)
        (fun i buffer =>
           tx ← block_tx block i;
           match tx with
           | None => Crash assertion_failed
           | Some tx =>
               let '(rc, buffer) := serialize_transaction tx buffer in
               if truth rc then Ret (Return (1, buffer))
               else Ret (Continue buffer)
           end)
        buffer;
  match c with
  | Return r => Ret r
  | Continue buffer => Ret (0, buffer)
  end.

(** The result is what it returns, the block as it leaves it and the read
    cursor (when a read fails, the cursor as it was before that read). The
    array is allocated for [transaction_count] entries and filled from
    index 0; an entry not yet written is modelled as NULL. *)
Definition deserialize_transactions_to_block
    (buffer_iterator : Buffer.buffer_iterator_t) (block : block_t)
    : outcome (Z * block_t * Buffer.buffer_iterator_t) :=
  if 0 <? transaction_count block
  then
    let block :=
      set_transactions (transaction_count block)
        (Some (replicate (Z.to_nat (transaction_count block)) None)) block in
    c ← for_each_index (transaction_count block)
          (fun i '(block, buffer_iterator) =>
             match deserialize_transaction buffer_iterator with
             | None => Ret (Return (1, block, buffer_iterator))
             | Some (None, _) => Crash assertion_failed
             | Some (Some tx, buffer_iterator) =>
                 Ret (Continue
                        (set_transactions (transaction_count block)
                           (<[Z.to_nat i := Some tx]> <$> transactions block)
                           block,
                         buffer_iterator))
             end)
          (block, buffer_iterator);
    match c with
    | Return r => Ret r
    | Continue (block, buffer_iterator) => Ret (0, block, buffer_iterator)
    end
  else Ret (0, block, buffer_iterator).

(** [tx] is the pointer the caller hands in, already known not to be NULL.
    The result is what it returns and the block as it leaves it. *)
Definition add_transaction_to_block (block : block_t) (tx : transaction_t)
    (tx_index : Z) : outcome (Z * block_t) :=
  let transaction_count' := to_uint32 (transaction_count block + 1) in
  if negb (tx_index =? to_uint32 (transaction_count' - 1))
  then Crash assertion_failed
  else
    let arr := realloc_transactions (transactions block) transaction_count' in
    if (Z.to_nat tx_index <? length arr)%nat
    then Ret (0, set_transactions transaction_count'
                   (Some (<[Z.to_nat tx_index := Some tx]> arr)) block)
    else Crash out_of_bounds.

Definition add_transactions_to_block (block : block_t)
    (transactions : list (option transaction_t)) (num_transactions : Z)
    : outcome (Z * block_t) :=
  c ← for_each_index num_transactions
        (fun i block =>
           tx ← array_get transactions i;
           match tx with
           | None => Crash assertion_failed
           | Some tx =>
               (* skip over the generation tx *)
               '(rc, block) ← add_transaction_to_block block tx (to_uint32 (i + 1));
               if truth rc then Ret (Return (1, block)) else Ret (Continue block)
           end)
        block;
  match c with
  | Return r => Ret r
  | Continue block => Ret (0, block)
  end.

(** The transaction found, or NULL. *)
Definition get_tx_by_hash_from_block (block : block_t) (tx_hash : list byte)
    : outcome (option transaction_t) :=
  c ← for_each_index (transaction_count block)
        (fun i (_ : unit) =>
           tx ← block_tx block i;
           match tx with
           | None => Crash assertion_failed
           | Some tx =>
               if truth (compare_hash (id tx) tx_hash)
               then Ret (Return (Some tx))
               else Ret (Continue tt)
           end)
        tt;
  match c with
  | Return r => Ret r
  | Continue _ => Ret None
  end.

(** Frees an allocated block, and its corresponding TXs. *)
Definition free_block (block : block_t) : outcome unit :=
  _ ← free_block_transactions block; Ret tt.

(** **** Further properties of [valid_block] *)

(** X1: in a block [valid_block] accepts, no two transactions share an id. *)
Theorem valid_block_distinct_txids (now : Z) (block : block_t) :
  valid_block now block = Ret 1 ->
  exists txs,
    block_transactions block = Some txs /\ NoDup (id <$> txs).
Proof.
  intros H. apply valid_block_accepts in H as (_ & Hcount & _ & Hloop & _).
  destruct (first_loop_transactions block Hcount Hloop) as (txs & Htxs & Hlen & Hall).
  exists txs. split; [exact Htxs|].
  apply NoDup_alt. intros i j h Hi Hj.
  apply list_lookup_fmap_Some in Hi as (tx1 & -> & Htx1).
  apply list_lookup_fmap_Some in Hj as (tx2 & Hid & Htx2).
  destruct (decide (i = j)) as [|Hne]; [assumption|exfalso].
  destruct (Hall i tx1 Htx1) as (_ & _ & Hsecond).
  destruct (Hall j tx2 Htx2) as (Hb2 & _ & _).
  apply lookup_lt_Some in Htx2 as Hj'.
  destruct (second_loop_Continue block _ tx1 Hsecond (Z.of_nat j))
    as (tx2' & Hb2' & Hdiff & _); [lia..|].
  rewrite Hb2 in Hb2'. injection Hb2' as <-. congruence.
Qed.

(** X2: a block [valid_block] accepts carries the hash and the Merkle root the
    code recomputes from it: [compute_block_hash] gives its [hash] field,
    [check_proof_of_work] accepts that hash under its [bits],
    [compute_merkle_root] gives its [merkle_root] field, its size is within
    [MAX_BLOCK_SIZE] and its timestamp within the drift bound. *)
Theorem valid_block_commitments (now : Z) (block : block_t) :
  valid_block now block = Ret 1 ->
  compute_block_hash block = Some (hash block) /\
  check_proof_of_work (hash block) (bits block) <> 0 /\
  compute_merkle_root block = Ret (Some (merkle_root block)) /\
  (exists size, get_block_header_size block = Ret size /\ size <= MAX_BLOCK_SIZE) /\
  timestamp block <= to_uint32 (now + MAX_FUTURE_BLOCK_TIME).
Proof.
  intros H.
  apply valid_block_accepts in H as (Ht & _ & _ & _ & Hsize & Hh & (ok & Hm & Hok)).
  unfold valid_block_hash in Hh.
  destruct (compute_block_hash block) as [expected|]; [|congruence].
  unfold compare_hash, truth, of_bool in Hh.
  destruct (decide (expected = hash block)) as [->|]; [|cbn in Hh; congruence].
  destruct (Z.eqb_spec (check_proof_of_work (hash block) (bits block)) 0) as [|Hpow];
    [cbn in Hh; congruence|].
  unfold valid_merkle_root in Hm.
  destruct (compute_merkle_root block) as [[root|]|f]; cbn [mbind outcome_bind] in Hm;
    [|congruence..].
  injection Hm as <-. unfold compare_hash in Hok.
  destruct (decide (root = merkle_root block)) as [->|]; [|congruence].
  unfold valid_block_timestamp, of_bool in Ht.
  destruct (Z.leb_spec (timestamp block) (to_uint32 (now + MAX_FUTURE_BLOCK_TIME)));
    [|congruence].
  repeat split; assumption.
Qed.

(** X3: [valid_block] answers 0 or 1 and nothing else; and it answers 0 for a
    block with no transaction or with a timestamp beyond the drift bound
    before it reads the transaction array, NULL or not. *)
Theorem valid_block_early_rejection (now : Z) (block : block_t) :
  (forall r, valid_block now block = Ret r -> r = 0 \/ r = 1) /\
  (transaction_count block < 1 -> valid_block now block = Ret 0) /\
  (to_uint32 (now + MAX_FUTURE_BLOCK_TIME) < timestamp block ->
   valid_block now block = Ret 0).
Proof.
  unfold valid_block, valid_block_timestamp, of_bool. split; [|split].
  - intros r H.
    destruct (_ =? 0); [left; congruence|].
    destruct (_ <? 1); [left; congruence|].
    destruct (block_tx block 0) as [[cb|]|f]; cbn [mbind outcome_bind] in H;
      [|left; congruence|discriminate].
    destruct (_ =? 0); [left; congruence|].
    destruct (valid_block_first_loop block) as [[[]|r']|f] eqn:Hloop;
      cbn [mbind outcome_bind] in H; [| |discriminate].
    + destruct (get_block_header_size block) as [size|f];
        cbn [mbind outcome_bind] in H; [|discriminate].
      destruct (_ <? size); [left; congruence|].
      destruct (_ =? 0); [left; congruence|].
      destruct (valid_merkle_root block) as [ok|f];
        cbn [mbind outcome_bind] in H; [|discriminate].
      destruct (ok =? 0); [left|right]; congruence.
    + apply first_loop_Return in Hloop. left. congruence.
  - intros Hc.
    destruct (_ =? 0); [reflexivity|].
    destruct (Z.ltb_spec (transaction_count block) 1); [reflexivity | lia].
  - intros Ht.
    destruct (Z.leb_spec (timestamp block) (to_uint32 (now + MAX_FUTURE_BLOCK_TIME)));
      [lia | reflexivity].
Qed.

(** **** Loops over the transactions of a block *)

Lemma block_transactions_Some (block : block_t) (txs : list transaction_t) :
  block_transactions block = Some txs ->
  length txs = Z.to_nat (transaction_count block) /\
  forall k tx, txs !! k = Some tx -> block_tx block (Z.of_nat k) = Ret (Some tx).
Proof.
  unfold block_transactions, block_tx, ptr_array_get.
  destruct (transactions block) as [arr|]; [|discriminate].
  cbn [mbind option_bind]. intros H.
  apply entries_Some in H as [Hlen Hlookup]. split; [exact Hlen|].
  intros k tx Hk. apply Hlookup in Hk as [_ Hk]. now apply array_get_lookup.
Qed.

Lemma block_tx_at (block : block_t) (txs : list transaction_t) (j : Z) :
  block_transactions block = Some txs ->
  0 <= j < Z.of_nat (Z.to_nat (transaction_count block)) ->
  exists tx, txs !! Z.to_nat j = Some tx /\ block_tx block j = Ret (Some tx).
Proof.
  intros H Hj. apply block_transactions_Some in H as [Hlen Hget].
  destruct (lookup_lt_is_Some_2 txs (Z.to_nat j)) as [tx Htx]; [lia|].
  exists tx. split; [exact Htx|].
  apply Hget in Htx. now rewrite Z2Nat.id in Htx by lia.
Qed.

Definition sum_Z (l : list Z) : Z := fold_right Z.add 0 l.

Lemma sum_Z_app (l1 l2 : list Z) : sum_Z (l1 ++ l2) = sum_Z l1 + sum_Z l2.
Proof.
  induction l1 as [|x l1 IH]; cbn [app sum_Z fold_right]; [reflexivity|].
  fold (sum_Z (l1 ++ l2)). fold (sum_Z l1). lia.
Qed.

(** **** [get_block_header_size] *)

(** X6: the size [get_block_header_size] reports for a block whose transactions
    are all present is [BLOCK_HEADER_SIZE] plus the header sizes of its
    transactions, reduced modulo 2^32: the sum is taken in [uint32_t]. *)
Theorem get_block_header_size_sum (block : block_t) (txs : list transaction_t) :
  block_transactions block = Some txs ->
  get_block_header_size block
  = Ret (to_uint32 (BLOCK_HEADER_SIZE + sum_Z (get_tx_header_size <$> txs))).
Proof.
  intros Htxs. unfold get_block_header_size, for_each_index.
  pose proof (block_transactions_Some block txs Htxs) as [Hlen _].
  set (body := fun (i : Z) (block_header_size : Z) => _).
  destruct (for_loop_invariant (R := Empty_set)
              (fun j s => s = to_uint32 (BLOCK_HEADER_SIZE
                            + sum_Z (get_tx_header_size <$> take (Z.to_nat j) txs)))
              (Z.to_nat (transaction_count block)) 0 body BLOCK_HEADER_SIZE)
    as (s & Hloop & Hs).
  - reflexivity.
  - intros j s Hj ->. subst body. cbn beta.
    destruct (block_tx_at block txs j Htxs) as (tx & Htx & Hb); [lia|].
    rewrite Hb. cbn [mbind outcome_bind]. eexists. split; [reflexivity|].
    replace (Z.to_nat (j + 1)) with (Datatypes.S (Z.to_nat j)) by lia.
    rewrite (take_S_r _ _ _ Htx), fmap_app, sum_Z_app.
    cbn [fmap list_fmap sum_Z fold_right]. unfold to_uint32.
    rewrite Z.add_mod_idemp_l by lia. f_equal. lia.
  - rewrite Hloop. cbn [mbind outcome_bind loop_state]. rewrite Hs.
    rewrite Z.add_0_l, Nat2Z.id, <- Hlen, take_ge by lia. reflexivity.
Qed.

(** **** [compute_merkle_root] *)

(** The loop of [compute_merkle_root] over the transactions [txs] from
    index [i] on: the ids appended to the buffer, or the [return 1] at the
    first transaction whose id cannot be computed. *)
Lemma compute_merkle_root_loop (block : block_t) (txs : list transaction_t)
    (i : Z) (hashes : list byte) :
  (forall k tx, txs !! k = Some tx ->
     block_tx block (i + Z.of_nat k) = Ret (Some tx)) ->
  for_loop (length txs) i
    (fun i hashes =>
       tx ← block_tx block i;
       match tx with
       | None => Crash assertion_failed
       | Some tx =>
           match compute_tx_id tx with
           | None => Ret (Return (@None (list byte)))
           | Some h => Ret (Continue (hashes ++ h))
           end
       end)
    hashes
  = Ret (match mapM compute_tx_id txs with
         | Some ids => Continue (hashes ++ concat ids)
         | None => Return None
         end).
Proof.
  revert i hashes. induction txs as [|tx txs IH]; intros i hashes Hget.
  - cbn [length for_loop mapM mret option_ret concat]. now rewrite app_nil_r.
  - cbn [length]. rewrite for_loop_S.
    pose proof (Hget 0%nat tx eq_refl) as H0. rewrite Z.add_0_r in H0.
    rewrite H0. cbn [mbind outcome_bind mapM option_bind].
    destruct (compute_tx_id tx) as [h|]; cbn [mbind outcome_bind option_bind];
      [|reflexivity].
    rewrite IH.
    + destruct (mapM compute_tx_id txs) as [ids|];
        cbn [mbind option_bind mret option_ret concat]; [|reflexivity].
      now rewrite app_assoc.
    + intros k tx' Hk. specialize (Hget (Datatypes.S k) tx' Hk).
      now replace (i + 1 + Z.of_nat k) with (i + Z.of_nat (Datatypes.S k)) by lia.
Qed.

Lemma compute_merkle_root_run (block : block_t) (txs : list transaction_t) :
  block_transactions block = Some txs ->
  compute_merkle_root block =
  match mapM compute_tx_id txs with
  | Some ids =>
      tree ← Merkle.construct_merkle_tree_from_leaves crypto_hash_sha256d
               (concat ids) (transaction_count block);
      match tree with
      | None => Crash assertion_failed
      | Some tree => Ret (Some (Merkle.hash (Merkle.root tree)))
      end
  | None => Ret None
  end.
Proof.
  intros Htxs. apply block_transactions_Some in Htxs as [Hlen Hget].
  unfold compute_merkle_root, for_each_index. rewrite <- Hlen.
  rewrite (compute_merkle_root_loop block txs 0 []) by exact Hget.
  cbn [mbind outcome_bind app].
  destruct (mapM compute_tx_id txs); reflexivity.
Qed.

(** X7: for a block of at least one and fewer than [2^27] transactions, all
    present, whose ids are computed and are 32 bytes each,
    [compute_merkle_root] stores the hash of the root of the Merkle tree
    over those ids, in transaction order. Below [2^27] neither the size of
    the buffer of ids nor an offset into it wraps. *)
Theorem compute_merkle_root_of_txids (block : block_t)
    (txs : list transaction_t) (ids : list (list byte)) :
  block_transactions block = Some txs ->
  1 <= transaction_count block < 2 ^ 27 ->
  mapM compute_tx_id txs = Some ids ->
  Forall hash_wf ids ->
  exists root,
    Merkle.merkle_root_node crypto_hash_sha256d ids = Some root /\
    compute_merkle_root block = Ret (Some (Merkle.hash root)).
Proof.
  intros Htxs Hcount Hids Hwf.
  rewrite (compute_merkle_root_run block txs Htxs), Hids.
  apply block_transactions_Some in Htxs as [Hlen _].
  apply length_mapM in Hids.
  assert (Hn : transaction_count block = Z.of_nat (length ids)) by lia.
  destruct (Merkle.construct_merkle_tree_spec crypto_hash_sha256d ids Hwf)
    as (root & Hroot & Htree); [lia..|].
  exists root. split; [exact Hroot|].
  rewrite Hn, Htree. reflexivity.
Qed.


(** Modelled from the spec: rule (2) of [valid_transaction]. *)
Lemma valid_transaction_txid (tx : transaction_t) :
  valid_transaction tx <> 0 -> compute_tx_id tx = Some (id tx).
Proof.
  unfold Transaction.valid_transaction, Transaction.compute_tx_id.
  destruct (tx_inputs tx) as [ins|]; [|congruence].
  destruct (tx_outputs tx) as [outs|]; [|congruence].
  destruct (get_tx_sign_header tx) as [preimage|]; [|congruence].
  destruct (_ && _) eqn:E; [|congruence].
  intros _. repeat (apply andb_true_iff in E as [E ?]).
  match goal with H : bool_decide _ = true |- _ => apply bool_decide_eq_true in H end.
  cbn [fmap option_fmap option_map]. congruence.
Qed.

(** What [valid_block] has checked of the Merkle root when it accepts. *)
Lemma valid_block_merkle_root (now : Z) (block : block_t) :
  (forall m, hash_wf (crypto_hash_sha256d m)) ->
  transaction_count block < 2 ^ 27 ->
  valid_block now block = Ret 1 ->
  exists txs root,
    block_transactions block = Some txs /\
    Forall (fun tx => valid_transaction tx <> 0) txs /\
    Forall hash_wf (id <$> txs) /\
    Merkle.merkle_root_node crypto_hash_sha256d (id <$> txs) = Some root /\
    merkle_root block = Merkle.hash root.
Proof.
  intros Hsha Hmax H.
  apply valid_block_accepts in H as (_ & Hcount & _ & Hloop & _ & _ & (ok & Hm & Hok)).
  destruct (first_loop_transactions block Hcount Hloop) as (txs & Htxs & Hlen & Hall).
  assert (Hvalid : Forall (fun tx => valid_transaction tx <> 0) txs).
  { apply Forall_lookup. intros i tx Hi. now destruct (Hall i tx Hi) as (_ & Hv & _). }
  assert (Hids : mapM compute_tx_id txs = Some (id <$> txs)).
  { apply mapM_Some_2. clear -Hvalid.
    induction Hvalid as [|tx txs Hv _ IH]; constructor; [|exact IH].
    now apply valid_transaction_txid. }
  assert (Hwf : Forall hash_wf (id <$> txs)).
  { apply Forall_fmap. eapply list.Forall_impl; [exact Hvalid|].
    intros tx Hv. unfold compose. apply valid_transaction_txid in Hv.
    unfold Transaction.compute_tx_id in Hv.
    destruct (get_tx_sign_header tx) as [preimage|]; [|discriminate].
    injection Hv as <-. apply Hsha. }
  destruct (Merkle.construct_merkle_tree_spec crypto_hash_sha256d (id <$> txs) Hwf)
    as (root & Hroot & Htree); [rewrite length_fmap; lia..|].
  exists txs, root. split; [exact Htxs|]. split; [exact Hvalid|].
  split; [exact Hwf|]. split; [exact Hroot|].
  unfold valid_merkle_root in Hm.
  rewrite (compute_merkle_root_run block txs Htxs), Hids in Hm.
  rewrite length_fmap in Htree.
  replace (transaction_count block) with (Z.of_nat (length txs)) in Hm by lia.
  rewrite Htree in Hm. cbn [mbind outcome_bind Merkle.root] in Hm.
  injection Hm as <-. unfold compare_hash in Hok.
  destruct (decide (Merkle.hash root = merkle_root block)); congruence.
Qed.

(** X4: the [merkle_root] field of a block of fewer than [2^27]
    transactions that [valid_block] accepts is the hash of the root of the
    Merkle tree over the [id] fields of its transactions, in block order,
    every one of which [valid_transaction] accepts. *)
Theorem valid_block_merkle_commitment (now : Z) (block : block_t) :
  (forall m, hash_wf (crypto_hash_sha256d m)) ->
  transaction_count block < 2 ^ 27 ->
  valid_block now block = Ret 1 ->
  exists txs root,
    block_transactions block = Some txs /\
    Forall (fun tx => valid_transaction tx <> 0) txs /\
    Merkle.merkle_root_node crypto_hash_sha256d (id <$> txs) = Some root /\
    merkle_root block = Merkle.hash root.
Proof.
  intros Hsha Hmax H.
  destruct (valid_block_merkle_root now block Hsha Hmax H)
    as (txs & root & Htxs & Hvalid & _ & Hroot & Hm).
  exists txs, root. auto.
Qed.

Lemma compute_tx_id_wf (tx : transaction_t) (h : list byte) :
  (forall m, hash_wf (crypto_hash_sha256d m)) ->
  compute_tx_id tx = Some h -> hash_wf h.
Proof.
  intros Hsha. unfold Transaction.compute_tx_id.
  destruct (get_tx_sign_header tx) as [preimage|]; [|discriminate].
  intros [= <-]. apply Hsha.
Qed.

Lemma mapM_compute_tx_id_wf (txs : list transaction_t) (ids : list (list byte)) :
  (forall m, hash_wf (crypto_hash_sha256d m)) ->
  mapM compute_tx_id txs = Some ids -> Forall hash_wf ids.
Proof.
  intros Hsha Hids. apply mapM_Some_1 in Hids.
  induction Hids as [|tx h l k Hh _ IH]; constructor; [|exact IH].
  now apply (compute_tx_id_wf tx).
Qed.


(** **** [compare_block] *)

(** The nine fields [compare_block] compares before it looks at the
    transactions. *)
Definition same_fields (block other_block : block_t) : Prop :=
  version block = version other_block /\
  previous_hash block = previous_hash other_block /\
  hash block = hash other_block /\
  timestamp block = timestamp other_block /\
  nonce block = nonce other_block /\
  bits block = bits other_block /\
  cumulative_emission block = cumulative_emission other_block /\
  merkle_root block = merkle_root other_block /\
  transaction_count block = transaction_count other_block.

Lemma compare_hash_true (a b : list byte) : truth (compare_hash a b) = true <-> a = b.
Proof.
  unfold truth, compare_hash. destruct (decide (a = b)); cbn; split; congruence.
Qed.

Lemma compare_block_fields (block other_block : block_t) :
  (version block =? version other_block)
  && truth (compare_hash (previous_hash block) (previous_hash other_block))
  && truth (compare_hash (hash block) (hash other_block))
  && (timestamp block =? timestamp other_block)
  && (nonce block =? nonce other_block)
  && (bits block =? bits other_block)
  && (cumulative_emission block =? cumulative_emission other_block)
  && truth (compare_hash (merkle_root block) (merkle_root other_block))
  && (transaction_count block =? transaction_count other_block) = true
  <-> same_fields block other_block.
Proof.
  unfold same_fields.
  rewrite !andb_true_iff, !Z.eqb_eq, !compare_hash_true.
  split; [intros ((((((((?&?)&?)&?)&?)&?)&?)&?)&?) | intros (?&?&?&?&?&?&?&?&?)];
    repeat split; assumption.
Qed.

(** X9: [compare_block] answers 0 for two blocks that differ in one of the nine
    fields without reading a transaction of either. For two blocks whose
    transactions are all present it answers 0 or 1, and 1 iff the nine
    fields are equal and [compare_transaction] is non-zero on the
    transactions at every position. *)
Theorem compare_block_equal (block other_block : block_t) :
  (~ same_fields block other_block -> compare_block block other_block = Ret 0) /\
  (forall txs other_txs,
     block_transactions block = Some txs ->
     block_transactions other_block = Some other_txs ->
     exists r,
       compare_block block other_block = Ret r /\ (r = 0 \/ r = 1) /\
       (r = 1 <->
        same_fields block other_block /\
        Forall2 (fun tx other_tx => compare_transaction tx other_tx <> 0)
          txs other_txs)).
Proof.
  unfold compare_block.
  pose proof (compare_block_fields block other_block) as Hf.
  destruct (_ && _) eqn:E.
  2:{ split; [reflexivity|]. intros txs other_txs _ _. exists 0.
      split; [reflexivity|]. split; [left; reflexivity|].
      split; [discriminate|]. intros [Hs _]. apply Hf in Hs. discriminate. }
  assert (Hsame : same_fields block other_block) by now apply Hf.
  split; [intros Hn; now destruct Hn|].
  intros txs other_txs Htxs Hother. cbn [negb].
  pose proof (block_transactions_Some _ _ Htxs) as [Hlen _].
  pose proof (block_transactions_Some _ _ Hother) as [Hlen' _].
  assert (Hcount : transaction_count block = transaction_count other_block)
    by apply Hsame.
  unfold for_each_index.
  set (body := fun (tx_index : Z) (_ : unit) => _).
  assert (Hbody : forall j, 0 <= j < 0 + Z.of_nat (Z.to_nat (transaction_count block)) ->
            exists tx other_tx,
              txs !! Z.to_nat j = Some tx /\ other_txs !! Z.to_nat j = Some other_tx /\
              body j tt = if compare_transaction tx other_tx =? 0
                          then Ret (Return 0) else Ret (Continue tt)).
  { intros j Hj.
    destruct (block_tx_at block txs j Htxs) as (tx & Htx & Hb); [lia|].
    destruct (block_tx_at other_block other_txs j Hother) as (tx' & Htx' & Hb'); [lia|].
    exists tx, tx'. split; [exact Htx|]. split; [exact Htx'|].
    subst body. cbn beta. rewrite Hb. cbn [mbind outcome_bind].
    rewrite Hb'. reflexivity. }
  destruct (for_loop_total (Z.to_nat (transaction_count block)) 0 body) as [c Hc].
  { intros j Hj. destruct (Hbody j Hj) as (tx & tx' & _ & _ & ->).
    destruct (_ =? 0); eexists; reflexivity. }
  rewrite Hc. cbn [mbind outcome_bind].
  destruct c as [[]|r].
  - exists 1. split; [reflexivity|]. split; [right; reflexivity|].
    split; [|reflexivity]. intros _. split; [exact Hsame|].
    apply Forall2_same_length_lookup. split; [lia|].
    intros k tx tx' Hk Hk'.
    apply lookup_lt_Some in Hk as Hlt.
    apply (proj1 (for_loop_Continue _ _ _)) with (j := Z.of_nat k) in Hc; [|lia].
    destruct (Hbody (Z.of_nat k)) as (t & t' & Ht & Ht' & Hb); [lia|].
    rewrite Nat2Z.id in Ht, Ht'. rewrite Hk in Ht. rewrite Hk' in Ht'.
    injection Ht as <-. injection Ht' as <-. rewrite Hb in Hc.
    destruct (Z.eqb_spec (compare_transaction tx tx') 0); [discriminate | assumption].
  - apply for_loop_Return in Hc as (j & [] & Hj & Hr).
    destruct (Hbody j Hj) as (tx & tx' & Ht & Ht' & Hb). rewrite Hb in Hr.
    destruct (Z.eqb_spec (compare_transaction tx tx') 0) as [Hz|]; [|discriminate].
    injection Hr as <-. exists 0. split; [reflexivity|]. split; [left; reflexivity|].
    split; [discriminate|]. intros [_ Hall].
    destruct (Forall2_lookup_l _ _ _ _ _ Hall Ht) as (y & Hy & Hne).
    rewrite Ht' in Hy. injection Hy as <-. contradiction.
Qed.

(** **** [free_block_transactions] *)

(** X11: a block [free_block_transactions] has returned from has no transaction
    to read, and freeing it a second time changes nothing and reads
    nothing; on a block whose transactions are all present the call
    returns. *)
Theorem free_block_transactions_idempotent (block : block_t) :
  (forall block',
     free_block_transactions block = Ret block' ->
     (transaction_count block' <= 0 \/ transactions block' = None) /\
     free_block_transactions block' = Ret block') /\
  (forall txs,
     block_transactions block = Some txs ->
     exists block', free_block_transactions block = Ret block').
Proof.
  split.
  - intros block'. unfold free_block_transactions at 1.
    destruct (_ && _) eqn:E.
    + intros H. apply bind_Ret in H as (c & _ & H). injection H as <-.
      split; [left; cbn; lia | reflexivity].
    + intros [= <-]. split.
      * apply andb_false_iff in E as [E|E].
        -- left. now apply Z.ltb_ge in E.
        -- right. apply bool_decide_eq_false in E.
           destruct (transactions block); [|reflexivity].
           destruct E. eexists; reflexivity.
      * unfold free_block_transactions. now rewrite E.
  - intros txs Htxs. unfold free_block_transactions.
    destruct (_ && _); [|eexists; reflexivity].
    unfold for_each_index.
    destruct (for_loop_invariant (R := Empty_set) (fun _ _ => True)
                (Z.to_nat (transaction_count block)) 0
                (fun i (_ : unit) =>
                   tx ← block_tx block i;
                   match tx with
                   | None => Crash assertion_failed
                   | Some _ => Ret (Continue tt)
                   end) tt I) as (s & Hloop & _).
    + intros j [] Hj _.
      destruct (block_tx_at block txs j Htxs) as (tx & _ & Hb); [lia|].
      rewrite Hb. exists tt. split; [reflexivity | exact I].
    + rewrite Hloop. eexists; reflexivity.
Qed.

(** **** [copy_block] *)

Lemma compare_block_self_fields (block other_block : block_t) :
  transaction_count block = 0 ->
  compare_block block (copy_block_fields block other_block) = Ret 1.
Proof.
  intros Hcount. unfold compare_block.
  replace (_ && _) with true.
  - cbn [negb]. unfold for_each_index. rewrite Hcount. reflexivity.
  - symmetry. apply compare_block_fields. repeat split.
Qed.

(** X10: [copy_block] from a block with no transaction returns 0 and leaves the
    destination with the source's nine fields and with the transaction
    array it had, which is not freed. From a block that announces
    transactions and has a NULL array it never returns 0. *)
Theorem copy_block_without_transactions (block other_block : block_t) :
  (transaction_count block = 0 ->
   copy_block block other_block = Ret (0, copy_block_fields block other_block)) /\
  (0 < transaction_count block -> transactions block = None ->
   forall other_block', copy_block block other_block <> Ret (0, other_block')).
Proof.
  split.
  - intros Hcount. unfold copy_block, copy_block_transactions, free_block_transactions.
    cbn [copy_block_fields transaction_count]. rewrite Hcount.
    cbn [Z.ltb Z.compare andb mbind outcome_bind truth Z.eqb negb].
    rewrite compare_block_self_fields by exact Hcount. reflexivity.
  - intros Hcount Hnull other_block'. unfold copy_block, copy_block_transactions.
    destruct (free_block_transactions (copy_block_fields block other_block))
      as [freed|f] eqn:Hfree; [|discriminate].
    cbn [mbind outcome_bind].
    assert (Hdec : bool_decide (is_Some (transactions block)) = false)
      by (apply bool_decide_eq_false; rewrite Hnull; apply is_Some_None).
    rewrite Hdec, andb_false_r.
    cbn [mbind outcome_bind truth Z.eqb negb].
    unfold free_block_transactions in Hfree.
    cbn [copy_block_fields transaction_count transactions] in Hfree.
    destruct (_ && _) eqn:E.
    + apply bind_Ret in Hfree as (c & _ & Hfree). injection Hfree as <-.
      unfold compare_block.
      replace (_ && _) with false.
      * cbn [negb mbind outcome_bind Z.eqb]. discriminate.
      * symmetry. apply not_true_iff_false. intros Hs.
        apply compare_block_fields in Hs.
        destruct Hs as (_ & _ & _ & _ & _ & _ & _ & _ & Hs). cbn in Hs. lia.
    + injection Hfree as <-. unfold compare_block.
      replace (_ && _) with true
        by (symmetry; apply compare_block_fields; repeat split).
      cbn [negb]. unfold for_each_index.
      destruct (Z.to_nat (transaction_count block)) as [|n] eqn:Hn; [lia|].
      rewrite for_loop_S. cbn beta.
      assert (Hb : block_tx block 0 = Crash null_dereference)
        by (unfold block_tx; now rewrite Hnull).
      rewrite Hb. cbn [mbind outcome_bind]. discriminate.
Qed.

(** **** The block hash *)

(** The seven fields [serialize_block_header] writes. *)
Definition same_header (block other_block : block_t) : Prop :=
  version block = version other_block /\
  timestamp block = timestamp other_block /\
  nonce block = nonce other_block /\
  bits block = bits other_block /\
  cumulative_emission block = cumulative_emission other_block /\
  previous_hash block = previous_hash other_block /\
  merkle_root block = merkle_root other_block.

(** They fit their C types. *)
Definition header_wf (block : block_t) : Prop :=
  is_uint32 (version block) /\ is_uint32 (timestamp block) /\
  is_uint32 (nonce block) /\ is_uint32 (bits block) /\
  is_uint64 (cumulative_emission block) /\
  hash_wf (previous_hash block) /\ hash_wf (merkle_root block).

(** The bytes [compute_block_hash] hashes: the 88 header bytes, and the 4
    bytes of the buffer's allocation behind them. *)
Lemma compute_block_hash_bytes (block : block_t) :
  hash_wf (previous_hash block) -> hash_wf (merkle_root block) ->
  compute_block_hash block
  = Some (crypto_hash_sha256d
            (block_header_bytes block
             ++ drop 88 (resize (Z.to_nat BLOCK_HEADER_SIZE) x00 heap_bytes))).
Proof.
  intros Hp Hm.
  pose proof (length_block_header_bytes block Hp Hm) as Hlen.
  unfold compute_block_hash, Buffer.buffer_init_size.
  rewrite serialize_block_header_appends by assumption.
  cbn [truth Z.eqb negb Buffer.data Buffer.spare app].
  unfold Buffer.buffer_bytes. cbn [Buffer.data Buffer.spare].
  rewrite Hlen, take_ge; [reflexivity|].
  rewrite length_app, length_drop, length_resize, Hlen. vm_compute. lia.
Qed.

Lemma encode_le_uint32_inj (v w : Z) :
  is_uint32 v -> is_uint32 w -> encode_le 4 v = encode_le 4 w -> v = w.
Proof.
  intros Hv Hw E. apply (f_equal decode_le) in E.
  now rewrite !decode_encode_uint32 in E by assumption.
Qed.

Lemma encode_le_uint64_inj (v w : Z) :
  is_uint64 v -> is_uint64 w -> encode_le 8 v = encode_le 8 w -> v = w.
Proof.
  intros Hv Hw E. apply (f_equal decode_le) in E.
  now rewrite !decode_encode_uint64 in E by assumption.
Qed.

Lemma block_header_bytes_inj (block other_block : block_t) :
  header_wf block -> header_wf other_block ->
  block_header_bytes block = block_header_bytes other_block ->
  same_header block other_block.
Proof.
  intros (Hv & Ht & Hn & Hb & Hc & Hp & Hm) (Hv' & Ht' & Hn' & Hb' & Hc' & Hp' & Hm').
  unfold block_header_bytes. intros E.
  apply app_inj_1 in E as [Ev E]; [|now rewrite !length_encode_le].
  apply app_inj_1 in E as [Et E]; [|now rewrite !length_encode_le].
  apply app_inj_1 in E as [En E]; [|now rewrite !length_encode_le].
  apply app_inj_1 in E as [Eb E]; [|now rewrite !length_encode_le].
  apply app_inj_1 in E as [Ec E]; [|now rewrite !length_encode_le].
  apply app_inj_1 in E as [Ep Em]; [|now rewrite Hp, Hp'].
  repeat split;
    auto using encode_le_uint32_inj, encode_le_uint64_inj.
Qed.


(** **** [add_transaction_to_block] and [add_transactions_to_block] *)

(** On a block whose array holds [transaction_count] entries (a NULL array
    holds none), [add_transaction_to_block] appends [tx] when [tx_index] is
    the old count, and stops at its assertion otherwise. *)
Lemma add_transaction_to_block_run (block : block_t) (tx : transaction_t)
    (tx_index : Z) :
  Z.of_nat (length (default [] (transactions block))) = transaction_count block ->
  transaction_count block + 1 < 2 ^ 32 ->
  add_transaction_to_block block tx tx_index =
  if tx_index =? transaction_count block
  then Ret (0, set_transactions (transaction_count block + 1)
                 (Some (default [] (transactions block) ++ [Some tx])) block)
  else Crash assertion_failed.
Proof.
  intros Hlen Hmax. unfold add_transaction_to_block, realloc_transactions.
  set (arr := default [] (transactions block)) in *.
  assert (H1 : to_uint32 (transaction_count block + 1) = transaction_count block + 1)
    by (apply Z.mod_small; lia).
  rewrite H1.
  assert (H2 : to_uint32 (transaction_count block + 1 - 1) = transaction_count block)
    by (unfold to_uint32; rewrite Z.mod_small by lia; lia).
  rewrite H2.
  destruct (Z.eqb_spec tx_index (transaction_count block)) as [->|_]; [|reflexivity].
  cbn [negb].
  rewrite resize_ge by lia.
  replace (Z.to_nat (transaction_count block + 1) - length arr)%nat with 1%nat by lia.
  cbn [replicate].
  destruct (Nat.ltb_spec (Z.to_nat (transaction_count block)) (length (arr ++ [None])))
    as [_|Hge]; [|rewrite length_app in Hge; cbn [length] in Hge; lia].
  rewrite insert_app_r_alt by lia.
  replace (Z.to_nat (transaction_count block) - length arr)%nat with 0%nat by lia.
  reflexivity.
Qed.

(** X13: [add_transactions_to_block] hands transaction [i] of its argument to
    [add_transaction_to_block] with index [i + 1]. On a block that holds
    exactly one transaction it appends the given transactions behind it, in
    order; on a block that holds none or more than one it stops at the
    assertion of [add_transaction_to_block] with the first transaction. *)
Theorem add_transactions_to_block_after_first (block : block_t)
    (pointers : list (option transaction_t)) (num_transactions : Z)
    (new : list transaction_t) :
  Z.of_nat (length (default [] (transactions block))) = transaction_count block ->
  entries num_transactions pointers = Some new ->
  transaction_count block + Z.of_nat (length new) < 2 ^ 32 ->
  (transaction_count block = 1 ->
   add_transactions_to_block block pointers num_transactions
   = Ret (0, set_transactions (1 + Z.of_nat (length new))
               (Some (default [] (transactions block) ++ (Some <$> new))) block)) /\
  (transaction_count block <> 1 -> new <> [] ->
   add_transactions_to_block block pointers num_transactions
   = Crash assertion_failed).
Proof.
  intros Hlen Hnew Hmax.
  apply entries_Some in Hnew as [Hnum Hget].
  set (arr := default [] (transactions block)) in *.
  unfold add_transactions_to_block, for_each_index. split.
  - intros Hone.
    set (body := fun (i : Z) (block : block_t) => _).
    destruct (for_loop_invariant
                (fun j blk => blk = set_transactions (1 + j)
                                      (Some (arr ++ (Some <$> take (Z.to_nat j) new)))
                                      block)
                (Z.to_nat num_transactions) 0 body block) as (blk & Hloop & Hblk).
    + cbn [Z.to_nat take fmap list_fmap]. rewrite app_nil_r. subst arr.
      destruct block as [? ? ? ? ? ? ? ? count [txs|]]; cbn in *; [|lia].
      rewrite Hone. reflexivity.
    + intros j blk Hj ->. subst body. cbn beta.
      destruct (lookup_lt_is_Some_2 new (Z.to_nat j)) as [tx Htx]; [lia|].
      pose proof (proj1 (Hget _ _) Htx) as [_ Hp].
      apply array_get_lookup in Hp. rewrite Z2Nat.id in Hp by lia.
      rewrite Hp. cbn [mbind outcome_bind].
      assert (Hidx : to_uint32 (j + 1) = j + 1) by (apply Z.mod_small; lia).
      rewrite Hidx, add_transaction_to_block_run.
      * cbn [set_transactions transaction_count transactions default].
        replace (j + 1 =? 1 + j) with true by (symmetry; apply Z.eqb_eq; lia).
        cbn [mbind outcome_bind truth Z.eqb negb].
        eexists. split; [reflexivity|].
        replace (Z.to_nat (j + 1)) with (Datatypes.S (Z.to_nat j)) by lia.
        rewrite (take_S_r _ _ _ Htx), fmap_app, app_assoc.
        cbn [fmap list_fmap]. unfold set_transactions, Datatypes.id.
        cbn [version previous_hash hash timestamp nonce bits cumulative_emission
             merkle_root].
        f_equal. lia.
      * cbn [set_transactions transaction_count transactions default].
        unfold Datatypes.id. rewrite length_app, length_fmap, length_take. lia.
      * cbn [set_transactions transaction_count]. lia.
    + rewrite Hloop. cbn [mbind outcome_bind]. rewrite Hblk.
      rewrite Z.add_0_l, Nat2Z.id, <- Hnum, take_ge by lia.
      repeat f_equal; lia.
  - intros Hmany Hne.
    destruct new as [|tx new]; [contradiction|]. cbn [length] in Hnum.
    rewrite <- Hnum, for_loop_S.
    pose proof (proj1 (Hget 0%nat tx) eq_refl) as [_ Hp].
    apply (array_get_lookup pointers 0%nat) in Hp.
    change (Z.of_nat 0) with 0 in Hp. rewrite Hp.
    cbn [mbind outcome_bind].
    rewrite add_transaction_to_block_run
      by (try exact Hlen; cbn [length] in Hmax; lia).
    change (to_uint32 (0 + 1)) with 1.
    destruct (Z.eqb_spec 1 (transaction_count block)) as [E|_]; [|reflexivity].
    now destruct Hmany.
Qed.

(** **** [get_tx_by_hash_from_block] *)

Lemma get_tx_by_hash_loop (block : block_t) (txs : list transaction_t) (i : Z)
    (tx_hash : list byte) :
  (forall k tx, txs !! k = Some tx ->
     block_tx block (i + Z.of_nat k) = Ret (Some tx)) ->
  for_loop (length txs) i
    (fun i (_ : unit) =>
       tx ← block_tx block i;
       match tx with
       | None => Crash assertion_failed
       | Some tx =>
           if truth (compare_hash (id tx) tx_hash)
           then Ret (Return (Some tx))
           else Ret (Continue tt)
       end)
    tt
  = Ret (match list_find (fun tx => id tx = tx_hash) txs with
         | Some (_, tx) => Return (Some tx)
         | None => Continue tt
         end).
Proof.
  revert i. induction txs as [|tx txs IH]; intros i Hget; [reflexivity|].
  cbn [length]. rewrite for_loop_S.
  pose proof (Hget 0%nat tx eq_refl) as H0. rewrite Z.add_0_r in H0.
  rewrite H0. cbn [mbind outcome_bind list_find].
  unfold compare_hash, truth.
  destruct (decide (id tx = tx_hash)) as [Heq|Hne]; cbn [Z.eqb negb];
    [reflexivity|].
  cbn [mbind outcome_bind]. rewrite IH.
  - destruct (list_find _ txs) as [[k y]|]; reflexivity.
  - intros k tx' Hk. specialize (Hget (Datatypes.S k) tx' Hk).
    now replace (i + 1 + Z.of_nat k) with (i + Z.of_nat (Datatypes.S k)) by lia.
Qed.

Lemma get_tx_by_hash_find (block : block_t) (txs : list transaction_t)
    (tx_hash : list byte) :
  block_transactions block = Some txs ->
  get_tx_by_hash_from_block block tx_hash
  = Ret (snd <$> list_find (fun tx => id tx = tx_hash) txs).
Proof.
  intros Htxs. apply block_transactions_Some in Htxs as [Hlen Hget].
  unfold get_tx_by_hash_from_block, for_each_index. rewrite <- Hlen.
  rewrite (get_tx_by_hash_loop block txs 0 tx_hash) by exact Hget.
  cbn [mbind outcome_bind].
  destruct (list_find _ txs) as [[k y]|]; reflexivity.
Qed.

(** X14: on a block whose transactions are all present,
    [get_tx_by_hash_from_block] returns the first transaction whose [id] is
    the hash asked for, and NULL exactly when no transaction has that id. *)
Theorem get_tx_by_hash_from_block_first_match (block : block_t)
    (txs : list transaction_t) (tx_hash : list byte) :
  block_transactions block = Some txs ->
  exists r,
    get_tx_by_hash_from_block block tx_hash = Ret r /\
    match r with
    | Some tx =>
        exists i, txs !! i = Some tx /\ id tx = tx_hash /\
                  forall j tx', txs !! j = Some tx' -> (j < i)%nat -> id tx' <> tx_hash
    | None => Forall (fun tx => id tx <> tx_hash) txs
    end.
Proof.
  intros Htxs. rewrite (get_tx_by_hash_find block txs tx_hash Htxs).
  eexists. split; [reflexivity|].
  destruct (list_find _ txs) as [[i tx]|] eqn:Hfind; cbn [fmap option_fmap option_map snd].
  - apply list_find_Some in Hfind as (Hi & Hid & Hfirst). exists i. auto.
  - now apply list_find_None in Hfind.
Qed.

(** X5: in a block [valid_block] accepts, looking a transaction up by its [id]
    gives back that transaction. *)
Theorem valid_block_lookup_by_id (now : Z) (block : block_t) (i : Z)
    (tx : transaction_t) :
  valid_block now block = Ret 1 ->
  0 <= i < transaction_count block ->
  block_tx block i = Ret (Some tx) ->
  get_tx_by_hash_from_block block (id tx) = Ret (Some tx).
Proof.
  intros H Hi Htx. apply valid_block_accepts in H as (_ & Hcount & _ & Hloop & _).
  destruct (first_loop_transactions block Hcount Hloop) as (txs & Htxs & Hlen & Hall).
  rewrite (get_tx_by_hash_find block txs (id tx) Htxs).
  destruct (lookup_lt_is_Some_2 txs (Z.to_nat i)) as [tx' Hi']; [lia|].
  destruct (Hall _ _ Hi') as (Hb & _ & Hsecond).
  rewrite Z2Nat.id in Hb, Hsecond by lia.
  rewrite Htx in Hb. injection Hb as <-.
  destruct (list_find _ txs) as [[j y]|] eqn:Hfind.
  - apply list_find_Some in Hfind as (Hj & Hid & _).
    cbn [fmap option_fmap option_map snd]. do 2 f_equal.
    destruct (decide (Z.of_nat j = i)) as [<-|Hne].
    + rewrite Nat2Z.id in Hi'. congruence.
    + apply lookup_lt_Some in Hj as Hlt.
      destruct (Hall _ _ Hj) as (Hbj & _ & _).
      destruct (second_loop_Continue block _ tx Hsecond (Z.of_nat j))
        as (y' & Hy' & Hdiff & _); [lia..|].
      rewrite Hbj in Hy'. injection Hy' as <-. now destruct Hdiff.
  - apply list_find_None in Hfind.
    apply (proj1 (Forall_lookup _ _)) with (i := Z.to_nat i) (x := tx) in Hfind;
      [now destruct Hfind | exact Hi'].
Qed.

(** **** Short input to [deserialize_block] *)

Lemma reads_hash (h : list byte) :
  hash_wf h -> Buffer.reads Buffer.buffer_read_bytes32 (encode_le 4 HASH_SIZE ++ h) h.
Proof.
  intros Hwf.
  replace HASH_SIZE with (Z.of_nat (length h)) by (rewrite Hwf; reflexivity).
  apply Buffer.reads_bytes32. rewrite Hwf. vm_compute.
  split; [discriminate | reflexivity].
Qed.

Lemma length_block_bytes (block : block_t) :
  block_fields_wf block -> length (block_bytes block) = 136%nat.
Proof.
  intros (_ & Hp & Hh & _ & _ & _ & _ & Hm & _). unfold block_bytes.
  rewrite !length_app, !length_encode_le, Hp, Hh, Hm. reflexivity.
Qed.

(** [deserialize_block] reads a block off the bytes [serialize_block] wrote
    for it, and fails on every strict prefix of them. *)
Lemma reads_deserialize_block (block : block_t) :
  block_fields_wf block ->
  Buffer.reads deserialize_block (block_bytes block)
    (set_transactions (transaction_count block) None block).
Proof.
  intros (Hv & Hp & Hh & Ht & Hn & Hb & Hc & Hm & Hk).
  assert (Hcp : forall h, hash_wf h -> memcpy_hash h = h)
    by (intros h Hwf; unfold memcpy_hash; apply take_ge; rewrite Hwf; lia).
  assert (Hbytes : block_bytes block =
    encode_le 4 (version block) ++
    (encode_le 4 HASH_SIZE ++ previous_hash block) ++
    (encode_le 4 HASH_SIZE ++ hash block) ++
    encode_le 4 (timestamp block) ++ encode_le 4 (nonce block) ++
    encode_le 4 (bits block) ++ encode_le 8 (cumulative_emission block) ++
    (encode_le 4 HASH_SIZE ++ merkle_root block) ++
    encode_le 4 (transaction_count block) ++ []).
  { unfold block_bytes. rewrite <- !app_assoc, app_nil_r. reflexivity. }
  assert (Hval : set_transactions (transaction_count block) None block =
    mk_block (version block) (memcpy_hash (previous_hash block))
      (memcpy_hash (hash block)) (timestamp block) (nonce block) (bits block)
      (cumulative_emission block) (memcpy_hash (merkle_root block))
      (transaction_count block) (transactions make_block)).
  { rewrite !Hcp by assumption. reflexivity. }
  rewrite Hbytes, Hval. unfold deserialize_block.
  eapply Buffer.reads_bind; [now apply Buffer.reads_uint32|].
  eapply Buffer.reads_bind; [now apply reads_hash|].
  eapply Buffer.reads_bind; [now apply reads_hash|].
  eapply Buffer.reads_bind; [now apply Buffer.reads_uint32|].
  eapply Buffer.reads_bind; [now apply Buffer.reads_uint32|].
  eapply Buffer.reads_bind; [now apply Buffer.reads_uint32|].
  eapply Buffer.reads_bind; [now apply Buffer.reads_uint64|].
  eapply Buffer.reads_bind; [now apply reads_hash|].
  eapply Buffer.reads_bind; [now apply Buffer.reads_uint32|].
  apply Buffer.reads_ret.
Qed.

(** X15: the bytes [serialize_block] writes for a block are 136 long.
    [block_from_serialized] on these bytes, followed by anything, returns
    NULL when it is handed a length that cuts them short, and otherwise the
    block without transactions, whatever follows the 136 bytes. *)
Theorem block_from_serialized_short_input (block : block_t) (rest : list byte)
    (data_len : Z) :
  block_fields_wf block ->
  0 <= data_len <= Z.of_nat (length (block_bytes block ++ rest)) ->
  length (block_bytes block) = 136%nat /\
  block_from_serialized (block_bytes block ++ rest) data_len
  = if data_len <? 136 then None
    else Some (set_transactions (transaction_count block) None block).
Proof.
  intros Hwf Hlen. pose proof (length_block_bytes block Hwf) as H136.
  split; [exact H136|].
  destruct (reads_deserialize_block block Hwf) as [Hread Hshort].
  unfold block_from_serialized, Buffer.buffer_init_data, Buffer.buffer_iterator_init.
  cbn [Buffer.data].
  destruct (Z.ltb_spec data_len 136) as [Hlt|Hge].
  - rewrite take_app_le by lia. rewrite Hshort by lia. reflexivity.
  - rewrite take_app_ge by lia. rewrite Hread. reflexivity.
Qed.

(** **** Blocks with their transactions, written and read back *)

Lemma concat_encoding_take {A : Type} (encoding : A -> list byte) (l : list A)
    (j : nat) (x : A) :
  l !! j = Some x ->
  concat (encoding <$> take (Datatypes.S j) l)
  = concat (encoding <$> take j l) ++ encoding x.
Proof.
  intros Hx. rewrite (take_S_r _ _ _ Hx), fmap_app, concat_app.
  cbn [fmap list_fmap concat]. now rewrite app_nil_r.
Qed.

(** X16: [serialize_block] followed by [serialize_transactions_from_block]
    writes the block's 136 bytes and then its transactions in order;
    [deserialize_block] followed by [deserialize_transactions_to_block] on
    these bytes consumes all of them and gives back the block's nine fields
    and an array of [transaction_count] entries holding the same
    transactions in the same order (a NULL array when the count is 0). This
    holds for every transaction codec that, on the transactions of the
    block, writes an encoding and reads it back off the front of the
    input. *)
Theorem block_with_transactions_round_trip (block : block_t)
    (txs : list transaction_t) (encoding : transaction_t -> list byte) :
  block_fields_wf block ->
  block_transactions block = Some txs ->
  (forall tx, tx ∈ txs -> Buffer.appends (serialize_transaction tx) (encoding tx)) ->
  (forall tx rest, tx ∈ txs ->
     deserialize_transaction (Buffer.mk_iterator (encoding tx ++ rest))
     = Some (Some tx, Buffer.mk_iterator rest)) ->
  exists buffer buffer',
    serialize_block block Buffer.buffer_init = (0, buffer) /\
    serialize_transactions_from_block block buffer = Ret (0, buffer') /\
    Buffer.data buffer' = block_bytes block ++ concat (encoding <$> txs) /\
    exists header_block buffer_iterator,
      deserialize_block (Buffer.buffer_iterator_init buffer')
      = Some (header_block, buffer_iterator) /\
      deserialize_transactions_to_block buffer_iterator header_block
      = Ret (0,
             set_transactions (transaction_count block)
               (if 0 <? transaction_count block then Some (Some <$> txs) else None)
               block,
             Buffer.mk_iterator []).
Proof.
  intros Hwf Htxs Hser Hde.
  pose proof (block_transactions_Some block txs Htxs) as [Hlen _].
  eexists. 
  assert (Hwrite : exists buffer',
            serialize_transactions_from_block block
              (Buffer.mk_buffer (Buffer.data Buffer.buffer_init ++ block_bytes block)
                 (drop (length (block_bytes block)) (Buffer.spare Buffer.buffer_init)))
            = Ret (0, buffer') /\
            Buffer.data buffer' = block_bytes block ++ concat (encoding <$> txs)).
  { unfold serialize_transactions_from_block, for_each_index.
    set (body := fun (i : Z) (buffer : Buffer.buffer_t) => _).
    destruct (for_loop_invariant (R := Z * Buffer.buffer_t)
                (fun j buffer =>
                   Buffer.data buffer
                   = block_bytes block ++ concat (encoding <$> take (Z.to_nat j) txs))
                (Z.to_nat (transaction_count block)) 0 body
                (Buffer.mk_buffer (Buffer.data Buffer.buffer_init ++ block_bytes block)
                   (drop (length (block_bytes block))
                      (Buffer.spare Buffer.buffer_init))))
      as (buffer' & Hloop & Hdata).
    - cbn. now rewrite app_nil_r.
    - intros j buffer Hj Hdata. subst body. cbn beta.
      destruct (block_tx_at block txs j Htxs) as (tx & Htx & Hb); [lia|].
      rewrite Hb. cbn [mbind outcome_bind].
      rewrite (Hser tx) by (eapply list_elem_of_lookup_2; exact Htx).
      cbn [truth Z.eqb negb]. eexists. split; [reflexivity|].
      cbn [Buffer.data]. rewrite Hdata.
      replace (Z.to_nat (j + 1)) with (Datatypes.S (Z.to_nat j)) by lia.
      now rewrite (concat_encoding_take encoding txs _ tx Htx), app_assoc.
    - exists buffer'. rewrite Hloop. cbn [mbind outcome_bind].
      split; [reflexivity|].
      rewrite Hdata, Z.add_0_l, Nat2Z.id, <- Hlen, take_ge by lia. reflexivity. }
  destruct Hwrite as (buffer' & Hwrite & Hdata).
  exists buffer'. split; [apply (serialize_block_appends block _ Hwf)|].
  split; [exact Hwrite|]. split; [exact Hdata|].
  unfold Buffer.buffer_iterator_init. rewrite Hdata.
  rewrite (deserialize_block_bytes block _ Hwf).
  do 2 eexists. split; [reflexivity|].
  unfold deserialize_transactions_to_block.
  cbn [set_transactions transaction_count].
  destruct (Z.ltb_spec 0 (transaction_count block)) as [Hpos|Hzero].
  2:{ destruct txs as [|tx txs]; [reflexivity | cbn [length] in Hlen; lia]. }
  unfold for_each_index.
  set (n := Z.to_nat (transaction_count block)) in *.
  set (body := fun (i : Z) (s : block_t * Buffer.buffer_iterator_t) => _).
  destruct (for_loop_invariant (R := Z * block_t * Buffer.buffer_iterator_t)
              (fun j s =>
                 s = (set_transactions (transaction_count block)
                        (Some ((Some <$> take (Z.to_nat j) txs)
                               ++ replicate (n - Z.to_nat j) None)) block,
                      Buffer.mk_iterator
                        (concat (encoding <$> drop (Z.to_nat j) txs))))
              n 0 body
              (set_transactions (transaction_count block) (Some (replicate n None))
                 (set_transactions (transaction_count block) None block),
               Buffer.mk_iterator (concat (encoding <$> txs))))
    as (s & Hloop & Hs).
  - cbn [Z.to_nat take drop fmap list_fmap app]. now rewrite Nat.sub_0_r.
  - intros j s Hj ->. subst body. cbn beta iota.
    destruct (lookup_lt_is_Some_2 txs (Z.to_nat j)) as [tx Htx]; [lia|].
    rewrite (drop_S _ _ _ Htx). cbn [fmap list_fmap concat].
    rewrite (Hde tx) by (eapply list_elem_of_lookup_2; exact Htx).
    eexists. split; [reflexivity|].
    unfold set_transactions.
    cbn [version previous_hash hash timestamp nonce bits cumulative_emission
         merkle_root transaction_count transactions fmap option_fmap option_map].
    replace (Z.to_nat (j + 1)) with (Datatypes.S (Z.to_nat j)) by lia.
    do 3 f_equal.
    rewrite insert_app_r_alt by (rewrite length_fmap, length_take; lia).
    rewrite length_fmap, length_take.
    replace (Z.to_nat j - Z.to_nat j `min` length txs)%nat with 0%nat by lia.
    replace (n - Z.to_nat j)%nat with (Datatypes.S (n - Datatypes.S (Z.to_nat j))) by lia.
    rewrite (take_S_r _ _ _ Htx), fmap_app, <- app_assoc. reflexivity.
  - rewrite Hloop. cbn [mbind outcome_bind]. rewrite Hs.
    rewrite Z.add_0_l, Nat2Z.id. subst n.
    rewrite Nat.sub_diag, <- Hlen, take_ge, drop_ge by lia.
    cbn [replicate fmap list_fmap concat]. now rewrite app_nil_r.
Qed.

(** **** [valid_block] on well-formed memory *)

Lemma tx_txin_present (tx : transaction_t) (k : Z) :
  is_Some (tx_inputs tx) -> 0 <= k < txin_count tx ->
  exists a, tx_txin tx k = Ret (Some a).
Proof.
  intros [ins Hins] Hk. apply entries_Some in Hins as [Hlen Hget].
  destruct (lookup_lt_is_Some_2 ins (Z.to_nat k)) as [a Ha]; [lia|].
  apply Hget in Ha as [_ Ha]. apply tx_txin_lookup in Ha.
  rewrite Z2Nat.id in Ha by lia. eauto.
Qed.

Lemma txin_loop_total (txin_first : input_transaction_t) (second_tx : transaction_t) :
  is_Some (tx_inputs second_tx) ->
  exists c, valid_block_txin_loop txin_first second_tx = Ret c.
Proof.
  intros Hins. unfold valid_block_txin_loop, for_each_index.
  apply for_loop_total. intros l Hl.
  destruct (tx_txin_present second_tx l Hins) as [c Hc]; [lia|].
  rewrite Hc. cbn [mbind outcome_bind].
  destruct (_ && _); eexists; reflexivity.
Qed.

Lemma second_loop_total (block : block_t) (txs : list transaction_t) (i : Z)
    (first_tx : transaction_t) :
  block_transactions block = Some txs ->
  Forall (fun tx => is_Some (tx_inputs tx)) txs ->
  is_Some (tx_inputs first_tx) ->
  exists c, valid_block_second_loop block i first_tx = Ret c.
Proof.
  intros Htxs Hall Hfirst. unfold valid_block_second_loop, for_each_index.
  apply for_loop_total. intros j Hj.
  destruct (block_tx_at block txs j Htxs) as (tx2 & Htx2 & Hb); [lia|].
  rewrite Hb. cbn [mbind outcome_bind].
  destruct (i =? j); [eexists; reflexivity|].
  destruct (truth _); [eexists; reflexivity|].
  apply for_loop_total. intros k Hk.
  destruct (tx_txin_present first_tx k Hfirst) as [a Ha]; [lia|].
  rewrite Ha. cbn [mbind outcome_bind].
  apply txin_loop_total.
  exact (proj1 (Forall_lookup _ _) Hall _ _ Htx2).
Qed.

Lemma first_loop_total (block : block_t) (txs : list transaction_t) :
  block_transactions block = Some txs ->
  Forall (fun tx => is_Some (tx_inputs tx)) txs ->
  exists c, valid_block_first_loop block = Ret c.
Proof.
  intros Htxs Hall. unfold valid_block_first_loop, for_each_index.
  apply for_loop_total. intros i Hi.
  destruct (block_tx_at block txs i Htxs) as (tx & Htx & Hb); [lia|].
  rewrite Hb. cbn [mbind outcome_bind].
  destruct (_ =? 0); [eexists; reflexivity|].
  destruct (_ && _); [eexists; reflexivity|].
  apply (second_loop_total block txs); [assumption..|].
  exact (proj1 (Forall_lookup _ _) Hall _ _ Htx).
Qed.

Lemma valid_merkle_root_total (block : block_t) (txs : list transaction_t) :
  (forall m, hash_wf (crypto_hash_sha256d m)) ->
  block_transactions block = Some txs ->
  1 <= transaction_count block < 2 ^ 27 ->
  exists ok, valid_merkle_root block = Ret ok /\ (ok = 0 \/ ok = 1).
Proof.
  intros Hsha Htxs Hcount. unfold valid_merkle_root.
  rewrite (compute_merkle_root_run block txs Htxs).
  pose proof (block_transactions_Some _ _ Htxs) as [Hlen _].
  destruct (mapM compute_tx_id txs) as [ids|] eqn:Hids.
  - pose proof (mapM_compute_tx_id_wf txs ids Hsha Hids) as Hwf.
    apply length_mapM in Hids.
    destruct (Merkle.construct_merkle_tree_spec crypto_hash_sha256d ids Hwf)
      as (root & _ & Htree); [lia..|].
    replace (transaction_count block) with (Z.of_nat (length ids)) by lia.
    rewrite Htree. cbn [mbind outcome_bind]. eexists. split; [reflexivity|].
    unfold compare_hash. destruct (decide _); auto.
  - cbn [mbind outcome_bind]. eauto.
Qed.

(** What [valid_block] returns on a block in well-formed memory. *)
Lemma valid_block_returns (now : Z) (block : block_t) (txs : list transaction_t) :
  (forall m, hash_wf (crypto_hash_sha256d m)) ->
  block_transactions block = Some txs ->
  Forall (fun tx => is_Some (tx_inputs tx)) txs ->
  transaction_count block < 2 ^ 27 ->
  exists r, valid_block now block = Ret r /\ (r = 0 \/ r = 1).
Proof.
  intros Hsha Htxs Hall Hmax. unfold valid_block.
  destruct (_ =? 0); [eauto|].
  destruct (Z.ltb_spec (transaction_count block) 1) as [|Hcount]; [eauto|].
  destruct (block_tx_at block txs 0 Htxs) as (cb & _ & Hcb); [lia|].
  rewrite Hcb. cbn [mbind outcome_bind].
  destruct (_ =? 0); [eauto|].
  destruct (first_loop_total block txs Htxs Hall) as [[[]|r] Hloop];
    rewrite Hloop; cbn [mbind outcome_bind].
  2:{ apply first_loop_Return in Hloop as ->. eauto. }
  rewrite (get_block_header_size_sum block txs Htxs). cbn [mbind outcome_bind].
  destruct (_ <? _); [eauto|].
  destruct (_ =? 0); [eauto|].
  destruct (valid_merkle_root_total block txs Hsha Htxs) as (ok & Hok & _); [lia|].
  rewrite Hok. cbn [mbind outcome_bind].
  destruct (ok =? 0); eauto.
Qed.

(** X26: the code of block.c and merkle.c that [valid_block] runs, on
    well-formed memory. The functions of transaction.c it calls
    ([is_coinbase_tx], [valid_transaction], [compute_tx_id],
    [get_tx_header_size]) are not under src/ and are taken to return. On a
    block of fewer than [2^27] transactions whose array holds
    [transaction_count] transactions, each with the inputs and outputs it
    announces, [valid_block] then returns, 0 or 1: none of its assertions
    fails, none of its array reads is out of range, and its loops and those
    of the Merkle engine end. *)
Theorem valid_block_returns_in_well_formed_memory (now : Z) (block : block_t)
    (txs : list transaction_t) :
  (forall m, hash_wf (crypto_hash_sha256d m)) ->
  block_transactions block = Some txs ->
  Forall (fun tx => is_Some (tx_inputs tx) /\ is_Some (tx_outputs tx)) txs ->
  transaction_count block < 2 ^ 27 ->
  exists r, valid_block now block = Ret r /\ (r = 0 \/ r = 1).
Proof.
  intros Hsha Htxs Hall Hmax.
  apply (valid_block_returns now block txs Hsha Htxs); [|exact Hmax].
  eapply list.Forall_impl; [exact Hall|]. now intros tx [Hins _].
Qed.

(** X28: on a block that announces a transaction, carries an acceptable
    timestamp and has a NULL transaction array, [valid_block] dereferences
    the NULL pointer, at [block->transactions[0]]. *)
Theorem valid_block_null_transactions (now : Z) (block : block_t) :
  transactions block = None ->
  1 <= transaction_count block ->
  timestamp block <= to_uint32 (now + MAX_FUTURE_BLOCK_TIME) ->
  valid_block now block = Crash null_dereference.
Proof.
  intros Hnull Hcount Htime. unfold valid_block, valid_block_timestamp, of_bool.
  destruct (Z.leb_spec (timestamp block) (to_uint32 (now + MAX_FUTURE_BLOCK_TIME)));
    [|lia].
  cbn [Z.eqb].
  destruct (Z.ltb_spec (transaction_count block) 1); [lia|].
  unfold block_tx. rewrite Hnull. reflexivity.
Qed.

Lemma entries_snoc {A : Type} (count : Z) (arr : list (option A)) (l : list A) (x : A) :
  entries count arr = Some l ->
  Z.of_nat (length arr) = count ->
  entries (count + 1) (arr ++ [Some x]) = Some (l ++ [x]).
Proof.
  unfold entries. intros H Hlen.
  destruct (decide _) as [_|]; [|discriminate].
  rewrite decide_True by (rewrite length_app; cbn [length]; lia).
  rewrite take_ge in H by lia.
  rewrite take_ge by (rewrite length_app; cbn [length]; lia).
  apply mapM_Some_2. apply mapM_Some_1 in H.
  apply Forall2_app; [exact H|]. repeat constructor.
Qed.

Lemma valid_txs_ids (txs : list transaction_t) :
  Forall (fun tx => valid_transaction tx <> 0) txs ->
  mapM compute_tx_id txs = Some (id <$> txs).
Proof.
  intros Hvalid. apply mapM_Some_2.
  induction Hvalid as [|tx txs Hv _ IH]; constructor; [|exact IH].
  now apply valid_transaction_txid.
Qed.

(** X27: a copy of the last transaction appended to a block [valid_block]
    accepts, as [add_transaction_to_block] appends it, gives a block that
    [valid_block] rejects, by the comparison of transaction ids; and for an
    odd count of three or more, with the longer block below [2^27]
    transactions, [compute_merkle_root] stores the same root for the two
    blocks, the odd last node being paired with itself. *)
Theorem valid_block_rejects_repeated_last (now : Z) (block : block_t)
    (arr : list (option transaction_t)) (last : transaction_t) :
  (forall m, hash_wf (crypto_hash_sha256d m)) ->
  valid_block now block = Ret 1 ->
  transactions block = Some arr ->
  Z.of_nat (length arr) = transaction_count block ->
  transaction_count block + 1 < 2 ^ 32 ->
  block_tx block (transaction_count block - 1) = Ret (Some last) ->
  let repeated :=
    set_transactions (transaction_count block + 1) (Some (arr ++ [Some last])) block in
  add_transaction_to_block block last (transaction_count block) = Ret (0, repeated) /\
  valid_block now repeated = Ret 0 /\
  (Nat.odd (Z.to_nat (transaction_count block)) = true ->
   3 <= transaction_count block ->
   transaction_count block + 1 < 2 ^ 27 ->
   compute_merkle_root repeated = compute_merkle_root block).
Proof.
  intros Hsha Hv Harr Hlen Hmax Hlast repeated.
  pose proof Hv as Hacc.
  apply valid_block_accepts in Hacc as (_ & Hcount & _ & Hloop & _).
  destruct (first_loop_transactions block Hcount Hloop) as (txs & Htxs & Hlen' & Hall).
  assert (Hvalid : Forall (fun tx => valid_transaction tx <> 0) txs).
  { apply Forall_lookup. intros i tx Hi. now destruct (Hall i tx Hi) as (_ & H & _). }
  assert (Hin : txs !! (length txs - 1)%nat = Some last).
  { destruct (lookup_lt_is_Some_2 txs (length txs - 1)) as [tx Htx]; [lia|].
    destruct (Hall _ _ Htx) as (Hb & _).
    replace (Z.of_nat (length txs - 1)) with (transaction_count block - 1) in Hb by lia.
    rewrite Hlast in Hb. now injection Hb as ->. }
  assert (Hlast_valid : valid_transaction last <> 0)
    by exact (proj1 (Forall_lookup _ _) Hvalid _ _ Hin).
  assert (Htxs' : block_transactions repeated = Some (txs ++ [last])).
  { unfold block_transactions in *. cbn [repeated set_transactions transactions
      transaction_count mbind option_bind]. rewrite Harr in Htxs.
    cbn [mbind option_bind] in Htxs. now apply entries_snoc. }
  assert (Hvalid' : Forall (fun tx => valid_transaction tx <> 0) (txs ++ [last])).
  { apply Forall_app. split; [exact Hvalid|]. now repeat constructor. }
  assert (Hinputs : Forall (fun tx => is_Some (tx_inputs tx)) (txs ++ [last])).
  { eapply list.Forall_impl; [exact Hvalid'|]. intros tx Htx.
    destruct (valid_transaction_inputs _ _ tx Htx) as (ins & Hins & _).
    rewrite Hins. eexists; reflexivity. }
  split; [|split].
  - assert (Hd : default [] (transactions block) = arr)
      by (rewrite Harr; reflexivity).
    rewrite add_transaction_to_block_run by (rewrite ?Hd; lia).
    rewrite Z.eqb_refl, Hd. reflexivity.
  - unfold valid_block.
    destruct (_ =? 0); [reflexivity|].
    destruct (Z.ltb_spec (transaction_count repeated) 1); [reflexivity|].
    destruct (block_tx_at repeated (txs ++ [last]) 0 Htxs') as (cb & _ & Hcb);
      [cbn; lia|].
    rewrite Hcb. cbn [mbind outcome_bind].
    destruct (_ =? 0); [reflexivity|].
    destruct (first_loop_total repeated (txs ++ [last]) Htxs' Hinputs)
      as [[[]|r] Hloop']; rewrite Hloop'; cbn [mbind outcome_bind].
    2:{ apply first_loop_Return in Hloop' as ->. reflexivity. }
    exfalso.
    assert (Hget : forall i, 0 <= i <= transaction_count block ->
              (i = transaction_count block \/ i = transaction_count block - 1) ->
              block_tx repeated i = Ret (Some last)).
    { intros i Hi Hcase. unfold block_tx, ptr_array_get.
      cbn [repeated set_transactions transactions].
      rewrite <- (Z2Nat.id i) by lia. apply array_get_lookup.
      destruct Hcase as [-> | ->].
      - rewrite lookup_app_r by lia.
        replace (Z.to_nat (transaction_count block) - length arr)%nat with 0%nat by lia.
        reflexivity.
      - apply lookup_app_l_Some.
        apply block_tx_lookup in Hlast as (arr' & Harr' & _ & Hl).
        rewrite Harr in Harr'. now injection Harr' as <-. }
    destruct (first_loop_Continue repeated Hloop' (transaction_count block - 1))
      as (first_tx & Hfirst & _ & _ & Hsecond); [cbn; lia|].
    rewrite Hget in Hfirst by lia. injection Hfirst as <-.
    destruct (second_loop_Continue repeated _ last Hsecond (transaction_count block))
      as (second_tx & Hsecond_tx & Hdiff & _); [cbn; lia | lia |].
    rewrite Hget in Hsecond_tx by lia. injection Hsecond_tx as <-.
    now destruct Hdiff.
  - intros Hodd Hmin Hsmall.
    rewrite (compute_merkle_root_run repeated _ Htxs'),
            (compute_merkle_root_run block _ Htxs).
    rewrite (valid_txs_ids _ Hvalid'), (valid_txs_ids _ Hvalid).
    assert (Hwf : Forall hash_wf (id <$> txs))
      by exact (mapM_compute_tx_id_wf _ _ Hsha (valid_txs_ids _ Hvalid)).
    assert (Hwf' : Forall hash_wf (id <$> txs ++ [last]))
      by exact (mapM_compute_tx_id_wf _ _ Hsha (valid_txs_ids _ Hvalid')).
    destruct (Merkle.construct_merkle_tree_spec crypto_hash_sha256d _ Hwf)
      as (root & Hroot & Htree); [rewrite length_fmap; lia..|].
    destruct (Merkle.construct_merkle_tree_spec crypto_hash_sha256d _ Hwf')
      as (root' & Hroot' & Htree');
      [rewrite length_fmap, length_app; cbn [length]; lia..|].
    rewrite fmap_app in Hroot'. cbn [fmap list_fmap] in Hroot'.
    rewrite Merkle.merkle_root_node_duplicate_last in Hroot'.
    + rewrite Hroot in Hroot'. injection Hroot' as <-.
      rewrite length_fmap in Htree.
      rewrite length_fmap, length_app in Htree'. cbn [length] in Htree'.
      cbn [repeated set_transactions transaction_count].
      replace (transaction_count block + 1) with (Z.of_nat (length txs + 1)) by lia.
      replace (transaction_count block) with (Z.of_nat (length txs)) by lia.
      now rewrite Htree, Htree'.
    + rewrite length_fmap, Hlen'. exact Hodd.
    + rewrite length_fmap. lia.
    + rewrite length_fmap, list_lookup_fmap, Hin. reflexivity.
Qed.

End Params.

(** *** The block hash, with an allocation for each call *)

Section Allocations.

Variable MAX_FUTURE_BLOCK_TIME : Z.
Variable MAX_BLOCK_SIZE : Z.
Variable crypto_hash_sha256d : list byte -> list byte.
Variable crypto_sign_verify_detached : list byte -> list byte -> list byte -> Z.
Variable check_proof_of_work : list byte -> Z -> Z.
Variable get_tx_header_size : transaction_t -> Z.

(** [memory] is what the allocation behind the buffer of the call holds. *)
Local Abbreviation compute_block_hash_in memory :=
  (compute_block_hash memory crypto_hash_sha256d).
Local Abbreviation valid_block_in memory :=
  (valid_block MAX_FUTURE_BLOCK_TIME MAX_BLOCK_SIZE memory crypto_hash_sha256d
     crypto_sign_verify_detached check_proof_of_work get_tx_header_size).

(** Equal block hashes out of two calls: equal header fields, or a
    collision. *)
Lemma compute_block_hash_inj (memory other_memory : list byte)
    (block other_block : block_t) :
  header_wf block -> header_wf other_block ->
  compute_block_hash_in memory block = compute_block_hash_in other_memory other_block ->
  same_header block other_block \/ Merkle.collision crypto_hash_sha256d.
Proof.
  intros Hwf Hwf' E.
  pose proof Hwf as (_ & _ & _ & _ & _ & Hp & Hm).
  pose proof Hwf' as (_ & _ & _ & _ & _ & Hp' & Hm').
  rewrite !compute_block_hash_bytes in E by assumption.
  injection E as E.
  set (spare := drop 88 (resize (Z.to_nat BLOCK_HEADER_SIZE) x00 memory)) in *.
  set (spare' := drop 88 (resize (Z.to_nat BLOCK_HEADER_SIZE) x00 other_memory)) in *.
  destruct (decide (block_header_bytes block ++ spare
                    = block_header_bytes other_block ++ spare')) as [Heq|Hne].
  - left. apply app_inj_1 in Heq as [Heq _].
    + now apply block_header_bytes_inj.
    + now rewrite !length_block_header_bytes.
  - right. eexists _, _. split; [exact Hne | exact E].
Qed.

(** X12: the block hash binds the seven header fields, whatever the
    allocations behind the buffers of the two calls hold: two blocks with
    in-range header fields that get the same hash from [compute_block_hash]
    agree on the seven fields, or the two byte strings that were hashed are
    a collision of sha256d. And no other field of the block enters the
    hash: two blocks that agree on the seven fields get the same hash,
    whatever their [hash] field, transaction count and transactions are,
    when the allocations of the two calls hold the same bytes. *)
Theorem compute_block_hash_binds_header (memory other_memory : list byte)
    (block other_block : block_t) :
  (header_wf block -> header_wf other_block ->
   compute_block_hash_in memory block = compute_block_hash_in other_memory other_block ->
   same_header block other_block \/
   exists x y : list byte,
     x <> y /\ crypto_hash_sha256d x = crypto_hash_sha256d y) /\
  (same_header block other_block ->
   resize (Z.to_nat BLOCK_HEADER_SIZE) x00 memory
   = resize (Z.to_nat BLOCK_HEADER_SIZE) x00 other_memory ->
   compute_block_hash_in memory block = compute_block_hash_in other_memory other_block).
Proof.
  split.
  - apply compute_block_hash_inj.
  - intros (Hv & Ht & Hn & Hb & Hc & Hp & Hm) Hmemory.
    unfold compute_block_hash, serialize_block_header, Buffer.buffer_init_size.
    now rewrite Hv, Ht, Hn, Hb, Hc, Hp, Hm, Hmemory.
Qed.


End Allocations.

End Block.


(** ** The code run on concrete blocks *)

Module Examples.

Import Transaction Block.

(** Stand-ins for the primitives the code is parameterised by, with the
    shapes of the real ones, to run the code on concrete blocks: a digest of
    32 bytes that absorbs every input byte, a detached signature check that
    returns 0 on success, a proof-of-work check that accepts, the header
    size of a transaction, and the consensus constants. *)
Fixpoint absorb (i : nat) (m : list byte) (state : list byte) : list byte :=
  match m with
  | [] => state
  | b :: m' =>
      absorb (S i) m'
        (alter (fun x => byte_of_Z (Z_of_byte x * 31 + Z_of_byte b + Z.of_nat i + 7))
           (i mod 32)%nat state)
  end.

Definition example_digest (m : list byte) : list byte :=
  absorb 0 m (replicate 32 x00).

Definition example_sign (m pk : list byte) : list byte :=
  take 64 (example_digest (pk ++ m) ++ example_digest (m ++ pk)).

Definition example_verify (sig m pk : list byte) : Z :=
  if decide (sig = example_sign m pk) then 0 else -1.

Definition example_check_proof_of_work (h : list byte) (bits : Z) : Z := 1.

Definition example_tx_header_size (tx : transaction_t) : Z :=
  TXIN_HEADER_SIZE * txin_count tx + TXOUT_HEADER_SIZE * txout_count tx.

Definition example_compare_transaction (tx other_tx : transaction_t) : Z :=
  compare_hash (id tx) (id other_tx).

Definition example_copy_transaction (tx : transaction_t)
    (other_tx : option transaction_t) : outcome Z := Ret 0.

Definition example_now : Z := 1600000000.
Definition example_max_future_block_time : Z := 7200.
Definition example_max_block_size : Z := 1000000.
Definition example_block_version : Z := 1.




(** [tx] with its id recomputed. *)
Definition with_id (tx : transaction_t) : transaction_t :=
  mk_tx (default [] (compute_tx_id example_digest tx))
    (txin_count tx) (txout_count tx) (txins tx) (txouts tx).

(** [tx] with input 0 signed under [pk]. *)
Definition signed (pk : list byte) (tx : transaction_t) : transaction_t :=
  let preimage := default [] (get_tx_sign_header tx) in
  mk_tx (id tx) (txin_count tx) (txout_count tx)
    (alter (fmap (fun txin =>
              mk_txin (transaction txin) (txout_index txin)
                (example_sign preimage pk) pk)) 0%nat (txins tx))
    (txouts tx).

Definition example_coinbase : transaction_t :=
  with_id (mk_tx [] 1 1
    [Some (mk_txin zero_tx_hash 4294967295 (replicate 64 x00) (replicate 32 x00))]
    [Some (mk_txout 50 (replicate 33 x01))]).

Definition example_spend : transaction_t :=
  signed (replicate 32 x02) (with_id (mk_tx [] 1 1
    [Some (mk_txin (replicate 32 xaa) 0 (replicate 64 x00) (replicate 32 x00))]
    [Some (mk_txout 10 (replicate 33 x03))])).

(** A block of [txs] stamped [time], with its Merkle root and hash
    computed by the code. *)
Definition block_of (time : Z) (txs : list transaction_t) : block_t :=
  let count := Z.of_nat (length txs) in
  let arr := Some (Some <$> txs) in
  let zero := replicate 32 x00 in
  let unrooted := mk_block 1 zero zero time 0 520159231 0 zero count arr in
  let root :=
    match compute_merkle_root example_digest unrooted with
    | Ret (Some root) => root
    | _ => zero
    end in
  let unhashed := mk_block 1 zero zero time 0 520159231 0 root count arr in
  set_hash (default zero (compute_block_hash [] example_digest unhashed)) unhashed.

Definition example_block : block_t :=
  block_of example_now [example_coinbase; example_spend].



Definition example_valid_block (block : block_t) : outcome Z :=
  valid_block example_max_future_block_time example_max_block_size []
    example_digest example_verify example_check_proof_of_work
    example_tx_header_size example_now block.

(** *** The theorems at concrete inputs *)

Ltac evaluate :=
  repeat split;
  try (vm_compute; reflexivity); try (vm_compute; discriminate).

Lemma example_block_fields_wf : block_fields_wf example_block.
Proof. unfold block_fields_wf, is_uint32, is_uint64, hash_wf. evaluate. Qed.

Lemma example_block_well_formed : well_formed_block example_block.
Proof.
  split; [exact example_block_fields_wf|].
  eexists. split; [reflexivity|]. split; [discriminate|]. split; [reflexivity|].
  repeat constructor; eexists; reflexivity.
Qed.

(** C1: the round trip of the example block restores its fields and leaves
    the transaction array NULL. *)
Lemma block_round_trip_fields_witness :
  block_fields_wf example_block /\
  exists data data_len,
    block_to_serialized example_block = Some (data, data_len) /\
    data = block_bytes example_block /\
    block_from_serialized example_block_version data data_len
    = Some (set_transactions (transaction_count example_block) None example_block).
Proof.
  split; [exact example_block_fields_wf|].
  apply (block_round_trip_fields example_block_version example_block).
  exact example_block_fields_wf.
Defined.

(** C1 as stated fails on the example block, which is well formed: the
    block that comes back has no transactions, so it is not the block that
    went in, and [compare_block] on the two dereferences the NULL array. *)
Lemma block_round_trip_loses_transactions :
  well_formed_block example_block /\
  exists data data_len block',
    block_to_serialized example_block = Some (data, data_len) /\
    block_from_serialized example_block_version data data_len = Some block' /\
    transactions block' = None /\
    block' <> example_block /\
    compare_block example_compare_transaction example_block block'
    = Crash null_dereference.
Proof.
  split; [exact example_block_well_formed|].
  eexists _, _, _. split; [vm_compute; reflexivity|].
  split; [vm_compute; reflexivity|].
  split; [reflexivity|]. split; [|vm_compute; reflexivity].
  intros E. apply (f_equal transactions) in E. vm_compute in E. discriminate.
Qed.

(** C2: on the example block, whatever the allocation behind the buffer
    holds, [serialize_block_header] writes the seven fields in the stated
    order, which makes 88 bytes and not 92, and [compute_block_hash] hashes
    the [BLOCK_HEADER_SIZE] bytes at the start of its buffer: the 88 bytes
    written and, behind them, the [BLOCK_HEADER_SIZE - 88] bytes the
    allocation held, which no write has reached. *)
Theorem block_header_of_example_block (memory : list byte) :
  let buffer :=
    snd (serialize_block_header example_block
           (Buffer.buffer_init_size 0 BLOCK_HEADER_SIZE memory)) in
  let behind := drop 88 (resize (Z.to_nat BLOCK_HEADER_SIZE) x00 memory) in
  Buffer.data buffer
  = encode_le 4 (version example_block) ++ encode_le 4 (timestamp example_block) ++
    encode_le 4 (nonce example_block) ++ encode_le 4 (bits example_block) ++
    encode_le 8 (cumulative_emission example_block) ++
    previous_hash example_block ++ merkle_root example_block /\
  length (Buffer.data buffer) = 88%nat /\
  length (Buffer.data buffer) <> 92%nat /\
  Z.of_nat (length behind) = BLOCK_HEADER_SIZE - 88 /\
  compute_block_hash memory example_digest example_block
  = Some (example_digest (Buffer.data buffer ++ behind)).
Proof.
  assert (Hp : hash_wf (previous_hash example_block)) by (vm_compute; reflexivity).
  assert (Hm : hash_wf (merkle_root example_block)) by (vm_compute; reflexivity).
  pose proof (length_block_header_bytes example_block Hp Hm) as Hlen.
  cbv zeta. rewrite serialize_block_header_appends by assumption.
  cbn [snd Buffer.data Buffer.buffer_init_size app].
  split; [reflexivity|]. split; [exact Hlen|].
  split; [rewrite Hlen; discriminate|].
  split; [rewrite length_drop, length_resize; reflexivity|].
  now apply compute_block_hash_bytes.
Qed.

(** C3: the example block is accepted, and its inputs spend distinct
    outputs. *)
Lemma valid_block_no_double_spend_witness :
  example_valid_block example_block = Ret 1 /\
  exists outpoints,
    block_outpoints example_block = Some outpoints /\ NoDup outpoints.
Proof.
  assert (Hv : example_valid_block example_block = Ret 1) by (vm_compute; reflexivity).
  split; [exact Hv|].
  destruct (valid_block_no_double_spend _ _ _ _ _ _ _ _ _ Hv) as (ops & Hops & Hnd & _).
  exists ops. split; assumption.
Defined.

(** C4: the example block is accepted, its transaction 0 is a coinbase and
    its transaction 1 is not. *)
Lemma valid_block_single_coinbase_witness :
  example_valid_block example_block = Ret 1 /\
  (exists coinbase_tx,
     block_tx example_block 0 = Ret (Some coinbase_tx) /\
     is_coinbase_tx coinbase_tx <> 0) /\
  (exists tx, block_tx example_block 1 = Ret (Some tx) /\ is_coinbase_tx tx = 0).
Proof.
  assert (Hv : example_valid_block example_block = Ret 1) by (vm_compute; reflexivity).
  split; [exact Hv|].
  destruct (valid_block_single_coinbase _ _ _ _ _ _ _ _ _ Hv) as (H0 & Hlater & _).
  split; [exact H0|]. apply Hlater. vm_compute. split; reflexivity.
Defined.

(** C5: three concrete txids. *)
Lemma merkle_root_three_leaves_witness :
  let a := replicate 32 x01 in
  let b := replicate 32 x02 in
  let c := replicate 32 x03 in
  hash_wf a /\ hash_wf b /\ hash_wf c /\
  exists tree,
    Merkle.construct_merkle_tree_from_leaves example_digest (a ++ b ++ c) 3
    = Ret (Some tree) /\
    Merkle.hash (Merkle.root tree)
    = example_digest (example_digest (a ++ b) ++ example_digest (c ++ c)).
Proof.
  intros a b c.
  assert (Ha : hash_wf a) by reflexivity.
  assert (Hb : hash_wf b) by reflexivity.
  assert (Hc : hash_wf c) by reflexivity.
  split; [exact Ha|]. split; [exact Hb|]. split; [exact Hc|].
  destruct (Merkle.merkle_root_three_leaves example_digest a b c Ha Hb Hc)
    as (tree & Htree & _ & Hhash).
  exists tree. split; assumption.
Defined.

(** C6: one concrete txid. *)
Lemma merkle_root_single_leaf_witness :
  let a := replicate 32 x01 in
  hash_wf a /\
  Merkle.construct_merkle_tree_from_leaves example_digest a 1
  = Ret (Some (Merkle.mk_tree (Merkle.leaf a))) /\
  Merkle.hash (Merkle.leaf a) = a.
Proof.
  intros a. assert (Ha : hash_wf a) by reflexivity.
  split; [exact Ha|].
  exact (Merkle.merkle_root_single_leaf example_digest a Ha).
Defined.



(** C8: two hours ahead of [example_now] is accepted, one second more is
    rejected. *)
Lemma valid_block_timestamp_boundary_witness :
  0 <= example_now + example_max_future_block_time < 2 ^ 32 /\
  valid_block_timestamp example_max_future_block_time example_now
    (block_of (example_now + 7200) [example_coinbase]) = 1 /\
  valid_block_timestamp example_max_future_block_time example_now
    (block_of (example_now + 7201) [example_coinbase]) = 0.
Proof.
  assert (Hr : 0 <= example_now + example_max_future_block_time < 2 ^ 32)
    by (vm_compute; split; [discriminate | reflexivity]).
  split; [exact Hr|]. split.
  - apply (proj1 (valid_block_timestamp_boundary example_max_future_block_time
                    example_now _ Hr)). reflexivity.
  - apply (proj1 (proj2 (valid_block_timestamp_boundary
                           example_max_future_block_time example_now _ Hr))).
    reflexivity.
Defined.

(** C9: copying the example block into a fresh block, with a
    [copy_transaction] that reports success, stops at the assertion. *)
Lemma copy_block_cannot_succeed_witness :
  0 < transaction_count example_block /\
  is_Some (transactions example_block) /\
  copy_block example_compare_transaction example_copy_transaction example_block
    (make_block example_block_version) = Crash assertion_failed.
Proof.
  assert (Hc : 0 < transaction_count example_block) by reflexivity.
  assert (Ht : is_Some (transactions example_block)) by (eexists; reflexivity).
  split; [exact Hc|]. split; [exact Ht|].
  apply (proj2 (copy_block_cannot_succeed example_compare_transaction
                  example_copy_transaction example_block
                  (make_block example_block_version) Hc Ht) example_coinbase
           (copy_block_fields example_block (make_block example_block_version)));
    reflexivity.
Defined.

(** C10: comparing a block whose [hash] field is stale with the genesis
    block changes that field. *)
Lemma compare_with_genesis_block_overwrites_hash_witness :
  let stale := set_hash (replicate 32 x00) example_block in
  let genesis := block_of 0 [example_coinbase] in
  hash (fst (fst (compare_with_genesis_block [] example_digest
                    example_compare_transaction stale genesis)))
  <> hash stale.
Proof.
  intros stale genesis.
  destruct (compare_with_genesis_block_overwrites_hash [] example_digest
              example_compare_transaction stale genesis)
    as (h & g & Hh & _ & _ & _ & _ & Hchanged).
  apply Hchanged. intros E. rewrite <- E in Hh. vm_compute in Hh. discriminate.
Defined.

(** *** Further properties at concrete inputs *)

Lemma length_absorb (i : nat) (m state : list byte) :
  length (absorb i m state) = length state.
Proof.
  revert i state. induction m as [|b m IH]; intros i state; [reflexivity|].
  cbn [absorb]. now rewrite IH, length_alter.
Qed.

Lemma example_digest_wf (m : list byte) : hash_wf (example_digest m).
Proof. unfold hash_wf, example_digest. now rewrite length_absorb. Qed.

Lemma example_block_valid : example_valid_block example_block = Ret 1.
Proof. vm_compute. reflexivity. Qed.

Lemma example_block_header_wf : header_wf example_block.
Proof. unfold header_wf, is_uint32, is_uint64, hash_wf. evaluate. Qed.

Lemma example_block_transactions :
  block_transactions example_block = Some [example_coinbase; example_spend].
Proof. reflexivity. Qed.

(** A stand-in for the transaction codec of transaction.c: a transaction is
    written as the 32 bytes of its id, and read back by looking the id up
    among the example transactions. *)
Definition example_encoding (tx : transaction_t) : list byte :=
  take (Z.to_nat HASH_SIZE) (id tx).

Definition example_serialize_transaction (tx : transaction_t) : Buffer.writer :=
  Buffer.buffer_write (id tx) HASH_SIZE.

Definition example_deserialize_transaction : Buffer.reader (option transaction_t) :=
  bytes ← Buffer.read_bytes (Z.to_nat HASH_SIZE);
  mret (snd <$> list_find (fun tx => id tx = bytes) [example_coinbase; example_spend]).

(** X1: the example block is accepted and its two transaction ids differ. *)
Lemma valid_block_distinct_txids_witness :
  example_valid_block example_block = Ret 1 /\
  exists txs,
    block_transactions example_block = Some txs /\ NoDup (id <$> txs).
Proof.
  split; [exact example_block_valid|].
  exact (valid_block_distinct_txids _ _ _ _ _ _ _ _ _ example_block_valid).
Defined.

(** X2: the example block is accepted and carries the hash and the Merkle
    root the code recomputes. *)
Lemma valid_block_commitments_witness :
  example_valid_block example_block = Ret 1 /\
  compute_block_hash [] example_digest example_block = Some (hash example_block) /\
  compute_merkle_root example_digest example_block
  = Ret (Some (merkle_root example_block)).
Proof.
  split; [exact example_block_valid|].
  destruct (valid_block_commitments _ _ _ _ _ _ _ _ _ example_block_valid)
    as (Hh & _ & Hm & _).
  split; assumption.
Defined.

(** X3: a block with no transaction is rejected. *)
Lemma valid_block_early_rejection_witness :
  transaction_count (block_of example_now []) < 1 /\
  example_valid_block (block_of example_now []) = Ret 0.
Proof.
  assert (Hc : transaction_count (block_of example_now []) < 1) by reflexivity.
  split; [exact Hc|].
  exact (proj1 (proj2 (valid_block_early_rejection example_max_future_block_time
                         example_max_block_size [] example_digest example_verify
                         example_check_proof_of_work example_tx_header_size
                         example_now (block_of example_now []))) Hc).
Defined.

(** X6: the size of the example block. *)
Lemma get_block_header_size_sum_witness :
  block_transactions example_block = Some [example_coinbase; example_spend] /\
  get_block_header_size example_tx_header_size example_block
  = Ret (to_uint32 (BLOCK_HEADER_SIZE
                    + sum_Z (example_tx_header_size
                             <$> [example_coinbase; example_spend]))).
Proof.
  split; [exact example_block_transactions|].
  exact (get_block_header_size_sum example_tx_header_size example_block _
           example_block_transactions).
Defined.

(** X7: the Merkle root computed for the example block. *)
Lemma compute_merkle_root_of_txids_witness :
  block_transactions example_block = Some [example_coinbase; example_spend] /\
  exists root,
    Merkle.merkle_root_node example_digest [id example_coinbase; id example_spend]
    = Some root /\
    compute_merkle_root example_digest example_block = Ret (Some (Merkle.hash root)).
Proof.
  split; [exact example_block_transactions|].
  apply (compute_merkle_root_of_txids example_digest example_block
           [example_coinbase; example_spend]).
  - exact example_block_transactions.
  - split; [discriminate | reflexivity].
  - vm_compute. reflexivity.
  - repeat constructor.
Defined.


(** X4: the Merkle root of the example block. *)
Lemma valid_block_merkle_commitment_witness :
  (forall m, hash_wf (example_digest m)) /\
  transaction_count example_block < 2 ^ 27 /\
  example_valid_block example_block = Ret 1 /\
  exists txs root,
    block_transactions example_block = Some txs /\
    Merkle.merkle_root_node example_digest (id <$> txs) = Some root /\
    merkle_root example_block = Merkle.hash root.
Proof.
  assert (Hmax : transaction_count example_block < 2 ^ 27) by reflexivity.
  split; [exact example_digest_wf|]. split; [exact Hmax|].
  split; [exact example_block_valid|].
  destruct (valid_block_merkle_commitment _ _ _ _ _ _ _ _ _
              example_digest_wf Hmax example_block_valid)
    as (txs & root & Htxs & _ & Hroot & Hm).
  exists txs, root. auto.
Defined.

(** X9: the example block compared with itself. *)
Lemma compare_block_equal_witness :
  block_transactions example_block = Some [example_coinbase; example_spend] /\
  exists r,
    compare_block example_compare_transaction example_block example_block = Ret r /\
    (r = 0 \/ r = 1).
Proof.
  split; [exact example_block_transactions|].
  destruct (proj2 (compare_block_equal example_compare_transaction
                     example_block example_block)
              _ _ example_block_transactions example_block_transactions)
    as (r & Hr & Hrange & _).
  exists r. auto.
Defined.

(** X11: freeing the transactions of the example block twice. *)
Lemma free_block_transactions_idempotent_witness :
  free_block_transactions example_block = Ret (set_transactions 0 None example_block) /\
  free_block_transactions (set_transactions 0 None example_block)
  = Ret (set_transactions 0 None example_block).
Proof.
  assert (Hf : free_block_transactions example_block
               = Ret (set_transactions 0 None example_block)) by reflexivity.
  split; [exact Hf|].
  exact (proj2 (proj1 (free_block_transactions_idempotent example_block) _ Hf)).
Defined.

(** X10: copying a freshly made block into the example block. *)
Lemma copy_block_without_transactions_witness :
  transaction_count (make_block example_block_version) = 0 /\
  copy_block example_compare_transaction example_copy_transaction
    (make_block example_block_version) example_block
  = Ret (0, copy_block_fields (make_block example_block_version) example_block).
Proof.
  split; [reflexivity|].
  exact (proj1 (copy_block_without_transactions example_compare_transaction
                  example_copy_transaction (make_block example_block_version)
                  example_block) eq_refl).
Defined.

(** X12: the example block and the same block with its hash field and its
    transactions removed, hashed over two allocations that hold zeros, get
    the same hash. *)
Lemma compute_block_hash_binds_header_witness :
  let other_block := set_transactions 0 None (set_hash [] example_block) in
  header_wf example_block /\ header_wf other_block /\
  compute_block_hash [] example_digest example_block
  = compute_block_hash (replicate 92 x00) example_digest other_block /\
  (same_header example_block other_block \/
   exists x y : list byte, x <> y /\ example_digest x = example_digest y).
Proof.
  intros other_block.
  assert (Hwf : header_wf other_block) by exact example_block_header_wf.
  assert (Hsame : same_header example_block other_block) by (repeat split).
  assert (E : compute_block_hash [] example_digest example_block
              = compute_block_hash (replicate 92 x00) example_digest other_block).
  { apply (proj2 (compute_block_hash_binds_header example_digest []
                    (replicate 92 x00) example_block other_block) Hsame).
    reflexivity. }
  split; [exact example_block_header_wf|]. split; [exact Hwf|].
  split; [exact E|].
  exact (proj1 (compute_block_hash_binds_header example_digest []
                  (replicate 92 x00) example_block other_block)
           example_block_header_wf Hwf E).
Defined.

(** X13: one transaction added to a block that holds its coinbase. *)
Lemma add_transactions_to_block_after_first_witness :
  let block := block_of example_now [example_coinbase] in
  transaction_count block = 1 /\
  add_transactions_to_block block [Some example_spend] 1
  = Ret (0, set_transactions 2
              (Some [Some example_coinbase; Some example_spend]) block).
Proof.
  intros block. split; [reflexivity|].
  apply (proj1 (add_transactions_to_block_after_first block [Some example_spend] 1
                  [example_spend] eq_refl eq_refl eq_refl)).
  reflexivity.
Defined.

(** X14: the id of the second transaction of the example block is found. *)
Lemma get_tx_by_hash_from_block_first_match_witness :
  block_transactions example_block = Some [example_coinbase; example_spend] /\
  exists r,
    get_tx_by_hash_from_block example_block (id example_spend) = Ret r /\
    match r with
    | Some tx => id tx = id example_spend
    | None => False
    end.
Proof.
  split; [exact example_block_transactions|].
  destruct (get_tx_by_hash_from_block_first_match example_block _ (id example_spend)
              example_block_transactions) as (r & Hr & Hmatch).
  exists r. split; [exact Hr|].
  destruct r as [tx|].
  - destruct Hmatch as (i & _ & Hid & _). exact Hid.
  - apply (proj1 (Forall_lookup _ _)) with (i := 1%nat) (x := example_spend) in Hmatch;
      [now destruct Hmatch | reflexivity].
Defined.

(** X5: the second transaction of the example block, looked up by its id. *)
Lemma valid_block_lookup_by_id_witness :
  example_valid_block example_block = Ret 1 /\
  block_tx example_block 1 = Ret (Some example_spend) /\
  get_tx_by_hash_from_block example_block (id example_spend)
  = Ret (Some example_spend).
Proof.
  assert (Hb : block_tx example_block 1 = Ret (Some example_spend)) by reflexivity.
  assert (Hi : 0 <= 1 < transaction_count example_block)
    by (split; [discriminate | reflexivity]).
  split; [exact example_block_valid|]. split; [exact Hb|].
  exact (valid_block_lookup_by_id _ _ _ _ _ _ _ _ _ _ _ example_block_valid Hi Hb).
Defined.

(** X15: the bytes of the example block, one byte short. *)
Lemma block_from_serialized_short_input_witness :
  block_fields_wf example_block /\
  block_from_serialized example_block_version (block_bytes example_block ++ []) 135
  = None.
Proof.
  split; [exact example_block_fields_wf|].
  assert (Hlen : 0 <= 135 <= Z.of_nat (length (block_bytes example_block ++ [])))
    by (vm_compute; split; discriminate).
  exact (proj2 (block_from_serialized_short_input example_block_version
                  example_block [] 135 example_block_fields_wf Hlen)).
Defined.

Lemma example_codec_writes (tx : transaction_t) :
  Buffer.appends (example_serialize_transaction tx) (example_encoding tx).
Proof. apply Buffer.appends_write. Qed.

Lemma example_codec_reads (tx : transaction_t) (rest : list byte) :
  tx ∈ [example_coinbase; example_spend] ->
  example_deserialize_transaction (Buffer.mk_iterator (example_encoding tx ++ rest))
  = Some (Some tx, Buffer.mk_iterator rest).
Proof.
  intros Hin. unfold example_deserialize_transaction. rewrite Buffer.run_bind.
  assert (Hcases : tx = example_coinbase \/ tx = example_spend).
  { apply elem_of_cons in Hin as [->|Hin]; [now left|].
    apply elem_of_cons in Hin as [->|Hin]; [now right|].
    now apply elem_of_nil in Hin. }
  destruct Hcases as [-> | ->].
  - change (Z.to_nat HASH_SIZE) with (length (example_encoding example_coinbase)) at 1.
    rewrite Buffer.read_bytes_app. vm_compute. reflexivity.
  - change (Z.to_nat HASH_SIZE) with (length (example_encoding example_spend)) at 1.
    rewrite Buffer.read_bytes_app. vm_compute. reflexivity.
Qed.

(** X16: the example block, written and read back with the stand-in
    codec. *)
Lemma block_with_transactions_round_trip_witness :
  block_fields_wf example_block /\
  block_transactions example_block = Some [example_coinbase; example_spend] /\
  exists buffer buffer' header_block buffer_iterator,
    serialize_block example_block Buffer.buffer_init = (0, buffer) /\
    serialize_transactions_from_block example_serialize_transaction example_block buffer
    = Ret (0, buffer') /\
    deserialize_block example_block_version (Buffer.buffer_iterator_init buffer')
    = Some (header_block, buffer_iterator) /\
    deserialize_transactions_to_block example_deserialize_transaction
      buffer_iterator header_block
    = Ret (0, example_block, Buffer.mk_iterator []).
Proof.
  split; [exact example_block_fields_wf|].
  split; [exact example_block_transactions|].
  destruct (block_with_transactions_round_trip example_block_version
              example_serialize_transaction example_deserialize_transaction
              example_block [example_coinbase; example_spend] example_encoding
              example_block_fields_wf example_block_transactions
              (fun tx _ => example_codec_writes tx)
              (fun tx rest Hin => example_codec_reads tx rest Hin))
    as (buffer & buffer' & Hs & Hst & _ & header_block & it & Hd & Hdt).
  exists buffer, buffer', header_block, it.
  split; [exact Hs|]. split; [exact Hst|]. split; [exact Hd|]. exact Hdt.
Defined.

(** X17: a level of three leaves. *)
Lemma collapse_merkle_nodes_level_witness :
  let level := Merkle.leaf <$> [replicate 32 x01; replicate 32 x02; replicate 32 x03] in
  exists nodes',
    Merkle.collapse_merkle_nodes example_digest (level ++ []) 3 = Ret (nodes', 2).
Proof.
  intros level.
  destruct (Merkle.collapse_merkle_nodes_level example_digest level [])
    as (nodes' & Hrun & _); [cbn; lia | reflexivity |].
  exists nodes'. exact Hrun.
Defined.

(** X18: two concrete txids. *)
Lemma construct_merkle_tree_total_witness :
  let txids := [replicate 32 x01; replicate 32 x02] in
  Forall hash_wf txids /\
  exists root,
    Merkle.construct_merkle_tree_from_leaves example_digest (concat txids) 2
    = Ret (Some (Merkle.mk_tree root)).
Proof.
  intros txids.
  assert (Hwf : Forall hash_wf txids) by (repeat constructor).
  split; [exact Hwf|].
  destruct (proj2 (Merkle.construct_merkle_tree_total example_digest txids) Hwf)
    as ((root & _ & Htree) & _); [cbn; lia | reflexivity |].
  exists root. exact Htree.
Defined.

(** X19: three concrete txids, and the four with the last one repeated. *)
Lemma merkle_root_duplicate_last_witness :
  let a := replicate 32 x01 in
  let b := replicate 32 x02 in
  let c := replicate 32 x03 in
  exists tree,
    Merkle.construct_merkle_tree_from_leaves example_digest (concat [a; b; c]) 3
    = Ret (Some tree) /\
    Merkle.construct_merkle_tree_from_leaves example_digest (concat [a; b; c; c]) 4
    = Ret (Some tree).
Proof.
  intros a b c.
  apply (Merkle.merkle_root_duplicate_last example_digest [a; b; c] c).
  - repeat constructor.
  - reflexivity.
  - cbn; lia.
  - cbn [length]; lia.
  - reflexivity.
Defined.

(** Two allocations: a leaf, and a parent whose two pointers refer to it. *)
Definition example_memory : list (option MerkleMemory.object) :=
  [Some (MerkleMemory.node_object
           (MerkleMemory.mk_node None None (replicate 32 x03)));
   Some (MerkleMemory.node_object
           (MerkleMemory.mk_node (Some 0%nat) (Some 0%nat)
              (example_digest (replicate 32 x03 ++ replicate 32 x03))))].

(** X21: a parent whose two pointers refer to one leaf. *)
Lemma free_merkle_node_frees_every_node_once_witness :
  let leaf := Merkle.leaf (replicate 32 x03) in
  MerkleMemory.tree_at example_memory 1
    (Merkle.construct_merkle_node example_digest leaf leaf) [1; 0]%nat /\
  exists m',
    MerkleMemory.free_merkle_node 2 (Some 1%nat) example_memory = Ret m' /\
    m' !! 0%nat = Some None /\ m' !! 1%nat = Some None.
Proof.
  intros leaf.
  assert (Htree : MerkleMemory.tree_at example_memory 1
                    (Merkle.construct_merkle_node example_digest leaf leaf)
                    [1; 0]%nat).
  { apply (MerkleMemory.tree_at_twin example_memory 1 0 _ leaf [0%nat]).
    - reflexivity.
    - apply MerkleMemory.tree_at_leaf. reflexivity.
    - apply NoDup_cons_2; [|apply NoDup_singleton].
      intros Hin. apply list_elem_of_singleton in Hin. discriminate. }
  split; [exact Htree|].
  destruct (MerkleMemory.free_merkle_node_frees_every_node_once 2 example_memory 1
              _ _ Htree) as (m' & Hfree & _ & Hin & _); [cbn; lia|].
  exists m'. split; [exact Hfree|]. split; apply Hin.
  - apply list_elem_of_further, list_elem_of_here.
  - apply list_elem_of_here.
Defined.

(** X20: three concrete txids, built in an empty memory. *)
Lemma construct_merkle_tree_in_memory_witness :
  let txids := [replicate 32 x01; replicate 32 x02; replicate 32 x03] in
  Forall hash_wf txids /\
  exists t root ext,
    Merkle.construct_merkle_tree_from_leaves example_digest (concat txids) 3
    = Ret (Some (Merkle.mk_tree t)) /\
    MerkleMemory.construct_merkle_tree_from_leaves example_digest (concat txids) 3 []
    = Ret (Some 0%nat, Some (MerkleMemory.tree_object (Some root)) :: ext).
Proof.
  intros txids.
  assert (Hwf : Forall hash_wf txids) by (repeat constructor).
  split; [exact Hwf|].
  destruct (MerkleMemory.construct_merkle_tree_in_memory example_digest txids [] Hwf)
    as (t & root & ext & fp & Hvalue & Hrun & _); [cbn; lia | reflexivity |].
  exists t, root, ext. split; [exact Hvalue | exact Hrun].
Defined.

(** X22: the tree over three concrete txids, built in an empty memory and
    freed. *)
Lemma free_merkle_tree_after_construct_witness :
  let txids := [replicate 32 x01; replicate 32 x02; replicate 32 x03] in
  Forall hash_wf txids /\
  exists tree m1,
    MerkleMemory.construct_merkle_tree_from_leaves example_digest (concat txids) 3 []
    = Ret (Some tree, m1) /\
    MerkleMemory.free_merkle_tree (length m1) (Some tree) m1
    = Ret (replicate (length m1) None).
Proof.
  intros txids.
  assert (Hwf : Forall hash_wf txids) by (repeat constructor).
  split; [exact Hwf|].
  destruct (MerkleMemory.free_merkle_tree_after_construct example_digest txids [] Hwf)
    as (tree & m1 & Hrun & _ & Hfree); [cbn; lia | reflexivity |].
  exists tree, m1. split; [exact Hrun|].
  specialize (Hfree (length m1)). cbn [length app] in Hfree.
  rewrite Nat.sub_0_r in Hfree. apply Hfree. lia.
Defined.




(** X26: [valid_block] returns on the example block. *)
Lemma valid_block_returns_in_well_formed_memory_witness :
  (forall m, hash_wf (example_digest m)) /\
  block_transactions example_block = Some [example_coinbase; example_spend] /\
  Forall (fun tx => is_Some (tx_inputs tx) /\ is_Some (tx_outputs tx))
    [example_coinbase; example_spend] /\
  exists r, example_valid_block example_block = Ret r /\ (r = 0 \/ r = 1).
Proof.
  assert (Hall : Forall (fun tx => is_Some (tx_inputs tx) /\ is_Some (tx_outputs tx))
                   [example_coinbase; example_spend])
    by (repeat constructor; eexists; reflexivity).
  split; [exact example_digest_wf|]. split; [exact example_block_transactions|].
  split; [exact Hall|].
  apply (valid_block_returns_in_well_formed_memory example_max_future_block_time
           example_max_block_size [] example_digest example_verify
           example_check_proof_of_work example_tx_header_size
           example_now example_block
           [example_coinbase; example_spend] example_digest_wf
           example_block_transactions Hall).
  reflexivity.
Defined.

(** X28: the example block with its transaction array taken away. *)
Lemma valid_block_null_transactions_witness :
  let block := set_transactions 2 None example_block in
  transactions block = None /\
  example_valid_block block = Crash null_dereference.
Proof.
  intros block. split; [reflexivity|].
  apply (valid_block_null_transactions example_max_future_block_time
           example_max_block_size [] example_digest example_verify
           example_check_proof_of_work example_tx_header_size
           example_now block).
  - reflexivity.
  - discriminate.
  - vm_compute. discriminate.
Defined.

(** A second spend, and a block of three transactions. *)
Definition example_second_spend : transaction_t :=
  signed (replicate 32 x04) (with_id (mk_tx [] 1 1
    [Some (mk_txin (replicate 32 xbb) 1 (replicate 64 x00) (replicate 32 x00))]
    [Some (mk_txout 5 (replicate 33 x05))])).

Definition example_block_of_three : block_t :=
  block_of example_now [example_coinbase; example_spend; example_second_spend].

(** X27: the block of three transactions is accepted; with its last
    transaction repeated it has the same Merkle root and is rejected. *)
Lemma valid_block_rejects_repeated_last_witness :
  let repeated :=
    set_transactions 4
      (Some (Some <$> [example_coinbase; example_spend; example_second_spend;
                       example_second_spend]))
      example_block_of_three in
  example_valid_block example_block_of_three = Ret 1 /\
  example_valid_block repeated = Ret 0 /\
  compute_merkle_root example_digest repeated
  = compute_merkle_root example_digest example_block_of_three.
Proof.
  intros repeated.
  assert (Hv : example_valid_block example_block_of_three = Ret 1)
    by (vm_compute; reflexivity).
  split; [exact Hv|].
  destruct (valid_block_rejects_repeated_last example_max_future_block_time
              example_max_block_size [] example_digest example_verify
              example_check_proof_of_work example_tx_header_size
              example_now example_block_of_three
              (Some <$> [example_coinbase; example_spend; example_second_spend])
              example_second_spend example_digest_wf Hv eq_refl eq_refl eq_refl
              eq_refl) as (_ & Hrejected & Hroot).
  split; [exact Hrejected|].
  apply Hroot; [reflexivity | discriminate | reflexivity].
Defined.

End Examples.
